(** * BattleLogic: the frame-stepped battle engine of [src/example/BattleLogic.ts]

    A shallow embedding of the class [BattleLogic] and a verification of the
    properties its specification states about it.

    Modelling conventions.
    - JavaScript numbers that hold quantities (cost, health, power, distance,
      frame counts, unit-type ids) are integers [Z]; the arithmetic of the
      engine on them is addition, subtraction and comparison, which is exact
      on integers.  The knock-back thresholds are fractions, and a fraction
      is a double: a threshold rate is an IEEE 754 binary64 number
      ([spec_float] of the standard library, at precision 53 and maximal
      exponent 1024), the product [maxHealth * rate] is the rounded product
      of two doubles, and the two comparisons with it are comparisons of
      doubles.
    - [UnitEntity] objects are shared and mutated in place: several entities
      may hold a reference to the same target through [engagedEntity], and an
      object survives its removal from the [unitEntities] array while
      something still refers to it.  The model therefore has an object store
      ([heap]) from references to entity records; [unitEntities] is the array
      of references, in array order, and [engagedEntity] is an optional
      reference.  A reference is a natural number; [updateSpawnRequest]
      allocates at [nextEntityId], the number it also writes into the field
      [id] of the new object.
    - The delegator is both asked for decisions and told about events.  Its
      three decisions are functions of the entities they are asked about; the
      calls that only inform it are recorded, in order, in [events]. *)

From Stdlib Require Import ZArith SpecFloat List Bool Lia.
From stdpp Require Import base option list gmap.
Import ListNotations.

Open Scope Z_scope.

(** ** Data model *)

(** [AttackableState] (imported by the source from [example/AttackableState]). *)
Inductive AttackableState : Type := IDLE | ENGAGED | KNOCK_BACK | DEAD.

#[global] Instance AttackableState_eq_dec : EqDecision AttackableState.
Proof. solve_decision. Defined.

(** [UnitMaster]: the fields of a unit-type master record the engine reads. *)
Module UnitMaster.
Record t : Type := make {
  unitId : Z;
  cost : Z;
  maxHealth : Z;
  power : Z;
  speed : Z;
  knockBackSpeed : Z;
  knockBackFrames : Z
}.
End UnitMaster.

(** The numbers of JavaScript: IEEE 754 binary64. *)
Module Double.

Definition prec : Z := 53.
Definition emax : Z := 1024.

(** The double of an integer quantity (the integer itself up to [2^53]). *)
Definition ofZ (z : Z) : spec_float := binary_normalize prec emax z 0 false.

(** [x * y], rounded to nearest, ties to even. *)
Definition mul (x y : spec_float) : spec_float := SFmul prec emax x y.

(** [x <= y] and [x < y]; both are [false] when an operand is NaN. *)
Definition leb (x y : spec_float) : bool := SFleb x y.
Definition ltb (x y : spec_float) : bool := SFltb x y.

(** The double a decimal literal denotes, given as the fraction [n / d] of
    two integers below [2^53]: the double nearest to the fraction, which is
    what the correctly rounded division of the two gives. *)
Definition literal (n d : Z) : spec_float := SFdiv prec emax (ofZ n) (ofZ d).

End Double.

(** [BattleLogicConfig]. *)
Record BattleLogicConfig : Type := mkConfig {
  costRecoveryPerFrame : Z;
  maxAvailableCost : Z;
  knockBackHealthThreasholds : list spec_float
}.

(** A reference to a [UnitEntity] object. *)
Abbreviation Ref := nat (only parsing).

(** [UnitEntity]: the fields the engine reads and writes. *)
Record UnitEntity : Type := mkUnitEntity {
  id : nat;
  unitId : Z;
  isPlayer : bool;
  state : AttackableState;
  currentHealth : Z;
  maxHealth : Z;
  currentFrameDamage : Z;
  currentKnockBackFrameCount : Z;
  engagedEntity : option Ref;
  distance : Z
}.

Definition with_id (v : nat) (e : UnitEntity) : UnitEntity :=
  mkUnitEntity v (unitId e) (isPlayer e) (state e) (currentHealth e)
    (maxHealth e) (currentFrameDamage e) (currentKnockBackFrameCount e)
    (engagedEntity e) (distance e).
Definition with_state (v : AttackableState) (e : UnitEntity) : UnitEntity :=
  mkUnitEntity (id e) (unitId e) (isPlayer e) v (currentHealth e)
    (maxHealth e) (currentFrameDamage e) (currentKnockBackFrameCount e)
    (engagedEntity e) (distance e).
Definition with_currentHealth (v : Z) (e : UnitEntity) : UnitEntity :=
  mkUnitEntity (id e) (unitId e) (isPlayer e) (state e) v
    (maxHealth e) (currentFrameDamage e) (currentKnockBackFrameCount e)
    (engagedEntity e) (distance e).
Definition with_maxHealth (v : Z) (e : UnitEntity) : UnitEntity :=
  mkUnitEntity (id e) (unitId e) (isPlayer e) (state e) (currentHealth e)
    v (currentFrameDamage e) (currentKnockBackFrameCount e)
    (engagedEntity e) (distance e).
Definition with_currentFrameDamage (v : Z) (e : UnitEntity) : UnitEntity :=
  mkUnitEntity (id e) (unitId e) (isPlayer e) (state e) (currentHealth e)
    (maxHealth e) v (currentKnockBackFrameCount e)
    (engagedEntity e) (distance e).
Definition with_currentKnockBackFrameCount (v : Z) (e : UnitEntity) : UnitEntity :=
  mkUnitEntity (id e) (unitId e) (isPlayer e) (state e) (currentHealth e)
    (maxHealth e) (currentFrameDamage e) v
    (engagedEntity e) (distance e).
Definition with_engagedEntity (v : option Ref) (e : UnitEntity) : UnitEntity :=
  mkUnitEntity (id e) (unitId e) (isPlayer e) (state e) (currentHealth e)
    (maxHealth e) (currentFrameDamage e) (currentKnockBackFrameCount e)
    v (distance e).
Definition with_distance (v : Z) (e : UnitEntity) : UnitEntity :=
  mkUnitEntity (id e) (unitId e) (isPlayer e) (state e) (currentHealth e)
    (maxHealth e) (currentFrameDamage e) (currentKnockBackFrameCount e)
    (engagedEntity e) v.

(** Modelled from the spec: the class [UnitEntity] is imported from
    [example/UnitEntity], which is not among the sources.  [new UnitEntity
    (unitId, isPlayer)] is taken to store its two arguments and to start every
    other field at its neutral value: no engaged entity, numbers at [0], state
    [IDLE].  [updateSpawnRequest] overwrites [id], [maxHealth],
    [currentHealth] and [state] right after the construction. *)
Definition newUnitEntity (unitId : Z) (isPlayer : bool) : UnitEntity :=
  mkUnitEntity 0%nat unitId isPlayer IDLE 0 0 0 0 None 0.

(** The three decisions of [BattleLogicDelegate]. *)
Record BattleLogicDelegate : Type := mkDelegate {
  shouldDamage : UnitEntity -> UnitEntity -> bool;
  shouldUnitWalk : UnitEntity -> bool;
  shouldEngageAttackableEntity : UnitEntity -> UnitEntity -> bool
}.

(** The calls that inform the delegator.  Entities are passed as they are at
    the time of the call.  [onUnitEntityKnockingBack] receives the quotient
    [currentKnockBackFrameCount / knockBackFrames]; the event keeps the two
    operands. *)
Inductive Event : Type :=
| onAvailableCostUpdated (cost maxCost : Z) (availablePlayerUnitIds : list Z)
| onUnitEntitySpawned (entity : UnitEntity) (baseLocation : Z)
| onAttackableEntityHealthUpdated
    (attacker target : UnitEntity) (fromHealth toHealth maxHealth : Z)
| onUnitEntityKnockingBack (unit : UnitEntity) (count frames : Z)
| onUnitEntityWalked (unit : UnitEntity)
| onAttackableEntityStateChanged (entity : UnitEntity) (oldState : AttackableState).

(** The fields of a [BattleLogic] instance.  [stageMasterCache] is only read
    inside [init], for its waves, and is not kept. *)
Record BattleLogic : Type := mkBattleLogic {
  config : BattleLogicConfig;
  delegator : option BattleLogicDelegate;
  availableCost : Z;
  nextEntityId : nat;
  unitEntities : list Ref;
  heap : gmap nat UnitEntity;
  unitMasterCache : gmap Z UnitMaster.t;
  aiWaveCache : gmap Z (list Z);
  passedFrameCount : Z;
  spawnRequestedUnitUnitIds : list (Z * bool);
  player : list Z;
  events : list Event
}.

Definition with_config v (this : BattleLogic) : BattleLogic :=
  mkBattleLogic v (delegator this) (availableCost this) (nextEntityId this)
    (unitEntities this) (heap this) (unitMasterCache this) (aiWaveCache this)
    (passedFrameCount this) (spawnRequestedUnitUnitIds this) (player this)
    (events this).
Definition with_delegator v (this : BattleLogic) : BattleLogic :=
  mkBattleLogic (config this) v (availableCost this) (nextEntityId this)
    (unitEntities this) (heap this) (unitMasterCache this) (aiWaveCache this)
    (passedFrameCount this) (spawnRequestedUnitUnitIds this) (player this)
    (events this).
Definition with_availableCost v (this : BattleLogic) : BattleLogic :=
  mkBattleLogic (config this) (delegator this) v (nextEntityId this)
    (unitEntities this) (heap this) (unitMasterCache this) (aiWaveCache this)
    (passedFrameCount this) (spawnRequestedUnitUnitIds this) (player this)
    (events this).
Definition with_nextEntityId v (this : BattleLogic) : BattleLogic :=
  mkBattleLogic (config this) (delegator this) (availableCost this) v
    (unitEntities this) (heap this) (unitMasterCache this) (aiWaveCache this)
    (passedFrameCount this) (spawnRequestedUnitUnitIds this) (player this)
    (events this).
Definition with_unitEntities v (this : BattleLogic) : BattleLogic :=
  mkBattleLogic (config this) (delegator this) (availableCost this)
    (nextEntityId this) v (heap this) (unitMasterCache this) (aiWaveCache this)
    (passedFrameCount this) (spawnRequestedUnitUnitIds this) (player this)
    (events this).
Definition with_heap v (this : BattleLogic) : BattleLogic :=
  mkBattleLogic (config this) (delegator this) (availableCost this)
    (nextEntityId this) (unitEntities this) v (unitMasterCache this)
    (aiWaveCache this) (passedFrameCount this) (spawnRequestedUnitUnitIds this)
    (player this) (events this).
Definition with_unitMasterCache v (this : BattleLogic) : BattleLogic :=
  mkBattleLogic (config this) (delegator this) (availableCost this)
    (nextEntityId this) (unitEntities this) (heap this) v (aiWaveCache this)
    (passedFrameCount this) (spawnRequestedUnitUnitIds this) (player this)
    (events this).
Definition with_aiWaveCache v (this : BattleLogic) : BattleLogic :=
  mkBattleLogic (config this) (delegator this) (availableCost this)
    (nextEntityId this) (unitEntities this) (heap this) (unitMasterCache this)
    v (passedFrameCount this) (spawnRequestedUnitUnitIds this) (player this)
    (events this).
Definition with_passedFrameCount v (this : BattleLogic) : BattleLogic :=
  mkBattleLogic (config this) (delegator this) (availableCost this)
    (nextEntityId this) (unitEntities this) (heap this) (unitMasterCache this)
    (aiWaveCache this) v (spawnRequestedUnitUnitIds this) (player this)
    (events this).
Definition with_spawnRequestedUnitUnitIds v (this : BattleLogic) : BattleLogic :=
  mkBattleLogic (config this) (delegator this) (availableCost this)
    (nextEntityId this) (unitEntities this) (heap this) (unitMasterCache this)
    (aiWaveCache this) (passedFrameCount this) v (player this) (events this).
Definition with_player v (this : BattleLogic) : BattleLogic :=
  mkBattleLogic (config this) (delegator this) (availableCost this)
    (nextEntityId this) (unitEntities this) (heap this) (unitMasterCache this)
    (aiWaveCache this) (passedFrameCount this) (spawnRequestedUnitUnitIds this)
    v (events this).
Definition with_events v (this : BattleLogic) : BattleLogic :=
  mkBattleLogic (config this) (delegator this) (availableCost this)
    (nextEntityId this) (unitEntities this) (heap this) (unitMasterCache this)
    (aiWaveCache this) (passedFrameCount this) (spawnRequestedUnitUnitIds this)
    (player this) v.

(** Mutation of the object behind a reference. *)
Definition modifyEntity (r : Ref) (f : UnitEntity -> UnitEntity)
    (this : BattleLogic) : BattleLogic :=
  with_heap (alter f r (heap this)) this.

(** The object behind [r] after a method has written to its fields. *)
Definition setEntity (r : Ref) (e : UnitEntity) (this : BattleLogic)
    : BattleLogic :=
  with_heap (<[r := e]> (heap this)) this.

(** [if (this.delegator) { this.delegator.onX(...) }]. *)
Definition notify (ev : Event) (this : BattleLogic) : BattleLogic :=
  match delegator this with
  | Some _ => with_events (events this ++ [ev]) this
  | None => this
  end.

(** Modelled from the spec: [new BattleLogicConfig()] is the value of the
    field [config] before [init]; the class is imported from
    [example/BattleLogicConfig], which is not among the sources, so the
    default is a parameter of the fresh instance. *)
Definition newBattleLogic (defaultConfig : BattleLogicConfig) : BattleLogic :=
  mkBattleLogic defaultConfig None 0 0%nat [] ∅ ∅ ∅ 0 [] [] [].

(** ** Operations *)

(** The argument of [init].  [waves] is the object [stageMaster.waves] as the
    list of its entries in [Object.keys] order, each key already read as a
    number. *)
Record InitParams : Type := mkInitParams {
  p_delegator : BattleLogicDelegate;
  p_waves : list (Z * list Z);
  p_player : list Z;
  p_unitMasters : list UnitMaster.t;
  p_config : option BattleLogicConfig
}.

Definition init (params : InitParams) (this : BattleLogic) : BattleLogic :=
  let this := match p_config params with
              | Some c => with_config c this
              | None => this
              end in
  let this := with_delegator (Some (p_delegator params)) this in
  let this := with_player (p_player params) this in
  let this := with_unitMasterCache ∅ this in
  let this :=
    fold_left (fun this unit =>
                 with_unitMasterCache
                   (<[UnitMaster.unitId unit := unit]> (unitMasterCache this)) this)
              (p_unitMasters params) this in
  fold_left (fun this kv =>
               with_aiWaveCache (<[fst kv := snd kv]> (aiWaveCache this)) this)
            (p_waves params) this.

Definition requestSpawn (unitId : Z) (isPlayer : bool) (this : BattleLogic)
    : BattleLogic :=
  with_spawnRequestedUnitUnitIds
    (spawnRequestedUnitUnitIds this ++ [(unitId, isPlayer)]) this.

Definition requestSpawnPlayer (unitId : Z) : BattleLogic -> BattleLogic :=
  requestSpawn unitId true.

Definition requestSpawnAI (unitId : Z) : BattleLogic -> BattleLogic :=
  requestSpawn unitId false.

(** The loop of [updateAvailableCost] that collects the affordable unit ids. *)
Definition availablePlayerUnitIds (this : BattleLogic) : list Z :=
  fold_left (fun acc unitId =>
               match unitMasterCache this !! unitId with
               | None => acc
               | Some master =>
                   if availableCost this >=? UnitMaster.cost master
                   then acc ++ [unitId] else acc
               end)
            (player this) [].

Definition updateAvailableCost (newCost : Z) (this : BattleLogic) : BattleLogic :=
  let cost := if newCost >? maxAvailableCost (config this)
              then maxAvailableCost (config this) else newCost in
  let this := with_availableCost cost this in
  notify (onAvailableCostUpdated (availableCost this)
            (maxAvailableCost (config this)) (availablePlayerUnitIds this)) this.

Definition updateAISpawn (this : BattleLogic) : BattleLogic :=
  match aiWaveCache this !! passedFrameCount this with
  | None => this
  | Some waves => fold_left (fun this unitId => requestSpawnAI unitId this) waves this
  end.

(** One iteration of the loop of [updateSpawnRequest]; [tmpCost] is the
    running local cost counter. *)
Definition spawnOne (acc : Z * BattleLogic) (reservedUnit : Z * bool)
    : Z * BattleLogic :=
  let '(tmpCost, this) := acc in
  match unitMasterCache this !! fst reservedUnit with
  | None => acc
  | Some master =>
      let gate :=
        if snd reservedUnit
        then (if tmpCost - UnitMaster.cost master <? 0
              then None
              else Some (tmpCost - UnitMaster.cost master, 100))
        else Some (tmpCost, 1000) in
      match gate with
      | None => acc
      | Some (tmpCost', baseLocation) =>
          let entity := newUnitEntity (fst reservedUnit) (snd reservedUnit) in
          let r := nextEntityId this in
          let entity := with_id r entity in
          let this := with_nextEntityId (S r) this in
          let entity := with_maxHealth (UnitMaster.maxHealth master) entity in
          let entity := with_currentHealth (UnitMaster.maxHealth master) entity in
          let entity := with_state IDLE entity in
          let this := with_heap (<[r := entity]> (heap this)) this in
          let this := with_unitEntities (unitEntities this ++ [r]) this in
          (tmpCost', notify (onUnitEntitySpawned entity baseLocation) this)
      end
  end.

#[global] Arguments spawnOne : simpl never.

Definition updateSpawnRequest (this : BattleLogic) : BattleLogic :=
  match spawnRequestedUnitUnitIds this with
  | [] => this
  | _ =>
      let '(tmpCost, this) :=
        fold_left spawnOne (spawnRequestedUnitUnitIds this)
                  (availableCost this, this) in
      let this := updateAvailableCost tmpCost this in
      with_spawnRequestedUnitUnitIds [] this
  end.

Definition updateDamage (r : Ref) (master : UnitMaster.t) (this : BattleLogic)
    : BattleLogic :=
  match heap this !! r with
  | None => this
  | Some unit =>
      match engagedEntity unit with
      | None => this
      | Some t =>
          match heap this !! t with
          | None => this
          | Some target =>
              let permitted := match delegator this with
                               | None => true
                               | Some d => shouldDamage d unit target
                               end in
              if permitted then
                let newHealth := currentHealth target - UnitMaster.power master in
                let this :=
                  setEntity t
                    (with_currentHealth newHealth
                       (with_currentFrameDamage
                          (currentFrameDamage target + UnitMaster.power master)
                          target))
                    this in
                match heap this !! r, heap this !! t with
                | Some unit', Some target' =>
                    notify (onAttackableEntityHealthUpdated unit' target'
                              (currentHealth target' + UnitMaster.power master)
                              (currentHealth target') (maxHealth target')) this
                | _, _ => this
                end
              else this
          end
      end
  end.

Definition updateDistance (r : Ref) (master : UnitMaster.t) (this : BattleLogic)
    : BattleLogic :=
  match heap this !! r with
  | None => this
  | Some unit =>
      match state unit with
      | KNOCK_BACK =>
          let unit' :=
            with_currentKnockBackFrameCount (currentKnockBackFrameCount unit + 1)
              (with_distance (distance unit - UnitMaster.knockBackSpeed master) unit) in
          let this := setEntity r unit' this in
          notify (onUnitEntityKnockingBack unit' (currentKnockBackFrameCount unit')
                    (UnitMaster.knockBackFrames master)) this
      | IDLE =>
          let unit0 := with_currentKnockBackFrameCount 0 unit in
          let this := setEntity r unit0 this in
          match delegator this with
          | Some d =>
              if shouldUnitWalk d unit0 then
                let unit1 := with_distance (distance unit0 + UnitMaster.speed master) unit0 in
                let this := setEntity r unit1 this in
                notify (onUnitEntityWalked unit1) this
              else this
          | None =>
              setEntity r
                (with_distance (distance unit0 + UnitMaster.speed master) unit0)
                this
          end
      | _ =>
          setEntity r (with_currentKnockBackFrameCount 0 unit) this
      end
  end.

(** One iteration of the loop of [updateEntityParameter]. *)
Definition parameterOne (this : BattleLogic) (r : Ref) : BattleLogic :=
  match heap this !! r with
  | None => this
  | Some unit =>
      match unitMasterCache this !! unitId unit with
      | None => this
      | Some master => updateDistance r master (updateDamage r master this)
      end
  end.

Definition updateEntityParameter (this : BattleLogic) : BattleLogic :=
  fold_left parameterOne (unitEntities this) this.

(** [updateUnitKnockBackState], [updateUnitEngagedState] and
    [updateUnitIdleState] write to no object but their argument [unit]; each
    is the function from [unit] as it is at the call to [unit] as it is at
    the return, reading the rest of the instance through [this]. *)
Definition updateUnitKnockBackState (this : BattleLogic) (unit : UnitEntity)
    : UnitEntity :=
  let unit := with_engagedEntity None unit in
  match unitMasterCache this !! unitId unit with
  | None => unit
  | Some master =>
      if currentKnockBackFrameCount unit <? UnitMaster.knockBackFrames master
      then unit
      else with_state (if currentHealth unit <? 1 then DEAD else IDLE) unit
  end.

(** The loop over [knockBackHealthThreasholds] in [updateUnitEngagedState]:
    [true] when it reaches the assignment of [KNOCK_BACK] (and breaks). *)
Fixpoint crossesThreashold (currentHealth oldHealth maxHealth : Z)
    (rates : list spec_float) : bool :=
  match rates with
  | [] => false
  | rate :: rest =>
      let threashold := Double.mul (Double.ofZ maxHealth) rate in
      if Double.leb threashold (Double.ofZ currentHealth)
      then crossesThreashold currentHealth oldHealth maxHealth rest
      else if Double.leb threashold (Double.ofZ oldHealth)
           then true
           else crossesThreashold currentHealth oldHealth maxHealth rest
  end.

Definition updateUnitEngagedState (this : BattleLogic) (unit : UnitEntity)
    : UnitEntity :=
  let unit :=
    match engagedEntity unit with
    | None => unit
    | Some t =>
        match heap this !! t with
        | None => unit
        | Some target =>
            let targetIsDead := currentHealth target <? 1 in
            let targetIsKnockingBack := bool_decide (state target = KNOCK_BACK) in
            if targetIsDead || targetIsKnockingBack
            then with_state IDLE (with_engagedEntity None unit)
            else unit
        end
    end in
  let oldHealth := currentHealth unit + currentFrameDamage unit in
  if crossesThreashold (currentHealth unit) oldHealth (maxHealth unit)
       (knockBackHealthThreasholds (config this))
  then with_state KNOCK_BACK (with_engagedEntity None unit)
  else unit.

(** The scan of [updateUnitIdleState]: the first target of the array that is
    on the other side, is [IDLE] or [ENGAGED], and that an attached delegator
    accepts. *)
Fixpoint findEngageTarget (this : BattleLogic) (unit : UnitEntity)
    (targets : list Ref) : option Ref :=
  match targets with
  | [] => None
  | t :: rest =>
      match heap this !! t with
      | None => findEngageTarget this unit rest
      | Some target =>
          if (isPlayer unit && isPlayer target)
             || (negb (isPlayer unit) && negb (isPlayer target))
          then findEngageTarget this unit rest
          else if negb (bool_decide (state target = IDLE))
                  && negb (bool_decide (state target = ENGAGED))
          then findEngageTarget this unit rest
          else match delegator this with
               | Some d =>
                   if shouldEngageAttackableEntity d unit target
                   then Some t
                   else findEngageTarget this unit rest
               | None => findEngageTarget this unit rest
               end
      end
  end.

Definition updateUnitIdleState (this : BattleLogic) (unit : UnitEntity)
    : UnitEntity :=
  match findEngageTarget this unit (unitEntities this) with
  | None => unit
  | Some t => with_state ENGAGED (with_engagedEntity (Some t) unit)
  end.

(** One iteration of one of the three loops of [updateEntityState]: the
    entity behind [r] gets [resolve] when its state is [st] now. *)
Definition resolveOne (st : AttackableState)
    (resolve : BattleLogic -> UnitEntity -> UnitEntity)
    (this : BattleLogic) (r : Ref) : BattleLogic :=
  match heap this !! r with
  | None => this
  | Some entity =>
      if bool_decide (state entity = st)
      then setEntity r (resolve this entity) this
      else this
  end.

Definition resolveGroup (st : AttackableState)
    (resolve : BattleLogic -> UnitEntity -> UnitEntity) (this : BattleLogic)
    : BattleLogic :=
  fold_left (resolveOne st resolve) (unitEntities this) this.

Definition resolveStates (this : BattleLogic) : BattleLogic :=
  let this := resolveGroup KNOCK_BACK updateUnitKnockBackState this in
  let this := resolveGroup ENGAGED updateUnitEngagedState this in
  resolveGroup IDLE updateUnitIdleState this.

Definition updateEntityState (this : BattleLogic) : BattleLogic :=
  let unitStates := map (fun r => state <$> heap this !! r) (unitEntities this) in
  let this := resolveStates this in
  match delegator this with
  | None => this
  | Some _ =>
      fold_left (fun this ro =>
                   match heap this !! fst ro, snd ro with
                   | Some entity, Some oldState =>
                       if bool_decide (oldState = state entity) then this
                       else notify (onAttackableEntityStateChanged entity oldState) this
                   | _, _ => this
                   end)
                (combine (unitEntities this) unitStates) this
  end.

Definition isActive (this : BattleLogic) (r : Ref) : bool :=
  match heap this !! r with
  | Some entity => negb (bool_decide (state entity = DEAD))
  | None => true
  end.

Definition updatePostProcess (this : BattleLogic) : BattleLogic :=
  let activeUnitEntities := List.filter (isActive this) (unitEntities this) in
  let this := with_unitEntities activeUnitEntities this in
  fold_left (fun this r => modifyEntity r (with_currentFrameDamage 0) this)
            (unitEntities this) this.

Definition update (this : BattleLogic) : BattleLogic :=
  let this :=
    updateAvailableCost (availableCost this + costRecoveryPerFrame (config this))
      this in
  let this := updateAISpawn this in
  let this := updateSpawnRequest this in
  let this := updateEntityParameter this in
  let this := updateEntityState this in
  let this := updatePostProcess this in
  with_passedFrameCount (passedFrameCount this + 1) this.

(** The instance inside [update] when [updateEntityState] is called. *)
Definition parametersUpdated (this : BattleLogic) : BattleLogic :=
  updateEntityParameter
    (updateSpawnRequest
       (updateAISpawn
          (updateAvailableCost
             (availableCost this + costRecoveryPerFrame (config this)) this))).

(** ** Runs of the public interface *)

Inductive Call : Type :=
| CallInit (params : InitParams)
| CallRequestSpawn (unitId : Z) (isPlayer : bool)
| CallUpdate.

Definition call (this : BattleLogic) (c : Call) : BattleLogic :=
  match c with
  | CallInit params => init params this
  | CallRequestSpawn unitId isPlayer => requestSpawn unitId isPlayer this
  | CallUpdate => update this
  end.

Definition run (calls : list Call) (this : BattleLogic) : BattleLogic :=
  fold_left call calls this.

(** ** Loops *)

Section Loops.
Context {St A : Type} (step : St -> A -> St).

(** A property kept by every iteration is kept by the loop. *)
Lemma fold_left_keeps (G : St -> Prop) (l : list A) :
  (forall s a, In a l -> G s -> G (step s a)) ->
  forall s, G s -> G (fold_left step l s).
Proof.
  induction l as [|a l IH]; simpl; intros Hstep s Hs; [exact Hs|].
  apply IH; [intros; apply Hstep; auto|].
  apply Hstep; auto.
Qed.

(** A property [P a] that the iteration on [a] brings about, and that no
    iteration destroys, holds after the loop for every element. *)
Lemma fold_left_each (G : St -> Prop) (P : A -> St -> Prop) (l : list A) :
  (forall s a, In a l -> G s -> G (step s a)) ->
  (forall s a, In a l -> G s -> P a (step s a)) ->
  (forall s a b, In a l -> G s -> P b s -> P b (step s a)) ->
  forall s, G s ->
    G (fold_left step l s) /\ forall a, In a l -> P a (fold_left step l s).
Proof.
  intros HG HP HPk.
  assert (Hgen : forall done todo s,
             (forall a, In a todo -> In a l) ->
             G s -> (forall a, In a done -> P a s) ->
             G (fold_left step todo s) /\
             forall a, In a done \/ In a todo -> P a (fold_left step todo s)).
  { intros done todo; revert done.
    induction todo as [|a todo IH]; simpl; intros done s Hsub Hs Hdone.
    - split; [exact Hs|]. intros a [Ha|[]]; auto.
    - destruct (IH (a :: done) (step s a)) as [HG' HP'].
      + intros b Hb; apply Hsub; auto.
      + apply HG; auto.
      + intros b [<-|Hb]; [apply HP; auto|apply HPk; auto].
      + split; [exact HG'|].
        intros b [Hb|[<-|Hb]]; apply HP'; simpl; auto. }
  intros s Hs.
  destruct (Hgen [] l s) as [H1 H2]; auto.
  - intros a [].
Qed.
End Loops.

(** ** What an operation leaves alone *)

(** Everything of an instance but its object store and its event record. *)
Definition skeleton (this : BattleLogic) : BattleLogic :=
  with_heap ∅ (with_events [] this).

Definition sameSkeleton (s s' : BattleLogic) : Prop := skeleton s' = skeleton s.

Lemma sameSkeleton_refl s : sameSkeleton s s.
Proof. reflexivity. Qed.

Lemma sameSkeleton_trans s1 s2 s3 :
  sameSkeleton s1 s2 -> sameSkeleton s2 s3 -> sameSkeleton s1 s3.
Proof. unfold sameSkeleton; congruence. Qed.

Lemma sameSkeleton_unitEntities s s' :
  sameSkeleton s s' -> unitEntities s' = unitEntities s.
Proof. intros H; exact (f_equal unitEntities H). Qed.

Lemma sameSkeleton_config s s' : sameSkeleton s s' -> config s' = config s.
Proof. intros H; exact (f_equal config H). Qed.

Lemma sameSkeleton_delegator s s' :
  sameSkeleton s s' -> delegator s' = delegator s.
Proof. intros H; exact (f_equal delegator H). Qed.

Lemma sameSkeleton_unitMasterCache s s' :
  sameSkeleton s s' -> unitMasterCache s' = unitMasterCache s.
Proof. intros H; exact (f_equal unitMasterCache H). Qed.

Lemma sameSkeleton_nextEntityId s s' :
  sameSkeleton s s' -> nextEntityId s' = nextEntityId s.
Proof. intros H; exact (f_equal nextEntityId H). Qed.

Lemma sameSkeleton_availableCost s s' :
  sameSkeleton s s' -> availableCost s' = availableCost s.
Proof. intros H; exact (f_equal availableCost H). Qed.

Lemma sameSkeleton_queue s s' :
  sameSkeleton s s' -> spawnRequestedUnitUnitIds s' = spawnRequestedUnitUnitIds s.
Proof. intros H; exact (f_equal spawnRequestedUnitUnitIds H). Qed.

Lemma sameSkeleton_passedFrameCount s s' :
  sameSkeleton s s' -> passedFrameCount s' = passedFrameCount s.
Proof. intros H; exact (f_equal passedFrameCount H). Qed.

Lemma sameSkeleton_aiWaveCache s s' :
  sameSkeleton s s' -> aiWaveCache s' = aiWaveCache s.
Proof. intros H; exact (f_equal aiWaveCache H). Qed.

Lemma notify_skeleton ev s : sameSkeleton s (notify ev s).
Proof. unfold notify; destruct (delegator s); reflexivity. Qed.

Lemma notify_heap ev s : heap (notify ev s) = heap s.
Proof. unfold notify; destruct (delegator s); reflexivity. Qed.

Lemma setEntity_skeleton r e s : sameSkeleton s (setEntity r e s).
Proof. reflexivity. Qed.

Lemma modifyEntity_skeleton r f s : sameSkeleton s (modifyEntity r f s).
Proof. reflexivity. Qed.

Lemma fold_left_skeleton {A} (step : BattleLogic -> A -> BattleLogic) l :
  (forall s a, sameSkeleton s (step s a)) ->
  forall s, sameSkeleton s (fold_left step l s).
Proof.
  intros Hstep s.
  apply (fold_left_keeps step (sameSkeleton s)); [|apply sameSkeleton_refl].
  intros s' a _ H; eapply sameSkeleton_trans; [exact H|apply Hstep].
Qed.

Lemma updateDamage_skeleton r master s : sameSkeleton s (updateDamage r master s).
Proof.
  unfold updateDamage.
  repeat case_match; try apply sameSkeleton_refl;
    try (eapply sameSkeleton_trans; [|apply notify_skeleton]);
    apply setEntity_skeleton.
Qed.

Lemma updateDistance_skeleton r master s :
  sameSkeleton s (updateDistance r master s).
Proof.
  unfold updateDistance.
  repeat case_match; try apply sameSkeleton_refl;
    try (eapply sameSkeleton_trans; [|apply notify_skeleton]);
    reflexivity.
Qed.

Lemma parameterOne_skeleton s r : sameSkeleton s (parameterOne s r).
Proof.
  unfold parameterOne. repeat case_match; try apply sameSkeleton_refl.
  eapply sameSkeleton_trans;
    [apply updateDamage_skeleton|apply updateDistance_skeleton].
Qed.

Lemma updateEntityParameter_skeleton s : sameSkeleton s (updateEntityParameter s).
Proof.
  unfold updateEntityParameter. apply fold_left_skeleton.
  intros; apply parameterOne_skeleton.
Qed.

Lemma resolveOne_skeleton st resolve s r : sameSkeleton s (resolveOne st resolve s r).
Proof. unfold resolveOne; repeat case_match; reflexivity. Qed.

Lemma resolveGroup_skeleton st resolve s : sameSkeleton s (resolveGroup st resolve s).
Proof. apply fold_left_skeleton. intros; apply resolveOne_skeleton. Qed.

Lemma resolveStates_skeleton s : sameSkeleton s (resolveStates s).
Proof.
  unfold resolveStates.
  eapply sameSkeleton_trans; [|apply resolveGroup_skeleton].
  eapply sameSkeleton_trans; apply resolveGroup_skeleton.
Qed.

Lemma updateEntityState_skeleton s : sameSkeleton s (updateEntityState s).
Proof.
  unfold updateEntityState.
  destruct (delegator (resolveStates s)); [|apply resolveStates_skeleton].
  eapply sameSkeleton_trans; [apply resolveStates_skeleton|].
  apply fold_left_skeleton. intros s' ro.
  repeat case_match; try apply sameSkeleton_refl; apply notify_skeleton.
Qed.

Lemma updateEntityState_heap s :
  heap (updateEntityState s) = heap (resolveStates s).
Proof.
  unfold updateEntityState.
  destruct (delegator (resolveStates s)); [|reflexivity].
  apply (fold_left_keeps _ (fun s' => heap s' = heap (resolveStates s)));
    [|reflexivity].
  intros s' ro _ H. repeat case_match; try exact H.
  rewrite notify_heap; exact H.
Qed.

(** ** Object stores that agree on some of the fields *)

(** [heapAgree key h h']: the two stores hold objects behind the same
    references, and corresponding objects have the same [key]. *)
Definition heapAgree {K : Type} (key : UnitEntity -> K)
    (h h' : gmap nat UnitEntity) : Prop :=
  forall r, key <$> (h' !! r) = key <$> (h !! r).

Section HeapAgree.
Context {K : Type} (key : UnitEntity -> K).

Lemma heapAgree_refl h : heapAgree key h h.
Proof. intros r; reflexivity. Qed.

Lemma heapAgree_trans h1 h2 h3 :
  heapAgree key h1 h2 -> heapAgree key h2 h3 -> heapAgree key h1 h3.
Proof. intros H12 H23 r; rewrite H23; apply H12. Qed.

Lemma heapAgree_sym h h' : heapAgree key h h' -> heapAgree key h' h.
Proof. intros H r; symmetry; apply H. Qed.

Lemma heapAgree_insert h r e e' :
  h !! r = Some e -> key e' = key e -> heapAgree key h (<[r := e']> h).
Proof.
  intros Hr Hk r'. destruct (decide (r = r')) as [<-|Hne].
  - rewrite lookup_insert_eq, Hr; simpl; congruence.
  - rewrite lookup_insert_ne by exact Hne; reflexivity.
Qed.

Lemma heapAgree_alter h r f :
  (forall e, key (f e) = key e) -> heapAgree key h (alter f r h).
Proof.
  intros Hk r'. destruct (decide (r = r')) as [<-|Hne].
  - rewrite lookup_alter_eq. destruct (h !! r); simpl; [rewrite Hk|]; reflexivity.
  - rewrite lookup_alter_ne by exact Hne; reflexivity.
Qed.

Lemma heapAgree_lookup h h' r e :
  heapAgree key h h' -> h !! r = Some e ->
  exists e', h' !! r = Some e' /\ key e' = key e.
Proof.
  intros H Hr. specialize (H r). rewrite Hr in H.
  destruct (h' !! r) as [e'|]; simpl in H; [|discriminate].
  exists e'; split; [reflexivity|congruence].
Qed.

Lemma heapAgree_lookup_inv h h' r e' :
  heapAgree key h h' -> h' !! r = Some e' ->
  exists e, h !! r = Some e /\ key e' = key e.
Proof.
  intros H Hr. specialize (H r). rewrite Hr in H.
  destruct (h !! r) as [e|]; simpl in H; [|discriminate].
  exists e; split; [reflexivity|congruence].
Qed.

Lemma heapAgree_is_Some h h' r :
  heapAgree key h h' -> is_Some (h !! r) <-> is_Some (h' !! r).
Proof.
  intros H. specialize (H r).
  destruct (h !! r), (h' !! r); simpl in H; try discriminate;
    split; intros [? ?]; eauto; discriminate.
Qed.

Lemma fold_left_heapAgree {A} (step : BattleLogic -> A -> BattleLogic) l :
  (forall s a, heapAgree key (heap s) (heap (step s a))) ->
  forall s, heapAgree key (heap s) (heap (fold_left step l s)).
Proof.
  intros Hstep s.
  apply (fold_left_keeps step (fun s' => heapAgree key (heap s) (heap s')));
    [|apply heapAgree_refl].
  intros s' a _ H; eapply heapAgree_trans; [exact H|apply Hstep].
Qed.
End HeapAgree.

(** The fields the parameter update never writes. *)
Definition shape (e : UnitEntity) :=
  (id e, unitId e, isPlayer e, state e, engagedEntity e, maxHealth e).

(** The fields the state resolution never writes. *)
Definition vitals (e : UnitEntity) :=
  (id e, unitId e, isPlayer e, currentHealth e, maxHealth e,
   currentFrameDamage e, currentKnockBackFrameCount e, distance e).

Lemma updateDamage_shape r master s :
  heapAgree shape (heap s) (heap (updateDamage r master s)).
Proof.
  unfold updateDamage.
  repeat case_match; try apply heapAgree_refl; rewrite ?notify_heap;
    simpl; eapply heapAgree_insert; eauto.
Qed.

Lemma updateDistance_shape r master s :
  heapAgree shape (heap s) (heap (updateDistance r master s)).
Proof.
  unfold updateDistance.
  destruct (heap s !! r) as [unit|] eqn:Hr; [|apply heapAgree_refl].
  assert (Hins : forall e', shape e' = shape unit ->
            heapAgree shape (heap s) (<[r := e']> (heap s))).
  { intros; eapply heapAgree_insert; eauto. }
  repeat case_match; rewrite ?notify_heap; simpl;
    rewrite ?insert_insert_eq; apply Hins; reflexivity.
Qed.

Lemma updateEntityParameter_shape s :
  heapAgree shape (heap s) (heap (updateEntityParameter s)).
Proof.
  unfold updateEntityParameter. apply fold_left_heapAgree.
  intros s' r. unfold parameterOne. repeat case_match; try apply heapAgree_refl.
  eapply heapAgree_trans; [apply updateDamage_shape|apply updateDistance_shape].
Qed.

(** The fields [updateDamage] never writes. *)
Definition undamaged (e : UnitEntity) :=
  (shape e, currentKnockBackFrameCount e, distance e).

Lemma updateDamage_undamaged r master s :
  heapAgree undamaged (heap s) (heap (updateDamage r master s)).
Proof.
  unfold updateDamage.
  repeat case_match; try apply heapAgree_refl; rewrite ?notify_heap;
    simpl; eapply heapAgree_insert; eauto.
Qed.

Lemma updateDistance_other r' r master s :
  r' <> r -> heap (updateDistance r master s) !! r' = heap s !! r'.
Proof.
  intros Hne. unfold updateDistance.
  repeat case_match; rewrite ?notify_heap; simpl;
    rewrite ?lookup_insert_ne by congruence; reflexivity.
Qed.

Lemma updateDistance_knockBack r master s e :
  heap s !! r = Some e -> state e = KNOCK_BACK ->
  heap (updateDistance r master s) !! r =
    Some (with_currentKnockBackFrameCount (currentKnockBackFrameCount e + 1)
            (with_distance (distance e - UnitMaster.knockBackSpeed master) e)).
Proof.
  intros He Hst. unfold updateDistance. rewrite He, Hst.
  rewrite notify_heap. simpl. apply lookup_insert_eq.
Qed.



Lemma parameterOne_other s a r :
  a <> r ->
  undamaged <$> heap (parameterOne s a) !! r = undamaged <$> heap s !! r.
Proof.
  intros Hne. unfold parameterOne.
  destruct (heap s !! a) as [unit|]; [|reflexivity].
  destruct (unitMasterCache s !! unitId unit) as [master|]; [|reflexivity].
  rewrite updateDistance_other by congruence.
  apply updateDamage_undamaged.
Qed.

Lemma parameterLoop_other l s r :
  ~ In r l ->
  undamaged <$> heap (fold_left parameterOne l s) !! r = undamaged <$> heap s !! r.
Proof.
  intros Hnot.
  apply (fold_left_keeps parameterOne
           (fun s' => undamaged <$> heap s' !! r = undamaged <$> heap s !! r));
    [|reflexivity].
  intros s' a Ha H. rewrite parameterOne_other; [exact H|].
  intros ->. contradiction.
Qed.

Lemma parameterLoop_masters l s :
  unitMasterCache (fold_left parameterOne l s) = unitMasterCache s.
Proof.
  apply sameSkeleton_unitMasterCache, fold_left_skeleton.
  intros; apply parameterOne_skeleton.
Qed.

Lemma undamaged_inv e e' :
  undamaged e' = undamaged e ->
  shape e' = shape e /\
  currentKnockBackFrameCount e' = currentKnockBackFrameCount e /\
  unitId e' = unitId e /\ state e' = state e.
Proof.
  unfold undamaged. intros H.
  assert (Hs : shape e' = shape e) by congruence.
  assert (Hc : currentKnockBackFrameCount e' = currentKnockBackFrameCount e)
    by congruence.
  split; [exact Hs|]. split; [exact Hc|].
  unfold shape in Hs. split; congruence.
Qed.

Lemma undamaged_lookup s s' r e :
  undamaged <$> heap s' !! r = undamaged <$> heap s !! r ->
  heap s !! r = Some e ->
  exists e', heap s' !! r = Some e' /\ undamaged e' = undamaged e.
Proof.
  intros H He. rewrite He in H.
  destruct (heap s' !! r) as [e'|]; simpl in H; [|discriminate].
  exists e'. split; [reflexivity|congruence].
Qed.

(** The parameter update counts one more frame of knock-back for every
    [KNOCK_BACK] entity of the array whose master is present, and changes
    neither its state nor its engaged entity. *)
Lemma updateEntityParameter_knockBack s r e master :
  List.NoDup (unitEntities s) -> In r (unitEntities s) ->
  heap s !! r = Some e -> state e = KNOCK_BACK ->
  unitMasterCache s !! unitId e = Some master ->
  exists e', heap (updateEntityParameter s) !! r = Some e' /\
    currentKnockBackFrameCount e' = currentKnockBackFrameCount e + 1 /\
    shape e' = shape e.
Proof.
  intros Hnd Hr He Hst Hm. unfold updateEntityParameter.
  destruct (in_split _ _ Hr) as (pre & post & HL). rewrite HL in *.
  apply List.NoDup_remove_2 in Hnd.
  assert (Hpre : ~ In r pre) by (intros H; apply Hnd, in_or_app; auto).
  assert (Hpost : ~ In r post) by (intros H; apply Hnd, in_or_app; auto).
  rewrite fold_left_app. simpl.
  set (s1 := fold_left parameterOne pre s).
  destruct (undamaged_lookup s s1 r e (parameterLoop_other pre s r Hpre) He)
    as (e1 & He1 & Hu1).
  destruct (undamaged_inv _ _ Hu1) as (Hsh1 & Hc1 & Hid1 & Hst1).
  assert (Hm1 : unitMasterCache s1 !! unitId e1 = Some master).
  { unfold s1. rewrite parameterLoop_masters, Hid1. exact Hm. }
  set (s2 := parameterOne s1 r).
  assert (H2 : exists e2, heap s2 !! r = Some e2 /\
             currentKnockBackFrameCount e2 = currentKnockBackFrameCount e + 1 /\
             shape e2 = shape e).
  { unfold s2, parameterOne. rewrite He1, Hm1.
    destruct (undamaged_lookup s1 (updateDamage r master s1) r e1
                (updateDamage_undamaged r master s1 r) He1) as (e1' & He1' & Hu').
    destruct (undamaged_inv _ _ Hu') as (Hsh' & Hc' & Hid' & Hst').
    rewrite (updateDistance_knockBack r master _ e1' He1') by congruence.
    eexists; split; [reflexivity|]. simpl. split; [lia|].
    rewrite <- Hsh1, <- Hsh'. reflexivity. }
  destruct H2 as (e2 & He2 & Hc2 & Hsh2).
  destruct (undamaged_lookup s2 (fold_left parameterOne post s2) r e2
              (parameterLoop_other post s2 r Hpost) He2) as (e3 & He3 & Hu3).
  destruct (undamaged_inv _ _ Hu3) as (Hsh3 & Hc3 & _).
  exists e3. split; [exact He3|]. split; congruence.
Qed.

(** ** One iteration of a state-resolution loop *)

Lemma resolveOne_lookup st resolve s r r' :
  heap (resolveOne st resolve s r) !! r' =
    if decide (r' = r)
    then (fun e => if bool_decide (state e = st) then resolve s e else e)
           <$> heap s !! r
    else heap s !! r'.
Proof.
  unfold resolveOne.
  destruct (decide (r' = r)) as [->|Hne].
  - destruct (heap s !! r) as [e|] eqn:Hr; simpl; [|exact Hr].
    destruct (bool_decide (state e = st)); simpl; [|exact Hr].
    apply lookup_insert_eq.
  - destruct (heap s !! r) as [e|]; [|reflexivity].
    destruct (bool_decide (state e = st)); simpl; [|reflexivity].
    apply lookup_insert_ne; congruence.
Qed.

Lemma resolveOne_other st resolve s r r' :
  r' <> r -> heap (resolveOne st resolve s r) !! r' = heap s !! r'.
Proof. intros H. rewrite resolveOne_lookup. case_decide; congruence. Qed.

Lemma resolveOne_hit st resolve s r e :
  heap s !! r = Some e -> state e = st ->
  heap (resolveOne st resolve s r) !! r = Some (resolve s e).
Proof.
  intros Hr Hst. rewrite resolveOne_lookup, Hr.
  case_decide; [|congruence]. simpl.
  rewrite bool_decide_eq_true_2 by exact Hst. reflexivity.
Qed.

Lemma resolveOne_miss st resolve s r e :
  heap s !! r = Some e -> state e <> st ->
  heap (resolveOne st resolve s r) !! r = Some e.
Proof.
  intros Hr Hst. rewrite resolveOne_lookup, Hr.
  case_decide; [|congruence]. simpl.
  rewrite bool_decide_eq_false_2 by exact Hst. reflexivity.
Qed.

(** The three resolutions write [state] and [engagedEntity] only. *)
Lemma updateUnitKnockBackState_vitals s e :
  vitals (updateUnitKnockBackState s e) = vitals e.
Proof. unfold updateUnitKnockBackState; repeat case_match; reflexivity. Qed.

Lemma updateUnitEngagedState_vitals s e :
  vitals (updateUnitEngagedState s e) = vitals e.
Proof. unfold updateUnitEngagedState; repeat case_match; reflexivity. Qed.

Lemma updateUnitIdleState_vitals s e :
  vitals (updateUnitIdleState s e) = vitals e.
Proof. unfold updateUnitIdleState; repeat case_match; reflexivity. Qed.

Lemma resolveOne_vitals st resolve s r :
  (forall s e, vitals (resolve s e) = vitals e) ->
  heapAgree vitals (heap s) (heap (resolveOne st resolve s r)).
Proof.
  intros Hv r'. rewrite resolveOne_lookup.
  case_decide as Hr; [subst r'|reflexivity].
  destruct (heap s !! r) as [e|]; simpl; [|reflexivity].
  destruct (bool_decide (state e = st)); [rewrite Hv|]; reflexivity.
Qed.

Lemma resolveGroup_vitals st resolve s :
  (forall s e, vitals (resolve s e) = vitals e) ->
  heapAgree vitals (heap s) (heap (resolveGroup st resolve s)).
Proof.
  intros Hv. apply fold_left_heapAgree. intros; apply resolveOne_vitals; exact Hv.
Qed.

Lemma resolveStates_vitals s :
  heapAgree vitals (heap s) (heap (resolveStates s)).
Proof.
  unfold resolveStates.
  eapply heapAgree_trans;
    [|apply resolveGroup_vitals, updateUnitIdleState_vitals].
  eapply heapAgree_trans;
    [apply resolveGroup_vitals, updateUnitKnockBackState_vitals
    |apply resolveGroup_vitals, updateUnitEngagedState_vitals].
Qed.

(** What each resolution can do to [state] and [engagedEntity]. *)
Lemma updateUnitKnockBackState_engaged s e :
  engagedEntity (updateUnitKnockBackState s e) = None.
Proof. unfold updateUnitKnockBackState; repeat case_match; reflexivity. Qed.

Lemma updateUnitKnockBackState_state s e :
  state (updateUnitKnockBackState s e) =
    match unitMasterCache s !! unitId e with
    | None => state e
    | Some master =>
        if currentKnockBackFrameCount e <? UnitMaster.knockBackFrames master
        then state e
        else if currentHealth e <? 1 then DEAD else IDLE
    end.
Proof. unfold updateUnitKnockBackState; simpl; repeat case_match; reflexivity. Qed.

Lemma updateUnitEngagedState_state s e :
  state e = ENGAGED ->
  let crossed :=
    crossesThreashold (currentHealth e) (currentHealth e + currentFrameDamage e)
      (maxHealth e) (knockBackHealthThreasholds (config s)) in
  (crossed = true ->
     state (updateUnitEngagedState s e) = KNOCK_BACK /\
     engagedEntity (updateUnitEngagedState s e) = None) /\
  (crossed = false ->
     (state (updateUnitEngagedState s e) = IDLE /\
      engagedEntity (updateUnitEngagedState s e) = None) \/
     (state (updateUnitEngagedState s e) = ENGAGED /\
      engagedEntity (updateUnitEngagedState s e) = engagedEntity e)).
Proof.
  intros Hst crossed; subst crossed. unfold updateUnitEngagedState.
  destruct (engagedEntity e) as [t|] eqn:He; simpl.
  - destruct (heap s !! t) as [target|]; simpl.
    + destruct (_ || _); simpl; split; intros ->; simpl; rewrite ?He; auto.
    + split; intros ->; simpl; rewrite ?He; auto.
  - split; intros ->; simpl; rewrite ?He; auto.
Qed.

(** An engagement that [updateUnitEngagedState] keeps has a target whose
    health is at least [1] and which is not knocked back. *)
Lemma updateUnitEngagedState_keeps s e t :
  engagedEntity (updateUnitEngagedState s e) = Some t ->
  engagedEntity e = Some t /\
  state (updateUnitEngagedState s e) = state e /\
  forall target, heap s !! t = Some target ->
    1 <= currentHealth target /\ state target <> KNOCK_BACK.
Proof.
  unfold updateUnitEngagedState.
  destruct (engagedEntity e) as [t0|] eqn:He; simpl.
  - destruct (heap s !! t0) as [target|] eqn:Ht; simpl.
    + destruct (currentHealth target <? 1) eqn:Hd; simpl.
      * case_match; simpl; discriminate.
      * destruct (bool_decide (state target = KNOCK_BACK)) eqn:Hk; simpl.
        -- case_match; simpl; discriminate.
        -- case_match; simpl; [discriminate|].
           rewrite He. intros [= <-]. split; [reflexivity|]. split; [reflexivity|].
           intros target' Ht'. rewrite Ht in Ht'. injection Ht' as <-.
           apply Z.ltb_ge in Hd. apply bool_decide_eq_false in Hk. auto.
    + case_match; simpl; [discriminate|]. rewrite He. intros [= <-].
      split; [reflexivity|]. split; [reflexivity|]. intros ? ?; congruence.
  - case_match; simpl; [discriminate|]. rewrite He. discriminate.
Qed.

Lemma updateUnitEngagedState_not_dead s e :
  state (updateUnitEngagedState s e) = DEAD -> state e = DEAD.
Proof.
  unfold updateUnitEngagedState. repeat case_match; simpl; congruence.
Qed.

Lemma findEngageTarget_Some s unit targets t :
  findEngageTarget s unit targets = Some t ->
  In t targets /\
  exists target d,
    heap s !! t = Some target /\
    isPlayer target <> isPlayer unit /\
    (state target = IDLE \/ state target = ENGAGED) /\
    delegator s = Some d /\
    shouldEngageAttackableEntity d unit target = true.
Proof.
  induction targets as [|t0 rest IH]; simpl; [discriminate|].
  assert (Hrec : findEngageTarget s unit rest = Some t ->
            (t0 = t \/ In t rest) /\
            exists target d,
              heap s !! t = Some target /\
              isPlayer target <> isPlayer unit /\
              (state target = IDLE \/ state target = ENGAGED) /\
              delegator s = Some d /\
              shouldEngageAttackableEntity d unit target = true).
  { intros H; destruct (IH H) as [Hin Hex]; auto. }
  destruct (heap s !! t0) as [target|] eqn:Ht0; [|exact Hrec].
  destruct ((isPlayer unit && isPlayer target)
            || (negb (isPlayer unit) && negb (isPlayer target))) eqn:Hside;
    [exact Hrec|].
  destruct (negb (bool_decide (state target = IDLE))
            && negb (bool_decide (state target = ENGAGED))) eqn:Hstate;
    [exact Hrec|].
  destruct (delegator s) as [d|] eqn:Hd; [|exact Hrec].
  destruct (shouldEngageAttackableEntity d unit target) eqn:Hok; [|exact Hrec].
  intros [= <-]. split; [auto|].
  exists target, d. repeat split; auto.
  - destruct (isPlayer unit), (isPlayer target); simpl in Hside; congruence.
  - destruct (bool_decide (state target = IDLE)) eqn:H1;
      [apply bool_decide_eq_true in H1; auto|].
    destruct (bool_decide (state target = ENGAGED)) eqn:H2;
      [apply bool_decide_eq_true in H2; auto|].
    simpl in Hstate; discriminate.
Qed.



Lemma updateUnitIdleState_cases s e :
  updateUnitIdleState s e = e \/
  exists t, findEngageTarget s e (unitEntities s) = Some t /\
    state (updateUnitIdleState s e) = ENGAGED /\
    engagedEntity (updateUnitIdleState s e) = Some t.
Proof.
  unfold updateUnitIdleState.
  destruct (findEngageTarget s e (unitEntities s)) as [t|]; [right|left; reflexivity].
  exists t; auto.
Qed.

Lemma updateUnitIdleState_not_dead s e :
  state (updateUnitIdleState s e) = DEAD -> state e = DEAD.
Proof. unfold updateUnitIdleState; case_match; simpl; congruence. Qed.

Lemma resolveOne_lookup_inv st resolve s r r0 e' :
  heap (resolveOne st resolve s r) !! r0 = Some e' ->
  exists e, heap s !! r0 = Some e /\
    (e' = e \/ (r0 = r /\ state e = st /\ e' = resolve s e)).
Proof.
  rewrite resolveOne_lookup. case_decide as Hr0; [subst r0|eauto].
  destruct (heap s !! r) as [e|]; simpl; [|discriminate].
  intros [= <-]. exists e; split; [reflexivity|].
  case_bool_decide; auto.
Qed.

Lemma resolveOne_lookup_fwd st resolve s r r0 e :
  heap s !! r0 = Some e ->
  exists e', heap (resolveOne st resolve s r) !! r0 = Some e' /\
    (e' = e \/ (r0 = r /\ state e = st /\ e' = resolve s e)).
Proof.
  intros He. rewrite resolveOne_lookup. case_decide as Hr0; [subst r0|eauto].
  rewrite He; simpl. eexists; split; [reflexivity|].
  case_bool_decide; auto.
Qed.

(** ** Invariants of the state resolution *)

Definition livePresent (s : BattleLogic) : Prop :=
  forall r, In r (unitEntities s) -> is_Some (heap s !! r).

Definition deadHasNoHealth (s : BattleLogic) : Prop :=
  forall r e, In r (unitEntities s) -> heap s !! r = Some e ->
    state e = DEAD -> currentHealth e < 1.

Definition engagedOk (s : BattleLogic) : Prop :=
  forall r e t, In r (unitEntities s) -> heap s !! r = Some e ->
    engagedEntity e = Some t ->
    state e = ENGAGED /\ In t (unitEntities s) /\
    exists target, heap s !! t = Some target /\ isPlayer target <> isPlayer e.

Definition phaseInv (s : BattleLogic) : Prop :=
  livePresent s /\ deadHasNoHealth s /\ engagedOk s.

(** The entity engaged by the entity behind [r], if any, is not [DEAD]. *)
Definition targetAlive (s : BattleLogic) (r : Ref) : Prop :=
  forall e t, heap s !! r = Some e -> engagedEntity e = Some t ->
    exists target, heap s !! t = Some target /\ state target <> DEAD.

(** What a resolution must guarantee about the entity it returns for the
    invariants to survive it. *)
Definition localOk (s : BattleLogic) (e e' : UnitEntity) : Prop :=
  isPlayer e' = isPlayer e /\
  currentHealth e' = currentHealth e /\
  (state e' = DEAD -> state e = DEAD \/ currentHealth e < 1) /\
  (forall t, engagedEntity e' = Some t ->
     state e' = ENGAGED /\ In t (unitEntities s) /\
     exists target, heap s !! t = Some target /\ isPlayer target <> isPlayer e).

Lemma resolveOne_phaseInv st resolve s r :
  (forall e, heap s !! r = Some e -> state e = st -> localOk s e (resolve s e)) ->
  phaseInv s -> phaseInv (resolveOne st resolve s r).
Proof.
  intros Hloc (Hlive & Hdead & Heng).
  pose proof (sameSkeleton_unitEntities _ _ (resolveOne_skeleton st resolve s r))
    as HL.
  assert (Hside : forall t x, heap s !! t = Some x ->
            exists x', heap (resolveOne st resolve s r) !! t = Some x' /\
                       isPlayer x' = isPlayer x).
  { intros t x Hx.
    destruct (resolveOne_lookup_fwd st resolve s r t x Hx) as (x' & Hx' & Hc).
    exists x'; split; [exact Hx'|].
    destruct Hc as [->|(-> & Hst & ->)]; [reflexivity|].
    apply Hloc; assumption. }
  split; [|split].
  - intros r0 Hr0. rewrite HL in Hr0.
    destruct (Hlive r0 Hr0) as [x Hx].
    destruct (Hside r0 x Hx) as (x' & Hx' & _). eauto.
  - intros r0 e' Hr0 He' Hd. rewrite HL in Hr0.
    destruct (resolveOne_lookup_inv _ _ _ _ _ _ He') as (e & He & Hc).
    destruct Hc as [->|(-> & Hst & ->)]; [eauto|].
    destruct (Hloc e He Hst) as (_ & Hh & Hk & _).
    rewrite Hh. destruct (Hk Hd); eauto.
  - intros r0 e' t Hr0 He' Ht. rewrite HL in Hr0. rewrite HL.
    destruct (resolveOne_lookup_inv _ _ _ _ _ _ He') as (e & He & Hc).
    assert (Hgoal : state e' = ENGAGED /\ In t (unitEntities s) /\
              exists target, heap s !! t = Some target /\
                             isPlayer target <> isPlayer e').
    { destruct Hc as [->|(-> & Hst & ->)]; [eauto|].
      destruct (Hloc e He Hst) as (Hp & _ & _ & Hk).
      rewrite Hp. apply Hk; exact Ht. }
    destruct Hgoal as (H1 & H2 & target & Htg & Hne).
    split; [exact H1|]. split; [exact H2|].
    destruct (Hside t target Htg) as (x' & Hx' & Hp).
    exists x'; split; [exact Hx'|congruence].
Qed.

Lemma updateUnitKnockBackState_localOk s e :
  localOk s e (updateUnitKnockBackState s e).
Proof.
  pose proof (updateUnitKnockBackState_vitals s e) as Hv.
  unfold vitals in Hv. injection Hv as _ _ Hp Hh _ _ _ _.
  split; [exact Hp|]. split; [exact Hh|]. split.
  - rewrite updateUnitKnockBackState_state.
    destruct (unitMasterCache s !! unitId e); [|auto].
    destruct (_ <? UnitMaster.knockBackFrames _); [auto|].
    destruct (currentHealth e <? 1) eqn:Hlt; [|discriminate].
    apply Z.ltb_lt in Hlt; auto.
  - intros t. rewrite updateUnitKnockBackState_engaged. discriminate.
Qed.

Lemma updateUnitEngagedState_localOk s r e :
  engagedOk s -> In r (unitEntities s) -> heap s !! r = Some e ->
  localOk s e (updateUnitEngagedState s e).
Proof.
  intros Heng Hr He.
  pose proof (updateUnitEngagedState_vitals s e) as Hv.
  unfold vitals in Hv. injection Hv as _ _ Hp Hh _ _ _ _.
  split; [exact Hp|]. split; [exact Hh|]. split.
  - intros Hd; left; eapply updateUnitEngagedState_not_dead; exact Hd.
  - intros t Ht.
    destruct (updateUnitEngagedState_keeps s e t Ht) as (Het & Hst & _).
    destruct (Heng r e t Hr He Het) as (H1 & H2 & H3).
    rewrite Hst. auto.
Qed.

Lemma updateUnitIdleState_localOk s r e :
  engagedOk s -> In r (unitEntities s) -> heap s !! r = Some e ->
  state e = IDLE ->
  localOk s e (updateUnitIdleState s e).
Proof.
  intros Heng Hr He Hidle.
  pose proof (updateUnitIdleState_vitals s e) as Hv.
  unfold vitals in Hv. injection Hv as _ _ Hp Hh _ _ _ _.
  split; [exact Hp|]. split; [exact Hh|]. split.
  - intros Hd; left; eapply updateUnitIdleState_not_dead; exact Hd.
  - intros t Ht.
    destruct (updateUnitIdleState_cases s e) as [Hsame|(t' & Hfind & Hst & Het)].
    + rewrite Hsame in Ht.
      destruct (Heng r e t Hr He Ht) as (H1 & _). congruence.
    + rewrite Het in Ht. injection Ht as ->.
      destruct (findEngageTarget_Some _ _ _ _ Hfind)
        as (Hin & target & d & Htg & Hne & _).
      split; [exact Hst|]. split; [exact Hin|]. eauto.
Qed.

(** A group loop keeps the instance but for the store, and keeps [phaseInv]. *)
Lemma resolveGroup_phaseInv st resolve s :
  (forall s' r e, phaseInv s' -> In r (unitEntities s') ->
     heap s' !! r = Some e -> state e = st -> localOk s' e (resolve s' e)) ->
  phaseInv s -> phaseInv (resolveGroup st resolve s).
Proof.
  intros Hloc Hinv. unfold resolveGroup.
  apply (fold_left_keeps (resolveOne st resolve)
           (fun s' => sameSkeleton s s' /\ phaseInv s'));
    [|split; [apply sameSkeleton_refl|exact Hinv]].
  intros s' r Hr [Hsk Hi]. split.
  - eapply sameSkeleton_trans; [exact Hsk|apply resolveOne_skeleton].
  - apply resolveOne_phaseInv; [|exact Hi].
    intros e He Hst. apply (Hloc s' r e Hi); auto.
    rewrite (sameSkeleton_unitEntities _ _ Hsk). exact Hr.
Qed.

Lemma resolveKnockBack_phaseInv s :
  phaseInv s -> phaseInv (resolveGroup KNOCK_BACK updateUnitKnockBackState s).
Proof.
  apply resolveGroup_phaseInv. intros; apply updateUnitKnockBackState_localOk.
Qed.

Lemma resolveEngaged_phaseInv s :
  phaseInv s -> phaseInv (resolveGroup ENGAGED updateUnitEngagedState s).
Proof.
  apply resolveGroup_phaseInv. intros s' r e (_ & _ & Heng) Hr He _.
  eapply updateUnitEngagedState_localOk; eauto.
Qed.

Lemma resolveIdle_phaseInv s :
  phaseInv s -> phaseInv (resolveGroup IDLE updateUnitIdleState s).
Proof.
  apply resolveGroup_phaseInv. intros s' r e (_ & _ & Heng) Hr He Hst.
  eapply updateUnitIdleState_localOk; eauto.
Qed.

Definition neverKills (resolve : BattleLogic -> UnitEntity -> UnitEntity) : Prop :=
  forall s e, state (resolve s e) = DEAD -> state e = DEAD.

Lemma resolveOne_alive st resolve s r t :
  neverKills resolve ->
  (exists x, heap s !! t = Some x /\ state x <> DEAD) ->
  exists x', heap (resolveOne st resolve s r) !! t = Some x' /\ state x' <> DEAD.
Proof.
  intros Hnk (x & Hx & Hal).
  destruct (resolveOne_lookup_fwd st resolve s r t x Hx) as (x' & Hx' & Hc).
  exists x'; split; [exact Hx'|].
  destruct Hc as [->|(_ & _ & ->)]; [exact Hal|].
  intros Hd; apply Hal; eapply Hnk; exact Hd.
Qed.

Lemma resolveOne_targetAlive_keep st resolve s a b :
  neverKills resolve ->
  (forall e t, heap s !! a = Some e -> state e = st ->
     engagedEntity (resolve s e) = Some t ->
     engagedEntity e = Some t \/
     exists x, heap s !! t = Some x /\ state x <> DEAD) ->
  targetAlive s b -> targetAlive (resolveOne st resolve s a) b.
Proof.
  intros Hnk Hnew Hb e' t He' Ht.
  apply resolveOne_alive; [exact Hnk|].
  destruct (resolveOne_lookup_inv _ _ _ _ _ _ He') as (e & He & Hc).
  destruct Hc as [->|(-> & Hst & ->)]; [eauto|].
  destruct (Hnew e t He Hst Ht) as [Hold|Hal]; eauto.
Qed.

Lemma resolveOne_engaged_targetAlive s a :
  phaseInv s -> In a (unitEntities s) ->
  targetAlive (resolveOne ENGAGED updateUnitEngagedState s a) a.
Proof.
  intros (Hlive & Hdead & Heng) Ha e' t He' Ht.
  apply resolveOne_alive; [exact updateUnitEngagedState_not_dead|].
  destruct (Hlive a Ha) as [e He].
  destruct (decide (state e = ENGAGED)) as [Hst|Hst].
  - rewrite (resolveOne_hit _ _ _ _ _ He Hst) in He'. injection He' as <-.
    destruct (updateUnitEngagedState_keeps s e t Ht) as (Het & _ & Hok).
    destruct (Heng a e t Ha He Het) as (_ & Hin & target & Htg & _).
    exists target; split; [exact Htg|].
    intros Hd. pose proof (Hdead t target Hin Htg Hd).
    destruct (Hok target Htg). lia.
  - rewrite (resolveOne_miss _ _ _ _ _ He Hst) in He'. injection He' as <-.
    destruct (Heng a e t Ha He Ht) as (H1 & _). contradiction.
Qed.

Lemma resolveEngaged_targetAlive s :
  phaseInv s ->
  forall r, In r (unitEntities s) ->
    targetAlive (resolveGroup ENGAGED updateUnitEngagedState s) r.
Proof.
  intros Hinv. unfold resolveGroup.
  apply (fold_left_each (resolveOne ENGAGED updateUnitEngagedState)
           (fun s' => sameSkeleton s s' /\ phaseInv s') (fun r s' => targetAlive s' r)).
  - intros s' r Hr [Hsk Hi]. split.
    + eapply sameSkeleton_trans; [exact Hsk|apply resolveOne_skeleton].
    + apply resolveOne_phaseInv; [|exact Hi].
      intros e He _. destruct Hi as (_ & _ & Heng).
      eapply updateUnitEngagedState_localOk; eauto.
      rewrite (sameSkeleton_unitEntities _ _ Hsk); exact Hr.
  - intros s' r Hr [Hsk Hi].
    apply resolveOne_engaged_targetAlive; [exact Hi|].
    rewrite (sameSkeleton_unitEntities _ _ Hsk); exact Hr.
  - intros s' a b Ha [Hsk Hi] Hb.
    apply resolveOne_targetAlive_keep;
      [exact updateUnitEngagedState_not_dead| |exact Hb].
    intros e t _ _ Ht; left.
    apply (updateUnitEngagedState_keeps s' e t Ht).
  - split; [apply sameSkeleton_refl|exact Hinv].
Qed.

Lemma resolveIdle_targetAlive s :
  phaseInv s ->
  (forall r, In r (unitEntities s) -> targetAlive s r) ->
  forall r, In r (unitEntities s) ->
    targetAlive (resolveGroup IDLE updateUnitIdleState s) r.
Proof.
  intros Hinv Hal. unfold resolveGroup.
  refine (proj2 (fold_left_keeps (resolveOne IDLE updateUnitIdleState)
           (fun s' => sameSkeleton s s' /\
                      forall r, In r (unitEntities s) -> targetAlive s' r)
           (unitEntities s) _ s _)).
  - intros s' a Ha [Hsk Hi]. split.
    + eapply sameSkeleton_trans; [exact Hsk|apply resolveOne_skeleton].
    + intros b Hb.
      apply resolveOne_targetAlive_keep;
        [exact updateUnitIdleState_not_dead| |exact (Hi b Hb)].
      intros e t He Hst Ht.
      destruct (updateUnitIdleState_cases s' e) as [Hsame|(t' & Hfind & _ & Het)].
      * left; congruence.
      * right. rewrite Het in Ht. injection Ht as ->.
        destruct (findEngageTarget_Some _ _ _ _ Hfind)
          as (_ & target & d & Htg & _ & Hstate & _).
        exists target; split; [exact Htg|].
        destruct Hstate as [-> | ->]; discriminate.
  - split; [apply sameSkeleton_refl|exact Hal].
Qed.

(** After the three loops: the invariants hold, and whatever a live entity
    engages is not [DEAD]. *)
Lemma resolveStates_inv s :
  phaseInv s ->
  phaseInv (resolveStates s) /\
  forall r, In r (unitEntities s) -> targetAlive (resolveStates s) r.
Proof.
  intros H0. unfold resolveStates.
  set (s1 := resolveGroup KNOCK_BACK updateUnitKnockBackState s).
  set (s2 := resolveGroup ENGAGED updateUnitEngagedState s1).
  pose proof (resolveKnockBack_phaseInv s H0) as H1. fold s1 in H1.
  pose proof (resolveEngaged_phaseInv s1 H1) as H2. fold s2 in H2.
  pose proof (resolveEngaged_targetAlive s1 H1) as A2. fold s2 in A2.
  pose proof (sameSkeleton_unitEntities _ _
                (resolveGroup_skeleton KNOCK_BACK updateUnitKnockBackState s)) as L1.
  fold s1 in L1.
  pose proof (sameSkeleton_unitEntities _ _
                (resolveGroup_skeleton ENGAGED updateUnitEngagedState s1)) as L2.
  fold s2 in L2.
  split; [apply resolveIdle_phaseInv; exact H2|].
  intros r Hr. apply resolveIdle_targetAlive; [exact H2| |].
  - intros r' Hr'. apply A2. congruence.
  - congruence.
Qed.

(** ** The entities of an instance, and the operations that leave them alone *)

Definition entitiesOf (s : BattleLogic) := (nextEntityId s, unitEntities s, heap s).

Lemma entitiesOf_inv s s' :
  entitiesOf s' = entitiesOf s ->
  nextEntityId s' = nextEntityId s /\ unitEntities s' = unitEntities s /\
  heap s' = heap s.
Proof. unfold entitiesOf; intros [= -> -> ->]; auto. Qed.

Lemma fold_left_entitiesOf {A} (step : BattleLogic -> A -> BattleLogic) l :
  (forall s a, entitiesOf (step s a) = entitiesOf s) ->
  forall s, entitiesOf (fold_left step l s) = entitiesOf s.
Proof.
  intros Hstep s.
  apply (fold_left_keeps step (fun s' => entitiesOf s' = entitiesOf s));
    [|reflexivity].
  intros s' a _ H; rewrite Hstep; exact H.
Qed.

Lemma notify_entitiesOf ev s : entitiesOf (notify ev s) = entitiesOf s.
Proof. unfold notify; destruct (delegator s); reflexivity. Qed.

Lemma with_passedFrameCount_entitiesOf v s :
  entitiesOf (with_passedFrameCount v s) = entitiesOf s.
Proof. reflexivity. Qed.

Lemma updateAvailableCost_entitiesOf c s :
  entitiesOf (updateAvailableCost c s) = entitiesOf s.
Proof. unfold updateAvailableCost. rewrite notify_entitiesOf. reflexivity. Qed.

Lemma updateAISpawn_entitiesOf s : entitiesOf (updateAISpawn s) = entitiesOf s.
Proof.
  unfold updateAISpawn. destruct (aiWaveCache s !! passedFrameCount s); [|reflexivity].
  apply fold_left_entitiesOf. reflexivity.
Qed.

Lemma requestSpawn_entitiesOf u p s : entitiesOf (requestSpawn u p s) = entitiesOf s.
Proof. reflexivity. Qed.

Lemma init_entitiesOf params s : entitiesOf (init params s) = entitiesOf s.
Proof.
  unfold init.
  rewrite fold_left_entitiesOf by reflexivity.
  rewrite fold_left_entitiesOf by reflexivity.
  destruct (p_config params); reflexivity.
Qed.

(** ** Spawning *)

(** The entity [updateSpawnRequest] builds for an accepted request. *)
Definition spawnedEntity (r : Ref) (unitId : Z) (isPlayer : bool)
    (master : UnitMaster.t) : UnitEntity :=
  with_state IDLE
    (with_currentHealth (UnitMaster.maxHealth master)
       (with_maxHealth (UnitMaster.maxHealth master)
          (with_id r (newUnitEntity unitId isPlayer)))).

(** The instance after an accepted request. *)
Definition accepted (this : BattleLogic) (unitId : Z) (isPlayer : bool)
    (master : UnitMaster.t) (baseLocation : Z) : BattleLogic :=
  let r := nextEntityId this in
  let entity := spawnedEntity r unitId isPlayer master in
  notify (onUnitEntitySpawned entity baseLocation)
    (with_unitEntities (unitEntities this ++ [r])
       (with_heap (<[r := entity]> (heap this)) (with_nextEntityId (S r) this))).

Lemma spawnOne_eq tmpCost this req :
  spawnOne (tmpCost, this) req =
    match unitMasterCache this !! fst req with
    | None => (tmpCost, this)
    | Some master =>
        if snd req
        then if tmpCost - UnitMaster.cost master <? 0
             then (tmpCost, this)
             else (tmpCost - UnitMaster.cost master,
                   accepted this (fst req) true master 100)
        else (tmpCost, accepted this (fst req) false master 1000)
    end.
Proof.
  unfold spawnOne, accepted, spawnedEntity. destruct req as [u p]; simpl.
  destruct (unitMasterCache this !! u); [|reflexivity].
  destruct p; [|reflexivity].
  destruct (_ <? 0); reflexivity.
Qed.

Lemma accepted_nextEntityId this u p m b :
  nextEntityId (accepted this u p m b) = S (nextEntityId this).
Proof. unfold accepted. rewrite (sameSkeleton_nextEntityId _ _ (notify_skeleton _ _)). reflexivity. Qed.

Lemma accepted_unitEntities this u p m b :
  unitEntities (accepted this u p m b) = unitEntities this ++ [nextEntityId this].
Proof. unfold accepted. rewrite (sameSkeleton_unitEntities _ _ (notify_skeleton _ _)). reflexivity. Qed.

Lemma accepted_heap this u p m b :
  heap (accepted this u p m b) =
    <[nextEntityId this := spawnedEntity (nextEntityId this) u p m]> (heap this).
Proof. unfold accepted. rewrite notify_heap. reflexivity. Qed.

Lemma accepted_unitMasterCache this u p m b :
  unitMasterCache (accepted this u p m b) = unitMasterCache this.
Proof. unfold accepted. rewrite (sameSkeleton_unitMasterCache _ _ (notify_skeleton _ _)). reflexivity. Qed.

Lemma accepted_config this u p m b : config (accepted this u p m b) = config this.
Proof. unfold accepted. rewrite (sameSkeleton_config _ _ (notify_skeleton _ _)). reflexivity. Qed.


(** ** Well-formed instances *)

Record wellFormed (s : BattleLogic) : Prop := mkWellFormed {
  wf_below : forall r, is_Some (heap s !! r) -> (r < nextEntityId s)%nat;
  wf_present : livePresent s;
  wf_nodup : List.NoDup (unitEntities s);
  wf_alive : forall r e, In r (unitEntities s) -> heap s !! r = Some e ->
               state e <> DEAD;
  wf_engaged : engagedOk s
}.

Lemma wellFormed_new cfg : wellFormed (newBattleLogic cfg).
Proof.
  split; simpl.
  - intros r [e He]. rewrite lookup_empty in He. discriminate.
  - intros r [].
  - constructor.
  - intros r e [].
  - intros r e t [].
Qed.

Lemma wellFormed_entitiesOf s s' :
  entitiesOf s' = entitiesOf s -> wellFormed s -> wellFormed s'.
Proof.
  intros H [H1 H2 H3 H4 H5].
  destruct (entitiesOf_inv _ _ H) as (Hn & Hl & Hh).
  split; unfold livePresent, engagedOk in *; rewrite ?Hn, ?Hl, ?Hh; assumption.
Qed.

Lemma wellFormed_phaseInv s : wellFormed s -> phaseInv s.
Proof.
  intros [H1 H2 H3 H4 H5]. split; [exact H2|]. split; [|exact H5].
  intros r e Hr He Hd. destruct (H4 r e Hr He Hd).
Qed.

(** The parameter update, which keeps the [shape] of every object, keeps
    well-formedness. *)
Lemma wellFormed_shape s s' :
  nextEntityId s' = nextEntityId s -> unitEntities s' = unitEntities s ->
  heapAgree shape (heap s) (heap s') ->
  wellFormed s -> wellFormed s'.
Proof.
  intros Hn Hl Hh [H1 H2 H3 H4 H5].
  split; unfold livePresent, engagedOk in *; rewrite ?Hn, ?Hl.
  - intros r Hr. apply H1. apply (heapAgree_is_Some shape _ _ r Hh). exact Hr.
  - intros r Hr. apply (heapAgree_is_Some shape _ _ r Hh). auto.
  - exact H3.
  - intros r e' Hr He'.
    destruct (heapAgree_lookup_inv shape _ _ _ _ Hh He') as (e & He & Hk).
    injection Hk as _ _ _ Hst _ _. rewrite Hst. eauto.
  - intros r e' t Hr He' Ht.
    destruct (heapAgree_lookup_inv shape _ _ _ _ Hh He') as (e & He & Hk).
    injection Hk as _ _ Hp Hst Hen _. rewrite Hen in Ht.
    destruct (H5 r e t Hr He Ht) as (Hs & Hin & target & Htg & Hne).
    split; [congruence|]. split; [exact Hin|].
    destruct (heapAgree_lookup shape _ _ _ _ Hh Htg) as (target' & Htg' & Hk').
    injection Hk' as _ _ Hp' _ _ _.
    exists target'; split; [exact Htg'|congruence].
Qed.

Lemma wellFormed_accepted this u p m b :
  wellFormed this -> wellFormed (accepted this u p m b).
Proof.
  intros [H1 H2 H3 H4 H5].
  assert (Hfresh : heap this !! nextEntityId this = None).
  { destruct (heap this !! nextEntityId this) eqn:E; [|reflexivity].
    assert (nextEntityId this < nextEntityId this)%nat by (apply H1; eauto). lia. }
  assert (Hold : forall r, In r (unitEntities this) -> r <> nextEntityId this).
  { intros r Hr ->. destruct (H2 _ Hr) as [e He]. congruence. }
  split; unfold livePresent, engagedOk;
    rewrite ?accepted_nextEntityId, ?accepted_unitEntities, ?accepted_heap.
  - intros r [e He].
    destruct (decide (r = nextEntityId this)) as [->|Hne]; [lia|].
    rewrite lookup_insert_ne in He by congruence.
    assert (r < nextEntityId this)%nat by (apply H1; eauto). lia.
  - intros r Hr. apply in_app_or in Hr. destruct Hr as [Hr|[<-|[]]].
    + rewrite lookup_insert_ne by (apply not_eq_sym, Hold, Hr). auto.
    + rewrite lookup_insert_eq. eauto.
  - apply NoDup_ListNoDup. apply NoDup_app. split; [apply NoDup_ListNoDup, H3|].
    split; [|apply NoDup_singleton].
    intros r Hr Hr'. apply list_elem_of_In in Hr. apply list_elem_of_In in Hr'.
    destruct Hr' as [<-|[]]. exact (Hold _ Hr eq_refl).
  - intros r e Hr He. apply in_app_or in Hr. destruct Hr as [Hr|[<-|[]]].
    + rewrite lookup_insert_ne in He by (apply not_eq_sym, Hold, Hr). eauto.
    + rewrite lookup_insert_eq in He. injection He as <-. discriminate.
  - intros r e t Hr He Ht. apply in_app_or in Hr. destruct Hr as [Hr|[<-|[]]].
    + rewrite lookup_insert_ne in He by (apply not_eq_sym, Hold, Hr).
      destruct (H5 r e t Hr He Ht) as (Hs & Hin & target & Htg & Hne).
      split; [exact Hs|]. split; [apply in_or_app; auto|].
      exists target; split; [|exact Hne].
      rewrite lookup_insert_ne by (apply not_eq_sym, Hold, Hin). exact Htg.
    + rewrite lookup_insert_eq in He. injection He as <-. discriminate.
Qed.

Lemma wellFormed_spawnOne acc req :
  wellFormed (snd acc) -> wellFormed (snd (spawnOne acc req)).
Proof.
  destruct acc as [tmpCost this]. intros Hwf. rewrite spawnOne_eq.
  change (wellFormed this) in Hwf.
  repeat case_match; simpl; try exact Hwf; apply wellFormed_accepted; exact Hwf.
Qed.

Lemma wellFormed_updateSpawnRequest s :
  wellFormed s -> wellFormed (updateSpawnRequest s).
Proof.
  intros Hwf. unfold updateSpawnRequest.
  destruct (spawnRequestedUnitUnitIds s) as [|req q] eqn:Hq; [exact Hwf|].
  pose proof (fold_left_keeps spawnOne (fun acc => wellFormed (snd acc)) (req :: q)
                (fun acc r _ => wellFormed_spawnOne acc r) (availableCost s, s) Hwf)
    as H.
  destruct (fold_left spawnOne (req :: q) (availableCost s, s)) as [tmpCost s'].
  simpl in H.
  eapply wellFormed_entitiesOf; [|exact H].
  change (entitiesOf (updateAvailableCost tmpCost s') = entitiesOf s').
  apply updateAvailableCost_entitiesOf.
Qed.

Lemma wellFormed_updateEntityParameter s :
  wellFormed s -> wellFormed (updateEntityParameter s).
Proof.
  apply wellFormed_shape.
  - apply sameSkeleton_nextEntityId, updateEntityParameter_skeleton.
  - apply sameSkeleton_unitEntities, updateEntityParameter_skeleton.
  - apply updateEntityParameter_shape.
Qed.

(** ** Compaction *)

Lemma updatePostProcess_skeleton s :
  sameSkeleton
    (with_unitEntities (List.filter (isActive s) (unitEntities s)) s)
    (updatePostProcess s).
Proof.
  unfold updatePostProcess. apply fold_left_skeleton.
  intros; apply modifyEntity_skeleton.
Qed.

Lemma updatePostProcess_unitEntities s :
  unitEntities (updatePostProcess s) = List.filter (isActive s) (unitEntities s).
Proof. exact (sameSkeleton_unitEntities _ _ (updatePostProcess_skeleton s)). Qed.

Lemma updatePostProcess_nextEntityId s :
  nextEntityId (updatePostProcess s) = nextEntityId s.
Proof. exact (sameSkeleton_nextEntityId _ _ (updatePostProcess_skeleton s)). Qed.

Lemma updatePostProcess_shape s :
  heapAgree shape (heap s) (heap (updatePostProcess s)).
Proof.
  unfold updatePostProcess.
  apply (fold_left_heapAgree shape
           (fun this r => modifyEntity r (with_currentFrameDamage 0) this)
           _ (fun s' r =>
                heapAgree_alter shape (heap s') r (with_currentFrameDamage 0)
                  (fun e => eq_refl))
           (with_unitEntities (List.filter (isActive s) (unitEntities s)) s)).
Qed.

Lemma isActive_true s r e :
  heap s !! r = Some e -> isActive s r = true <-> state e <> DEAD.
Proof.
  intros He. unfold isActive. rewrite He.
  case_bool_decide; simpl; split; intros; congruence.
Qed.

(** Compaction after a state resolution that satisfies the invariants gives a
    well-formed instance. *)
Lemma wellFormed_updatePostProcess s :
  (forall r, is_Some (heap s !! r) -> (r < nextEntityId s)%nat) ->
  List.NoDup (unitEntities s) ->
  phaseInv s ->
  (forall r, In r (unitEntities s) -> targetAlive s r) ->
  wellFormed (updatePostProcess s).
Proof.
  intros Hbelow Hnd (Hlive & _ & Heng) Hal.
  pose proof (updatePostProcess_shape s) as Hsh.
  split; unfold livePresent, engagedOk;
    rewrite ?updatePostProcess_nextEntityId, ?updatePostProcess_unitEntities.
  - intros r Hr. apply Hbelow. apply (heapAgree_is_Some shape _ _ r Hsh). exact Hr.
  - intros r Hr. apply filter_In in Hr. destruct Hr as [Hr _].
    apply (heapAgree_is_Some shape _ _ r Hsh). auto.
  - apply List.NoDup_filter. exact Hnd.
  - intros r e' Hr He'. apply filter_In in Hr. destruct Hr as [Hr Hact].
    destruct (heapAgree_lookup_inv shape _ _ _ _ Hsh He') as (e & He & Hk).
    injection Hk as _ _ _ Hst _ _. rewrite Hst.
    apply (isActive_true s r e He). exact Hact.
  - intros r e' t Hr He' Ht. apply filter_In in Hr. destruct Hr as [Hr Hact].
    destruct (heapAgree_lookup_inv shape _ _ _ _ Hsh He') as (e & He & Hk).
    injection Hk as _ _ Hp Hst Hen _. rewrite Hen in Ht.
    destruct (Heng r e t Hr He Ht) as (Hs & Hin & target & Htg & Hne).
    destruct (Hal r Hr e t He Ht) as (target0 & Htg0 & Halive).
    assert (target0 = target) by congruence. subst target0.
    split; [congruence|]. split.
    + apply filter_In. split; [exact Hin|].
      apply (isActive_true s t target Htg). exact Halive.
    + destruct (heapAgree_lookup shape _ _ _ _ Hsh Htg) as (target' & Htg' & Hk').
      injection Hk' as _ _ Hp' _ _ _.
      exists target'; split; [exact Htg'|congruence].
Qed.

Lemma phaseInv_transfer s s' :
  heap s' = heap s -> unitEntities s' = unitEntities s ->
  phaseInv s -> phaseInv s'.
Proof.
  intros Hh Hl. unfold phaseInv, livePresent, deadHasNoHealth, engagedOk.
  rewrite Hh, Hl. auto.
Qed.

Lemma wellFormed_states_post s :
  wellFormed s -> wellFormed (updatePostProcess (updateEntityState s)).
Proof.
  intros Hwf.
  pose proof (wellFormed_phaseInv s Hwf) as Hinv.
  destruct (resolveStates_inv s Hinv) as [Hinv' Hal].
  pose proof (updateEntityState_heap s) as Hh.
  pose proof (updateEntityState_skeleton s) as Hsk.
  pose proof (resolveStates_skeleton s) as Hsk'.
  pose proof (sameSkeleton_unitEntities _ _ Hsk) as HL.
  pose proof (sameSkeleton_unitEntities _ _ Hsk') as HL'.
  apply wellFormed_updatePostProcess.
  - intros r Hr. rewrite (sameSkeleton_nextEntityId _ _ Hsk).
    apply (wf_below s Hwf). rewrite Hh in Hr.
    apply (heapAgree_is_Some vitals _ _ r (resolveStates_vitals s)). exact Hr.
  - rewrite HL. apply (wf_nodup s Hwf).
  - apply (phaseInv_transfer (resolveStates s)); [exact Hh|congruence|exact Hinv'].
  - intros r Hr. unfold targetAlive. rewrite Hh. apply Hal. congruence.
Qed.

Lemma update_eq s :
  update s =
    with_passedFrameCount
      (passedFrameCount (updatePostProcess (updateEntityState (parametersUpdated s)))
       + 1)
      (updatePostProcess (updateEntityState (parametersUpdated s))).
Proof. reflexivity. Qed.

Lemma wellFormed_parametersUpdated s :
  wellFormed s -> wellFormed (parametersUpdated s).
Proof.
  intros Hwf. unfold parametersUpdated.
  apply wellFormed_updateEntityParameter.
  apply wellFormed_updateSpawnRequest.
  eapply wellFormed_entitiesOf; [apply updateAISpawn_entitiesOf|].
  eapply wellFormed_entitiesOf; [apply updateAvailableCost_entitiesOf|].
  exact Hwf.
Qed.

Lemma wellFormed_update s : wellFormed s -> wellFormed (update s).
Proof.
  intros Hwf. rewrite update_eq.
  apply (wellFormed_entitiesOf
           (updatePostProcess (updateEntityState (parametersUpdated s))));
    [apply with_passedFrameCount_entitiesOf|].
  apply wellFormed_states_post. apply wellFormed_parametersUpdated. exact Hwf.
Qed.

Lemma wellFormed_call s c : wellFormed s -> wellFormed (call s c).
Proof.
  destruct c; simpl.
  - apply wellFormed_entitiesOf, init_entitiesOf.
  - apply wellFormed_entitiesOf, requestSpawn_entitiesOf.
  - apply wellFormed_update.
Qed.

Lemma wellFormed_run calls s : wellFormed s -> wellFormed (run calls s).
Proof.
  intros Hwf. unfold run. apply fold_left_keeps; [|exact Hwf].
  intros s' c _. apply wellFormed_call.
Qed.

(** ** How spawning extends the entities *)

(** [extends s s']: [s'] has the entities of [s], unchanged, followed by
    entities allocated at references from [nextEntityId s] on. *)
Definition extends (s s' : BattleLogic) : Prop :=
  (nextEntityId s <= nextEntityId s')%nat /\
  (exists added, unitEntities s' = unitEntities s ++ added /\
     forall r, In r added -> (nextEntityId s <= r < nextEntityId s')%nat) /\
  (forall r, (r < nextEntityId s)%nat -> heap s' !! r = heap s !! r).

Lemma extends_refl s : extends s s.
Proof.
  split; [lia|]. split; [|auto].
  exists []. rewrite app_nil_r. split; [reflexivity|]. intros r [].
Qed.

Lemma extends_trans s1 s2 s3 : extends s1 s2 -> extends s2 s3 -> extends s1 s3.
Proof.
  intros (Hn & (a & Ha & Hra) & Hh) (Hn' & (a' & Ha' & Hra') & Hh').
  split; [lia|]. split.
  - exists (a ++ a'). rewrite Ha', Ha, app_assoc. split; [reflexivity|].
    intros r Hr. apply in_app_or in Hr. destruct Hr as [Hr|Hr].
    + specialize (Hra r Hr). lia.
    + specialize (Hra' r Hr). lia.
  - intros r Hr. rewrite Hh' by lia. apply Hh; exact Hr.
Qed.

Lemma extends_entitiesOf s s' : entitiesOf s' = entitiesOf s -> extends s s'.
Proof.
  intros H. destruct (entitiesOf_inv _ _ H) as (Hn & Hl & Hh).
  split; [lia|]. split; [|intros; rewrite Hh; reflexivity].
  exists []. rewrite app_nil_r. split; [exact Hl|]. intros r [].
Qed.

Lemma extends_accepted this u p m b : extends this (accepted this u p m b).
Proof.
  split; [rewrite accepted_nextEntityId; lia|]. split.
  - exists [nextEntityId this]. split; [apply accepted_unitEntities|].
    intros r [<-|[]]. rewrite accepted_nextEntityId. lia.
  - intros r Hr. rewrite accepted_heap. apply lookup_insert_ne. lia.
Qed.

Lemma extends_spawnOne tmpCost this req :
  extends this (snd (spawnOne (tmpCost, this) req)).
Proof.
  rewrite spawnOne_eq.
  repeat case_match; simpl; try apply extends_refl; apply extends_accepted.
Qed.

Lemma extends_spawnLoop q tmpCost this :
  extends this (snd (fold_left spawnOne q (tmpCost, this))).
Proof.
  apply (fold_left_keeps spawnOne (fun acc => extends this (snd acc)));
    [|apply extends_refl].
  intros [c s'] req _ H. eapply extends_trans; [exact H|apply extends_spawnOne].
Qed.

Lemma extends_updateSpawnRequest s : extends s (updateSpawnRequest s).
Proof.
  unfold updateSpawnRequest.
  destruct (spawnRequestedUnitUnitIds s) as [|req q]; [apply extends_refl|].
  pose proof (extends_spawnLoop (req :: q) (availableCost s) s) as H.
  destruct (fold_left spawnOne (req :: q) (availableCost s, s)) as [tmpCost s'].
  simpl in H. eapply extends_trans; [exact H|].
  apply extends_entitiesOf.
  change (entitiesOf (updateAvailableCost tmpCost s') = entitiesOf s').
  apply updateAvailableCost_entitiesOf.
Qed.

(** The entities when [updateEntityParameter] is called. *)
Definition spawnsResolved (this : BattleLogic) : BattleLogic :=
  updateSpawnRequest
    (updateAISpawn
       (updateAvailableCost
          (availableCost this + costRecoveryPerFrame (config this)) this)).

Lemma extends_spawnsResolved s : extends s (spawnsResolved s).
Proof.
  unfold spawnsResolved.
  eapply extends_trans; [|apply extends_updateSpawnRequest].
  eapply extends_trans; apply extends_entitiesOf;
    [apply updateAvailableCost_entitiesOf|apply updateAISpawn_entitiesOf].
Qed.

Lemma parametersUpdated_eq s :
  parametersUpdated s = updateEntityParameter (spawnsResolved s).
Proof. reflexivity. Qed.

Lemma with_passedFrameCount_nextEntityId v s :
  nextEntityId (with_passedFrameCount v s) = nextEntityId s.
Proof. reflexivity. Qed.

Lemma with_passedFrameCount_unitEntities v s :
  unitEntities (with_passedFrameCount v s) = unitEntities s.
Proof. reflexivity. Qed.

Lemma with_passedFrameCount_heap v s :
  heap (with_passedFrameCount v s) = heap s.
Proof. reflexivity. Qed.

Lemma update_nextEntityId s :
  nextEntityId (update s) = nextEntityId (spawnsResolved s).
Proof.
  rewrite update_eq, with_passedFrameCount_nextEntityId.
  rewrite updatePostProcess_nextEntityId.
  rewrite (sameSkeleton_nextEntityId _ _ (updateEntityState_skeleton _)).
  rewrite parametersUpdated_eq.
  apply (sameSkeleton_nextEntityId _ _ (updateEntityParameter_skeleton _)).
Qed.

Lemma update_unitEntities s :
  unitEntities (update s) =
    List.filter (isActive (updateEntityState (parametersUpdated s)))
      (unitEntities (spawnsResolved s)).
Proof.
  rewrite update_eq, with_passedFrameCount_unitEntities.
  rewrite updatePostProcess_unitEntities.
  rewrite (sameSkeleton_unitEntities _ _ (updateEntityState_skeleton _)).
  rewrite parametersUpdated_eq.
  rewrite (sameSkeleton_unitEntities _ _ (updateEntityParameter_skeleton _)).
  reflexivity.
Qed.

(** An entity that has left the array: its reference has been allocated and
    is not in the array. *)
Definition gone (s : BattleLogic) (r : Ref) : Prop :=
  (r < nextEntityId s)%nat /\ ~ In r (unitEntities s).

Lemma gone_update s r : gone s r -> gone (update s) r.
Proof.
  intros [Hlt Hnot].
  destruct (extends_spawnsResolved s) as (Hn & (added & Ha & Hra) & _).
  split.
  - rewrite update_nextEntityId. lia.
  - rewrite update_unitEntities. intros Hin. apply filter_In in Hin.
    destruct Hin as [Hin _]. rewrite Ha in Hin. apply in_app_or in Hin.
    destruct Hin as [Hin|Hin]; [auto|]. specialize (Hra r Hin). lia.
Qed.

Lemma gone_call s c r : gone s r -> gone (call s c) r.
Proof.
  destruct c; simpl; [| |apply gone_update].
  - unfold gone. destruct (entitiesOf_inv _ _ (init_entitiesOf params s))
      as (-> & -> & _). auto.
  - auto.
Qed.

Lemma gone_run calls s r : gone s r -> gone (run calls s) r.
Proof.
  intros H. unfold run.
  apply (fold_left_keeps call (fun s' => gone s' r)); [|exact H].
  intros s' c _. apply gone_call.
Qed.

(** ** The threshold ladder *)

(** *** Doubles that come from integers *)

Lemma shr_1_nonneg mrs : 0 <= shr_m mrs -> 0 <= shr_m (shr_1 mrs).
Proof.
  destruct mrs as [m r t]. simpl.
  destruct m as [|[p|p|]|p]; simpl; lia.
Qed.

Lemma iter_shr_1_nonneg p :
  forall mrs, 0 <= shr_m mrs -> 0 <= shr_m (SpecFloat.iter_pos shr_1 p mrs).
Proof.
  induction p as [p IH|p IH|]; intros mrs H; simpl.
  - apply IH, IH, shr_1_nonneg. exact H.
  - apply IH, IH. exact H.
  - apply shr_1_nonneg. exact H.
Qed.

Lemma shr_fexp_nonneg m e l :
  0 <= m -> 0 <= shr_m (fst (shr_fexp Double.prec Double.emax m e l)).
Proof.
  intros H. unfold shr_fexp, shr.
  assert (H0 : 0 <= shr_m (shr_record_of_loc m l))
    by (destruct l as [|[]]; exact H).
  destruct (_ - e); simpl; [exact H0| |exact H0].
  apply iter_shr_1_nonneg. exact H0.
Qed.

Lemma round_nearest_even_nonneg m l : 0 <= m -> 0 <= round_nearest_even m l.
Proof.
  intros H. destruct l as [|[]]; simpl; try lia.
  destruct (Z.even m); lia.
Qed.

Lemma binary_round_aux_not_nan sx mx ex lx :
  0 <= mx -> binary_round_aux Double.prec Double.emax sx mx ex lx <> S754_nan.
Proof.
  intros H. unfold binary_round_aux.
  pose proof (shr_fexp_nonneg mx ex lx H) as H1.
  destruct (shr_fexp Double.prec Double.emax mx ex lx) as [mrs1 e1].
  cbn [fst] in H1.
  pose proof (shr_fexp_nonneg _ e1 loc_Exact
                (round_nearest_even_nonneg _ (loc_of_shr_record mrs1) H1)) as H2.
  destruct (shr_fexp Double.prec Double.emax _ e1 loc_Exact) as [mrs2 e2].
  cbn [fst] in H2.
  destruct (shr_m mrs2) as [|m|m]; [discriminate| |lia].
  destruct (e2 <=? _); discriminate.
Qed.

(** The double of an integer is a number. *)
Lemma ofZ_not_nan z : Double.ofZ z <> S754_nan.
Proof.
  unfold Double.ofZ, binary_normalize.
  destruct z as [|m|m]; [discriminate| |]; unfold binary_round;
    destruct (shl_align _ _ _) as [mz ez]; apply binary_round_aux_not_nan; lia.
Qed.

Lemma SFcompare_None x y :
  SFcompare x y = None -> x = S754_nan \/ y = S754_nan.
Proof.
  destruct x, y; simpl; auto; discriminate.
Qed.

Lemma SFcompare_antisym x y c :
  SFcompare x y = Some c -> SFcompare y x = Some (CompOpp c).
Proof.
  destruct x as [sx|sx| |sx mx ex], y as [sy|sy| |sy my ey]; simpl;
    try discriminate; intros [= <-]; try (destruct sx; reflexivity);
    try (destruct sy; reflexivity); try (destruct sx, sy; reflexivity).
  f_equal. rewrite (Z.compare_antisym ex ey).
  destruct sx, sy; try reflexivity; destruct (ex ?= ey); simpl; try reflexivity.
  - rewrite (Pos.compare_cont_antisym mx my Eq). reflexivity.
  - rewrite (Pos.compare_cont_antisym mx my Eq). reflexivity.
Qed.

(** For two numbers, "not at or above" is "strictly below". *)
Lemma leb_false_ltb thr x :
  thr <> S754_nan -> x <> S754_nan ->
  Double.leb thr x = false <-> Double.ltb x thr = true.
Proof.
  intros Ht Hx. unfold Double.leb, Double.ltb, SFleb, SFltb.
  destruct (SFcompare thr x) as [c|] eqn:Hc.
  - rewrite (SFcompare_antisym _ _ _ Hc). destruct c; simpl; split; congruence.
  - destruct (SFcompare_None _ _ Hc); contradiction.
Qed.

Lemma leb_true_not_nan thr x : Double.leb thr x = true -> thr <> S754_nan.
Proof. intros H ->. discriminate H. Qed.

(** The threshold of an entity for a rate: [unit.maxHealth * rate]. *)
Definition threashold (e : UnitEntity) (rate : spec_float) : spec_float :=
  Double.mul (Double.ofZ (maxHealth e)) rate.

(** This frame's damage took the entity's health from at or above the
    threshold [maxHealth * rate] to strictly below it. *)
Definition crossedAt (e : UnitEntity) (rate : spec_float) : Prop :=
  Double.ltb (Double.ofZ (currentHealth e)) (threashold e rate) = true /\
  Double.leb (threashold e rate)
    (Double.ofZ (currentHealth e + currentFrameDamage e)) = true.

Definition ladder (s : BattleLogic) (e : UnitEntity) : bool :=
  crossesThreashold (currentHealth e) (currentHealth e + currentFrameDamage e)
    (maxHealth e) (knockBackHealthThreasholds (config s)).

(** One step of the loop: the test of the source, [currentHealth >=
    threashold] failing and [oldHealth >= threashold] holding, is a
    crossing. *)
Lemma crossedAt_test e rate :
  crossedAt e rate <->
  Double.leb (threashold e rate) (Double.ofZ (currentHealth e)) = false /\
  Double.leb (threashold e rate)
    (Double.ofZ (currentHealth e + currentFrameDamage e)) = true.
Proof.
  unfold crossedAt. split; intros [H1 H2]; (split; [|exact H2]).
  - apply leb_false_ltb;
      [exact (leb_true_not_nan _ _ H2)|apply ofZ_not_nan|exact H1].
  - apply leb_false_ltb in H1;
      [exact H1|exact (leb_true_not_nan _ _ H2)|apply ofZ_not_nan].
Qed.

Lemma classic_crossedAt e rate : crossedAt e rate \/ ~ crossedAt e rate.
Proof.
  rewrite crossedAt_test.
  destruct (Double.leb (threashold e rate) (Double.ofZ (currentHealth e)));
    [right; intros [H _]; discriminate H|].
  destruct (Double.leb (threashold e rate)
              (Double.ofZ (currentHealth e + currentFrameDamage e)));
    [left; auto|right; intros [_ H]; discriminate H].
Qed.

(** The ladder answers [true] exactly when some threshold is crossed; it
    then stops at the first crossed threshold of the list. *)
Lemma crossesThreashold_first e rates :
  crossesThreashold (currentHealth e) (currentHealth e + currentFrameDamage e)
    (maxHealth e) rates = true <->
  exists before rate after,
    rates = before ++ rate :: after /\ crossedAt e rate /\
    forall rate', In rate' before -> ~ crossedAt e rate'.
Proof.
  induction rates as [|rate0 rest IH]; cbn [crossesThreashold].
  - split; [discriminate|]. intros (b & r & a & H & _). destruct b; discriminate.
  - fold (threashold e rate0).
    assert (Hskip : ~ crossedAt e rate0 ->
              (crossesThreashold (currentHealth e)
                 (currentHealth e + currentFrameDamage e) (maxHealth e) rest = true
               <-> exists before rate after,
                     rate0 :: rest = before ++ rate :: after /\
                     crossedAt e rate /\
                     forall rate', In rate' before -> ~ crossedAt e rate')).
    { intros Hno. rewrite IH. split.
      - intros (b & r & a & -> & Hc & Hb). exists (rate0 :: b), r, a.
        split; [reflexivity|]. split; [exact Hc|].
        intros r' [<-|Hr']; [exact Hno|auto].
      - intros (b & r & a & Heq & Hc & Hb). destruct b as [|r0 b].
        + injection Heq as <- <-. contradiction.
        + injection Heq as <- ->. exists b, r, a.
          split; [reflexivity|]. split; [exact Hc|].
          intros; apply Hb; simpl; auto. }
    destruct (Double.leb (threashold e rate0) (Double.ofZ (currentHealth e)))
      eqn:Hcur.
    + apply Hskip. rewrite crossedAt_test. intros [H _]. congruence.
    + destruct (Double.leb (threashold e rate0)
                  (Double.ofZ (currentHealth e + currentFrameDamage e))) eqn:Hold.
      * split; [intros _|reflexivity].
        exists [], rate0, rest. split; [reflexivity|].
        split; [apply crossedAt_test; auto|]. intros r' [].
      * apply Hskip. rewrite crossedAt_test. intros [_ H]. congruence.
Qed.

(** The threshold is the rounded product, not the exact one.  [100 * 0.55]
    is the double just above 55, so damage that takes the health of an
    entity of [maxHealth = 100] from 60 to 55 crosses the threshold [0.55];
    [10 * 0.1] is the double 1 although the double [0.1] is above one tenth,
    so health going from 1 to 0 crosses the threshold [0.1] of an entity of
    [maxHealth = 10]. *)
Example threashold_is_the_rounded_product :
  Double.ltb (Double.ofZ 55) (Double.mul (Double.ofZ 100) (Double.literal 55 100))
  = true /\
  crossesThreashold 55 60 100 [Double.literal 55 100] = true /\
  Double.mul (Double.ofZ 10) (Double.literal 1 10) = Double.ofZ 1 /\
  crossesThreashold 0 1 10 [Double.literal 1 10] = true /\
  crossesThreashold 50 60 100 [Double.literal 1 2] = false /\
  crossesThreashold 40 50 100 [Double.literal 1 2] = true.
Proof. repeat split; vm_compute; reflexivity. Qed.

Lemma ladder_iff s e :
  ladder s e = true <->
  exists rate, In rate (knockBackHealthThreasholds (config s)) /\ crossedAt e rate.
Proof.
  unfold ladder. rewrite crossesThreashold_first. split.
  - intros (b & r & a & -> & Hc & _). exists r. split; [|exact Hc].
    apply in_or_app; simpl; auto.
  - intros (rate & Hin & Hc).
    induction (knockBackHealthThreasholds (config s)) as [|r0 rest IH];
      [destruct Hin|].
    destruct (classic_crossedAt e r0) as [H0|H0].
    + exists [], r0, rest. split; [reflexivity|]. split; [exact H0|]. intros ? [].
    + destruct Hin as [->|Hin]; [contradiction|].
      destruct (IH Hin) as (b & r & a & -> & Hc' & Hb).
      exists (r0 :: b), r, a. split; [reflexivity|]. split; [exact Hc'|].
      intros r' [<-|Hr']; auto.
Qed.

Lemma ladder_vitals s s' e e' :
  config s' = config s -> vitals e' = vitals e -> ladder s' e' = ladder s e.
Proof.
  unfold ladder, vitals. intros -> [= _ _ _ -> -> -> _ _]. reflexivity.
Qed.

(** ** The fate of one entity through the three loops *)

(** An entity whose state is not the state of a loop comes out of the loop
    as it went in. *)
Lemma resolveGroup_untouched st resolve s r e :
  heap s !! r = Some e -> state e <> st ->
  heap (resolveGroup st resolve s) !! r = Some e.
Proof.
  intros He Hst. unfold resolveGroup.
  apply (fold_left_keeps (resolveOne st resolve)
           (fun s' => heap s' !! r = Some e)); [|exact He].
  intros s' a _ H. destruct (decide (a = r)) as [->|Hne].
  - apply resolveOne_miss; assumption.
  - rewrite resolveOne_other by congruence. exact H.
Qed.

(** What the second loop has made of an entity that was [ENGAGED]. *)
Definition engagedResolved (crossed : bool) (e1 : UnitEntity) : Prop :=
  if crossed
  then state e1 = KNOCK_BACK /\ engagedEntity e1 = None
  else state e1 = IDLE \/ state e1 = ENGAGED.

Lemma updateUnitEngagedState_resolved s e :
  state e = ENGAGED -> engagedResolved (ladder s e) (updateUnitEngagedState s e).
Proof.
  intros Hst. destruct (updateUnitEngagedState_state s e Hst) as [Ht Hf].
  fold (ladder s e) in Ht, Hf. unfold engagedResolved.
  destruct (ladder s e); [auto|].
  destruct (Hf eq_refl) as [[H _]|[H _]]; auto.
Qed.

Lemma resolveEngaged_resolved s r e :
  In r (unitEntities s) -> heap s !! r = Some e -> state e = ENGAGED ->
  exists e1, heap (resolveGroup ENGAGED updateUnitEngagedState s) !! r = Some e1 /\
    vitals e1 = vitals e /\ engagedResolved (ladder s e) e1.
Proof.
  intros Hr He Hst. unfold resolveGroup.
  destruct (fold_left_each (resolveOne ENGAGED updateUnitEngagedState)
    (fun s' => sameSkeleton s s' /\
               exists e1, heap s' !! r = Some e1 /\ vitals e1 = vitals e /\
                          (e1 = e \/ engagedResolved (ladder s e) e1))
    (fun a s' => a = r -> exists e1, heap s' !! r = Some e1 /\
                          vitals e1 = vitals e /\ engagedResolved (ladder s e) e1)
    (unitEntities s)) with (s := s) as [_ HP].
  - intros s' a _ (Hsk & e1 & He1 & Hv & Hc).
    split; [eapply sameSkeleton_trans; [exact Hsk|apply resolveOne_skeleton]|].
    destruct (resolveOne_lookup_fwd ENGAGED updateUnitEngagedState s' a r e1 He1)
      as (e2 & He2 & Hc2).
    exists e2. split; [exact He2|].
    destruct Hc2 as [->|(_ & Hst1 & ->)]; [auto|].
    split; [rewrite updateUnitEngagedState_vitals; exact Hv|]. right.
    rewrite <- (ladder_vitals s s' e e1 (sameSkeleton_config _ _ Hsk) Hv).
    apply updateUnitEngagedState_resolved; exact Hst1.
  - intros s' a _ (Hsk & e1 & He1 & Hv & Hc) ->.
    destruct (decide (state e1 = ENGAGED)) as [Hst1|Hst1].
    + exists (updateUnitEngagedState s' e1).
      split; [apply resolveOne_hit; assumption|].
      split; [rewrite updateUnitEngagedState_vitals; exact Hv|].
      rewrite <- (ladder_vitals s s' e e1 (sameSkeleton_config _ _ Hsk) Hv).
      apply updateUnitEngagedState_resolved; exact Hst1.
    + exists e1. split; [apply resolveOne_miss; assumption|].
      split; [exact Hv|]. destruct Hc as [->|Hc]; [contradiction|exact Hc].
  - intros s' a b _ (Hsk & e0 & He0 & Hv0 & _) Hb ->.
    destruct (Hb eq_refl) as (e1 & He1 & Hv & Hres).
    destruct (resolveOne_lookup_fwd ENGAGED updateUnitEngagedState s' a r e1 He1)
      as (e2 & He2 & Hc2).
    exists e2. split; [exact He2|].
    destruct Hc2 as [->|(_ & Hst1 & ->)]; [auto|].
    split; [rewrite updateUnitEngagedState_vitals; exact Hv|].
    rewrite <- (ladder_vitals s s' e e1 (sameSkeleton_config _ _ Hsk) Hv).
    apply updateUnitEngagedState_resolved; exact Hst1.
  - split; [apply sameSkeleton_refl|]. exists e; auto.
  - apply (HP r Hr eq_refl).
Qed.

(** The third loop changes an entity only from [IDLE] to [ENGAGED]. *)
Lemma resolveOne_idle_cases s a r e :
  heap s !! r = Some e ->
  exists e', heap (resolveOne IDLE updateUnitIdleState s a) !! r = Some e' /\
    vitals e' = vitals e /\
    (e' = e \/ (state e = IDLE /\ state e' = ENGAGED)).
Proof.
  intros He.
  destruct (resolveOne_lookup_fwd IDLE updateUnitIdleState s a r e He)
    as (e' & He' & Hc).
  exists e'. split; [exact He'|].
  destruct Hc as [->|(_ & Hst & ->)]; [auto|].
  split; [apply updateUnitIdleState_vitals|].
  destruct (updateUnitIdleState_cases s e) as [->|(t & _ & Hs & _)]; auto.
Qed.

Lemma resolveIdle_cases s r e :
  heap s !! r = Some e ->
  exists e', heap (resolveGroup IDLE updateUnitIdleState s) !! r = Some e' /\
    vitals e' = vitals e /\
    (e' = e \/ (state e = IDLE /\ state e' = ENGAGED)).
Proof.
  intros He. unfold resolveGroup.
  apply (fold_left_keeps (resolveOne IDLE updateUnitIdleState)
           (fun s' => exists e', heap s' !! r = Some e' /\ vitals e' = vitals e /\
                        (e' = e \/ (state e = IDLE /\ state e' = ENGAGED))));
    [|exists e; auto].
  intros s' a _ (e1 & He1 & Hv & Hc).
  destruct (resolveOne_idle_cases s' a r e1 He1) as (e2 & He2 & Hv2 & Hc2).
  exists e2. split; [exact He2|]. split; [congruence|].
  destruct Hc2 as [->|[Hs1 Hs2]]; [exact Hc|].
  destruct Hc as [->|[Hs0 Hs1']]; [auto|congruence].
Qed.

(** An entity that is [ENGAGED] when the state resolution starts ends it
    [KNOCK_BACK], with no engaged entity, when the ladder finds a crossing,
    and [IDLE] or [ENGAGED] otherwise. *)
Lemma resolveStates_engaged s r e :
  In r (unitEntities s) -> heap s !! r = Some e -> state e = ENGAGED ->
  exists e', heap (resolveStates s) !! r = Some e' /\
    vitals e' = vitals e /\ engagedResolved (ladder s e) e'.
Proof.
  intros Hr He Hst. unfold resolveStates.
  set (s1 := resolveGroup KNOCK_BACK updateUnitKnockBackState s).
  assert (He1 : heap s1 !! r = Some e)
    by (apply resolveGroup_untouched; [exact He|congruence]).
  pose proof (resolveGroup_skeleton KNOCK_BACK updateUnitKnockBackState s) as Hsk.
  fold s1 in Hsk.
  destruct (resolveEngaged_resolved s1 r e) as (e2 & He2 & Hv2 & Hres);
    [rewrite (sameSkeleton_unitEntities _ _ Hsk); exact Hr|exact He1|exact Hst|].
  rewrite (ladder_vitals s s1 e e (sameSkeleton_config _ _ Hsk) eq_refl) in Hres.
  destruct (resolveIdle_cases _ r e2 He2) as (e3 & He3 & Hv3 & Hc).
  exists e3. split; [exact He3|]. split; [congruence|].
  destruct Hc as [->|[Hs2 Hs3]]; [exact Hres|].
  unfold engagedResolved in *. destruct (ladder s e); [|auto].
  destruct Hres; congruence.
Qed.

Lemma updateUnitKnockBackState_masters s s' e :
  unitMasterCache s' = unitMasterCache s ->
  updateUnitKnockBackState s' e = updateUnitKnockBackState s e.
Proof. unfold updateUnitKnockBackState. intros ->. reflexivity. Qed.

Lemma updateUnitKnockBackState_again s e :
  state (updateUnitKnockBackState s e) = KNOCK_BACK ->
  updateUnitKnockBackState s (updateUnitKnockBackState s e)
  = updateUnitKnockBackState s e.
Proof.
  unfold updateUnitKnockBackState. simpl.
  destruct (unitMasterCache s !! unitId e) as [master|] eqn:Hm; simpl;
    [|rewrite Hm; reflexivity].
  destruct (currentKnockBackFrameCount e <? UnitMaster.knockBackFrames master)
    eqn:Hc; simpl.
  - rewrite Hm, Hc. reflexivity.
  - destruct (currentHealth e <? 1); discriminate.
Qed.

(** The first loop gives every [KNOCK_BACK] entity of the array its
    resolution. *)
Lemma resolveKnockBack_resolved s r e :
  In r (unitEntities s) -> heap s !! r = Some e -> state e = KNOCK_BACK ->
  heap (resolveGroup KNOCK_BACK updateUnitKnockBackState s) !! r
  = Some (updateUnitKnockBackState s e).
Proof.
  intros Hr He Hst. unfold resolveGroup.
  set (e1 := updateUnitKnockBackState s e).
  destruct (fold_left_each (resolveOne KNOCK_BACK updateUnitKnockBackState)
    (fun s' => sameSkeleton s s' /\
               (heap s' !! r = Some e \/ heap s' !! r = Some e1))
    (fun a s' => a = r -> heap s' !! r = Some e1)
    (unitEntities s)) with (s := s) as [_ HP].
  - intros s' a _ (Hsk & Hc).
    split; [eapply sameSkeleton_trans; [exact Hsk|apply resolveOne_skeleton]|].
    pose proof (fun x => updateUnitKnockBackState_masters s s' x
                  (sameSkeleton_unitMasterCache _ _ Hsk)) as Hm.
    destruct Hc as [Hc|Hc].
    + destruct (resolveOne_lookup_fwd KNOCK_BACK updateUnitKnockBackState
                  s' a r _ Hc) as (e2 & He2 & [->|(_ & Hst1 & ->)]);
        [left; exact He2|right]. rewrite He2, Hm. reflexivity.
    + right.
      destruct (resolveOne_lookup_fwd KNOCK_BACK updateUnitKnockBackState
                  s' a r _ Hc) as (e2 & He2 & [->|(_ & Hst1 & ->)]);
        [exact He2|]. rewrite He2, Hm. f_equal.
      apply updateUnitKnockBackState_again. exact Hst1.
  - intros s' a _ (Hsk & Hc) ->.
    pose proof (fun x => updateUnitKnockBackState_masters s s' x
                  (sameSkeleton_unitMasterCache _ _ Hsk)) as Hm.
    destruct Hc as [Hc|Hc].
    + rewrite (resolveOne_hit _ _ _ _ _ Hc Hst), Hm. reflexivity.
    + destruct (decide (state e1 = KNOCK_BACK)) as [Hst1|Hst1].
      * rewrite (resolveOne_hit _ _ _ _ _ Hc Hst1), Hm. f_equal.
        apply updateUnitKnockBackState_again. exact Hst1.
      * apply resolveOne_miss; assumption.
  - intros s' a b _ (Hsk & _) Hb ->. specialize (Hb eq_refl).
    pose proof (fun x => updateUnitKnockBackState_masters s s' x
                  (sameSkeleton_unitMasterCache _ _ Hsk)) as Hm.
    destruct (resolveOne_lookup_fwd KNOCK_BACK updateUnitKnockBackState s' a r _ Hb)
      as (e2 & He2 & [->|(_ & Hst1 & ->)]); [exact He2|].
    rewrite He2, Hm. f_equal. apply updateUnitKnockBackState_again. exact Hst1.
  - split; [apply sameSkeleton_refl|auto].
  - apply (HP r Hr eq_refl).
Qed.

(** The iterations of a loop on other references leave an entity alone. *)
Lemma resolveLoop_other st resolve l s r :
  ~ In r l -> heap (fold_left (resolveOne st resolve) l s) !! r = heap s !! r.
Proof.
  intros Hnot.
  apply (fold_left_keeps (resolveOne st resolve)
           (fun s' => heap s' !! r = heap s !! r)); [|reflexivity].
  intros s' a Ha H. rewrite resolveOne_other; [exact H|].
  intros ->. contradiction.
Qed.

(** What a loop does to the entity at one position of the array is what its
    iteration at that position does, in the instance as the iterations
    before it have left it. *)
Lemma resolveGroup_at st resolve s pre r post :
  unitEntities s = pre ++ r :: post -> List.NoDup (unitEntities s) ->
  let s_r := fold_left (resolveOne st resolve) pre s in
  heap s_r !! r = heap s !! r /\
  heap (resolveGroup st resolve s) !! r = heap (resolveOne st resolve s_r r) !! r.
Proof.
  intros HL Hnd s_r. rewrite HL in Hnd.
  apply List.NoDup_remove_2 in Hnd.
  assert (Hpre : ~ In r pre) by (intros H; apply Hnd, in_or_app; auto).
  assert (Hpost : ~ In r post) by (intros H; apply Hnd, in_or_app; auto).
  split; [apply resolveLoop_other; exact Hpre|].
  unfold resolveGroup. rewrite HL, fold_left_app. simpl. fold s_r.
  apply resolveLoop_other; exact Hpost.
Qed.

(** Following one entity through a loop: a property of the entity that
    every resolution of the loop keeps holds of the entity after the loop. *)
Lemma resolveGroup_track st resolve s r e (I : UnitEntity -> Prop) :
  heap s !! r = Some e -> I e ->
  (forall s' x, sameSkeleton s s' -> I x -> state x = st -> I (resolve s' x)) ->
  exists e', heap (resolveGroup st resolve s) !! r = Some e' /\ I e'.
Proof.
  intros He HI Hstep. unfold resolveGroup.
  refine (proj2 (fold_left_keeps (resolveOne st resolve)
           (fun s' => sameSkeleton s s' /\ exists e', heap s' !! r = Some e' /\ I e')
           (unitEntities s) _ s _)).
  - intros s' a _ (Hsk & e1 & He1 & HI1).
    split; [eapply sameSkeleton_trans; [exact Hsk|apply resolveOne_skeleton]|].
    destruct (resolveOne_lookup_fwd st resolve s' a r e1 He1)
      as (e2 & He2 & [->|(_ & Hst1 & ->)]); eauto.
  - split; [apply sameSkeleton_refl|eauto].
Qed.

(** [DEAD] is assigned by the KNOCK_BACK resolution only: an entity that is
    [DEAD] after the state resolution was [DEAD] before it, or was
    [KNOCK_BACK] with [currentHealth < 1]. *)
Lemma resolveStates_dead_origin s r e e' :
  heap s !! r = Some e -> heap (resolveStates s) !! r = Some e' ->
  state e' = DEAD ->
  state e = DEAD \/ (state e = KNOCK_BACK /\ currentHealth e < 1).
Proof.
  intros He He' Hd. unfold resolveStates in He'.
  set (origin := state e = DEAD \/ (state e = KNOCK_BACK /\ currentHealth e < 1)).
  destruct (resolveGroup_track KNOCK_BACK updateUnitKnockBackState s r e
              (fun x => currentHealth x = currentHealth e /\
                        (state x = DEAD -> origin) /\
                        (state x = KNOCK_BACK -> state e = KNOCK_BACK)) He)
    as (e1 & He1 & _ & H1 & _).
  { split; [reflexivity|]. split; [left; assumption|auto]. }
  { intros s' x _ (Hh & Hdx & Hkx) Hst.
    pose proof (updateUnitKnockBackState_vitals s' x) as Hv.
    pose proof (updateUnitKnockBackState_state s' x) as Hs.
    split; [unfold vitals in Hv; congruence|]. rewrite Hs, Hst.
    destruct (unitMasterCache s' !! unitId x); [|split; [discriminate|auto]].
    destruct (_ <? UnitMaster.knockBackFrames _); [split; [discriminate|auto]|].
    destruct (currentHealth x <? 1) eqn:Hlt; [|split; discriminate].
    apply Z.ltb_lt in Hlt. split; [|discriminate].
    intros _. right. split; [auto|lia]. }
  destruct (resolveGroup_track ENGAGED updateUnitEngagedState _ r e1
              (fun x => state x = DEAD -> origin) He1 H1)
    as (e2 & He2 & H2).
  { intros s' x _ Hx _ Hdx. apply Hx.
    eapply updateUnitEngagedState_not_dead; exact Hdx. }
  destruct (resolveGroup_track IDLE updateUnitIdleState _ r e2
              (fun x => state x = DEAD -> origin) He2 H2)
    as (e3 & He3 & H3).
  { intros s' x _ Hx _ Hdx. apply Hx.
    eapply updateUnitIdleState_not_dead; exact Hdx. }
  assert (e3 = e') by congruence. subst e3. apply H3; exact Hd.
Qed.

(** An entity that is [IDLE] when the state resolution starts ends it
    [IDLE], unchanged, or [ENGAGED]. *)
Lemma resolveStates_idle s r e :
  heap s !! r = Some e -> state e = IDLE ->
  exists e', heap (resolveStates s) !! r = Some e' /\
    vitals e' = vitals e /\ (e' = e \/ state e' = ENGAGED).
Proof.
  intros He Hst. unfold resolveStates.
  assert (H2 : heap (resolveGroup ENGAGED updateUnitEngagedState
                       (resolveGroup KNOCK_BACK updateUnitKnockBackState s)) !! r
               = Some e).
  { apply resolveGroup_untouched; [|congruence].
    apply resolveGroup_untouched; [exact He|congruence]. }
  destruct (resolveIdle_cases _ r e H2) as (e' & He' & Hv & Hc).
  exists e'. split; [exact He'|]. split; [exact Hv|].
  destruct Hc as [->|[_ Hen]]; auto.
Qed.

(** The fields compaction never writes. *)
Definition settled (e : UnitEntity) :=
  (shape e, currentHealth e, currentKnockBackFrameCount e, distance e).

Lemma updatePostProcess_settled s :
  heapAgree settled (heap s) (heap (updatePostProcess s)).
Proof.
  unfold updatePostProcess.
  apply (fold_left_heapAgree settled
           (fun this r => modifyEntity r (with_currentFrameDamage 0) this)
           _ (fun s' r =>
                heapAgree_alter settled (heap s') r (with_currentFrameDamage 0)
                  (fun e => eq_refl))
           (with_unitEntities (List.filter (isActive s) (unitEntities s)) s)).
Qed.

Lemma update_heap s :
  heap (update s) = heap (updatePostProcess (updateEntityState (parametersUpdated s))).
Proof. rewrite update_eq. apply with_passedFrameCount_heap. Qed.

(** An entity of the array that is not [DEAD] after the state resolution is
    in the array after [update]. *)
Lemma update_keeps s r e5 :
  In r (unitEntities (spawnsResolved s)) ->
  heap (updateEntityState (parametersUpdated s)) !! r = Some e5 ->
  state e5 <> DEAD ->
  In r (unitEntities (update s)) /\
  exists e', heap (update s) !! r = Some e' /\ settled e' = settled e5.
Proof.
  intros Hr He5 Hal. split.
  - rewrite update_unitEntities. apply filter_In. split; [exact Hr|].
    apply (isActive_true _ r e5 He5). exact Hal.
  - rewrite update_heap.
    apply (heapAgree_lookup settled _ _ r e5 (updatePostProcess_settled _) He5).
Qed.

(** ** The cost economy *)

(** The cost notifications among the events: current cost and cap. *)
Fixpoint costNotes (evs : list Event) : list (Z * Z) :=
  match evs with
  | [] => []
  | onAvailableCostUpdated cost maxCost _ :: rest => (cost, maxCost) :: costNotes rest
  | _ :: rest => costNotes rest
  end.

Lemma costNotes_app evs evs' : costNotes (evs ++ evs') = costNotes evs ++ costNotes evs'.
Proof.
  induction evs as [|ev evs IH]; simpl; [reflexivity|].
  destruct ev; simpl; rewrite IH; reflexivity.
Qed.

Definition isCostEvent (ev : Event) : bool :=
  match ev with onAvailableCostUpdated _ _ _ => true | _ => false end.

(** What the cost economy can observe of an instance. *)
Definition costView (s : BattleLogic) :=
  (availableCost s, costNotes (events s), config s).

Lemma costView_inv s s' :
  costView s' = costView s ->
  availableCost s' = availableCost s /\ config s' = config s /\
  costNotes (events s') = costNotes (events s).
Proof. unfold costView. intros [= -> -> ->]. auto. Qed.

Lemma with_passedFrameCount_costView v s :
  costView (with_passedFrameCount v s) = costView s.
Proof. reflexivity. Qed.

Lemma notify_costView ev s :
  isCostEvent ev = false -> costView (notify ev s) = costView s.
Proof.
  intros Hev. unfold notify. destruct (delegator s); [|reflexivity].
  unfold costView; simpl. rewrite costNotes_app.
  destruct ev; try discriminate; simpl; rewrite app_nil_r; reflexivity.
Qed.

Lemma fold_left_costView {A} (step : BattleLogic -> A -> BattleLogic) l :
  (forall s a, costView (step s a) = costView s) ->
  forall s, costView (fold_left step l s) = costView s.
Proof.
  intros Hstep s.
  apply (fold_left_keeps step (fun s' => costView s' = costView s)); [|reflexivity].
  intros s' a _ H; rewrite Hstep; exact H.
Qed.

Lemma updateDamage_costView r master s :
  costView (updateDamage r master s) = costView s.
Proof.
  unfold updateDamage.
  repeat case_match; try reflexivity; rewrite notify_costView; reflexivity.
Qed.

Lemma updateDistance_costView r master s :
  costView (updateDistance r master s) = costView s.
Proof.
  unfold updateDistance.
  repeat case_match; try reflexivity; rewrite notify_costView; reflexivity.
Qed.

Lemma updateEntityParameter_costView s :
  costView (updateEntityParameter s) = costView s.
Proof.
  unfold updateEntityParameter. apply fold_left_costView.
  intros s' r. unfold parameterOne. repeat case_match; try reflexivity.
  rewrite updateDistance_costView. apply updateDamage_costView.
Qed.

Lemma resolveStates_costView s : costView (resolveStates s) = costView s.
Proof.
  unfold resolveStates, resolveGroup.
  rewrite !fold_left_costView; [reflexivity|..];
    intros s' r; unfold resolveOne; repeat case_match; reflexivity.
Qed.

Lemma updateEntityState_costView s : costView (updateEntityState s) = costView s.
Proof.
  unfold updateEntityState.
  destruct (delegator (resolveStates s)); [|apply resolveStates_costView].
  rewrite fold_left_costView; [apply resolveStates_costView|].
  intros s' ro. repeat case_match; try reflexivity.
  apply notify_costView; reflexivity.
Qed.

Lemma updatePostProcess_costView s : costView (updatePostProcess s) = costView s.
Proof.
  unfold updatePostProcess. rewrite fold_left_costView; reflexivity.
Qed.

Lemma updateAISpawn_costView s : costView (updateAISpawn s) = costView s.
Proof.
  unfold updateAISpawn. destruct (aiWaveCache s !! passedFrameCount s); [|reflexivity].
  apply fold_left_costView. reflexivity.
Qed.

Lemma accepted_costView this u p m b :
  costView (accepted this u p m b) = costView this.
Proof. unfold accepted. rewrite notify_costView; reflexivity. Qed.

(** The spawn loop keeps the running counter at or above zero, and does not
    touch what the cost economy observes. *)
Lemma spawnLoop_cost q tmpCost this :
  0 <= tmpCost ->
  0 <= fst (fold_left spawnOne q (tmpCost, this)) /\
  costView (snd (fold_left spawnOne q (tmpCost, this))) = costView this.
Proof.
  intros H0.
  apply (fold_left_keeps spawnOne
           (fun acc => 0 <= fst acc /\ costView (snd acc) = costView this));
    [|split; [exact H0|reflexivity]].
  intros [c s'] req _ [Hc Hv]. rewrite spawnOne_eq.
  change (fst (c, s')) with c in Hc. change (snd (c, s')) with s' in Hv.
  destruct (unitMasterCache s' !! fst req) as [master|]; [|auto].
  destruct (snd req).
  - destruct (c - UnitMaster.cost master <? 0) eqn:Hlt; [auto|].
    apply Z.ltb_ge in Hlt. simpl. rewrite accepted_costView. auto.
  - simpl. rewrite accepted_costView. auto.
Qed.

Lemma spawnLoop_config q tmpCost this :
  config (snd (fold_left spawnOne q (tmpCost, this))) = config this.
Proof.
  apply (fold_left_keeps spawnOne (fun acc => config (snd acc) = config this));
    [|reflexivity].
  intros [c s'] req _ H. rewrite spawnOne_eq.
  repeat case_match; simpl; rewrite ?accepted_config; exact H.
Qed.

(** The bounds on a configuration and on the observable cost. *)
Definition configOk (c : BattleLogicConfig) : Prop :=
  0 <= costRecoveryPerFrame c /\ 0 <= maxAvailableCost c.

Definition noteOk (note : Z * Z) : Prop := 0 <= fst note <= snd note.

Definition costInv (s : BattleLogic) : Prop :=
  configOk (config s) /\ 0 <= availableCost s /\
  Forall noteOk (costNotes (events s)).

Lemma costInv_costView s s' : costView s' = costView s -> costInv s -> costInv s'.
Proof. unfold costInv, costView. intros [= -> -> ->]. auto. Qed.

Lemma updateAvailableCost_cost c s :
  configOk (config s) -> 0 <= c -> Forall noteOk (costNotes (events s)) ->
  costInv (updateAvailableCost c s) /\
  availableCost (updateAvailableCost c s)
  <= maxAvailableCost (config (updateAvailableCost c s)).
Proof.
  intros [Hrec Hmax] Hc Hev. unfold updateAvailableCost.
  set (cost := if c >? maxAvailableCost (config s)
               then maxAvailableCost (config s) else c).
  assert (Hcost : 0 <= cost <= maxAvailableCost (config s)).
  { unfold cost. destruct (c >? maxAvailableCost (config s)) eqn:Hgt; [lia|].
    rewrite Z.gtb_ltb in Hgt. apply Z.ltb_ge in Hgt. lia. }
  unfold notify, costInv, configOk. simpl.
  destruct (delegator s); simpl; repeat split; try lia; try assumption.
  rewrite costNotes_app. apply Forall_app. split; [exact Hev|].
  simpl. constructor; [exact Hcost|constructor].
Qed.

Lemma updateSpawnRequest_cost s :
  costInv s -> availableCost s <= maxAvailableCost (config s) ->
  costInv (updateSpawnRequest s) /\
  availableCost (updateSpawnRequest s)
  <= maxAvailableCost (config (updateSpawnRequest s)).
Proof.
  intros Hinv Hle. unfold updateSpawnRequest.
  destruct (spawnRequestedUnitUnitIds s) as [|req q]; [auto|].
  destruct Hinv as (Hcfg & H0 & Hev).
  destruct (spawnLoop_cost (req :: q) (availableCost s) s H0) as [Hc Hv].
  destruct (fold_left spawnOne (req :: q) (availableCost s, s)) as [tmpCost s'].
  simpl in Hc, Hv. destruct (costView_inv _ _ Hv) as (Ha & Hcf & Hn).
  destruct (updateAvailableCost_cost tmpCost s') as [Hinv' Hle'];
    [rewrite Hcf; exact Hcfg|exact Hc|rewrite Hn; exact Hev|].
  split; [exact Hinv'|exact Hle'].
Qed.

Lemma update_costView s : costView (update s) = costView (spawnsResolved s).
Proof.
  rewrite update_eq, with_passedFrameCount_costView.
  rewrite updatePostProcess_costView, updateEntityState_costView.
  rewrite parametersUpdated_eq. apply updateEntityParameter_costView.
Qed.

Lemma update_cost s :
  costInv s ->
  costInv (update s) /\ availableCost (update s) <= maxAvailableCost (config (update s)).
Proof.
  intros (Hcfg & H0 & Hev).
  destruct (updateAvailableCost_cost
              (availableCost s + costRecoveryPerFrame (config s)) s Hcfg)
    as [H1 L1]; [destruct Hcfg; lia|exact Hev|].
  set (s1 := updateAvailableCost
               (availableCost s + costRecoveryPerFrame (config s)) s) in *.
  pose proof (updateAISpawn_costView s1) as Hv2.
  assert (H2 : costInv (updateAISpawn s1)) by (eapply costInv_costView; eauto).
  assert (L2 : availableCost (updateAISpawn s1)
               <= maxAvailableCost (config (updateAISpawn s1))).
  { destruct (costView_inv _ _ Hv2) as (-> & -> & _). exact L1. }
  destruct (updateSpawnRequest_cost _ H2 L2) as [H3 L3].
  fold (spawnsResolved s) in H3, L3.
  pose proof (update_costView s) as Hv.
  split; [eapply costInv_costView; eauto|].
  destruct (costView_inv _ _ Hv) as (-> & -> & _). exact L3.
Qed.

Lemma init_costView params s :
  availableCost (init params s) = availableCost s /\
  events (init params s) = events s /\
  config (init params s) = match p_config params with
                           | Some c => c
                           | None => config s
                           end.
Proof.
  unfold init.
  set (step1 := fun this unit =>
                  with_unitMasterCache
                    (<[UnitMaster.unitId unit := unit]> (unitMasterCache this)) this).
  set (step2 := fun this (kv : Z * list Z) =>
                  with_aiWaveCache (<[fst kv := snd kv]> (aiWaveCache this)) this).
  assert (H : forall {A} (step : BattleLogic -> A -> BattleLogic) l s0,
             (forall s a, (availableCost (step s a), events (step s a), config (step s a))
                          = (availableCost s, events s, config s)) ->
             (availableCost (fold_left step l s0), events (fold_left step l s0),
              config (fold_left step l s0))
             = (availableCost s0, events s0, config s0)).
  { intros A step l s0 Hstep.
    apply (fold_left_keeps step
             (fun s' => (availableCost s', events s', config s')
                        = (availableCost s0, events s0, config s0)));
      [|reflexivity].
    intros s' a _ Hs'. rewrite Hstep. exact Hs'. }
  pose proof (H _ step2 (p_waves params)
                (fold_left step1 (p_unitMasters params)
                   (with_unitMasterCache ∅
                      (with_player (p_player params)
                         (with_delegator (Some (p_delegator params))
                            match p_config params with
                            | Some c => with_config c s
                            | None => s
                            end))))
                (fun _ _ => eq_refl)) as H2.
  rewrite (H _ step1 (p_unitMasters params) _ (fun _ _ => eq_refl)) in H2.
  injection H2 as -> -> ->.
  destruct (p_config params); auto.
Qed.

(** ** Wave spawns *)

Definition aiRequests (unitIds : list Z) : list (Z * bool) :=
  map (fun unitId => (unitId, false)) unitIds.

(** The wave of the current frame; none when the schedule has no entry. *)
Definition currentWave (this : BattleLogic) : list Z :=
  match aiWaveCache this !! passedFrameCount this with
  | Some waves => waves
  | None => []
  end.

Definition hasMaster (this : BattleLogic) (unitId : Z) : bool :=
  match unitMasterCache this !! unitId with
  | Some _ => true
  | None => false
  end.

Lemma requestLoop_queue ids this :
  spawnRequestedUnitUnitIds
    (fold_left (fun this unitId => requestSpawnAI unitId this) ids this)
  = spawnRequestedUnitUnitIds this ++ aiRequests ids.
Proof.
  revert this. induction ids as [|u ids IH]; intros this; simpl.
  - rewrite app_nil_r. reflexivity.
  - rewrite IH. simpl. rewrite <- app_assoc. reflexivity.
Qed.

Lemma updateAISpawn_queue this :
  spawnRequestedUnitUnitIds (updateAISpawn this)
  = spawnRequestedUnitUnitIds this ++ aiRequests (currentWave this).
Proof.
  unfold updateAISpawn, currentWave.
  destruct (aiWaveCache this !! passedFrameCount this) as [waves|].
  - apply requestLoop_queue.
  - simpl. rewrite app_nil_r. reflexivity.
Qed.

Lemma spawnLoop_masters q tmpCost this :
  unitMasterCache (snd (fold_left spawnOne q (tmpCost, this))) = unitMasterCache this.
Proof.
  apply (fold_left_keeps spawnOne
           (fun acc => unitMasterCache (snd acc) = unitMasterCache this));
    [|reflexivity].
  intros [c s'] req _ H. rewrite spawnOne_eq.
  repeat case_match; simpl; rewrite ?accepted_unitMasterCache; exact H.
Qed.

Lemma hasMaster_masters this this' :
  unitMasterCache this' = unitMasterCache this ->
  forall ids, List.filter (hasMaster this') ids = List.filter (hasMaster this) ids.
Proof.
  intros H ids. apply List.filter_ext. intros u. unfold hasMaster. rewrite H.
  reflexivity.
Qed.

(** The loop of [updateSpawnRequest] on AI requests: no cost gate; one
    entity per requested id whose master is present, in request order, at
    consecutive fresh references. *)
Lemma spawnLoop_ai ids :
  forall tmpCost this,
    let result := fold_left spawnOne (aiRequests ids) (tmpCost, this) in
    let accepted_ids := List.filter (hasMaster this) ids in
    fst result = tmpCost /\
    nextEntityId (snd result) = (nextEntityId this + length accepted_ids)%nat /\
    unitEntities (snd result)
    = unitEntities this ++ seq (nextEntityId this) (length accepted_ids) /\
    forall (k : nat) (u : Z), accepted_ids !! k = Some u ->
      exists master,
        unitMasterCache this !! u = Some master /\
        heap (snd result) !! (nextEntityId this + k)%nat
        = Some (spawnedEntity (nextEntityId this + k) u false master).
Proof.
  induction ids as [|u ids IH]; intros tmpCost this; simpl.
  - rewrite app_nil_r. repeat split; auto. intros k u' Hk. discriminate.
  - rewrite spawnOne_eq. change (fst (u, false)) with u.
    change (snd (u, false)) with false. cbv iota.
    destruct (unitMasterCache this !! u) as [master|] eqn:Hm.
    2:{ assert (Hhm : hasMaster this u = false)
          by (unfold hasMaster; rewrite Hm; reflexivity).
        rewrite Hhm. apply IH. }
    assert (Hhm : hasMaster this u = true)
      by (unfold hasMaster; rewrite Hm; reflexivity).
    rewrite Hhm.
    set (this1 := accepted this u false master 1000).
    destruct (IH tmpCost this1) as (Hc & Hn & HL & Hh).
    rewrite (hasMaster_masters this this1 (accepted_unitMasterCache _ _ _ _ _)) in *.
    unfold this1 in Hn, HL, Hh.
    rewrite accepted_nextEntityId in Hn, HL, Hh.
    rewrite accepted_unitEntities in HL.
    rewrite accepted_unitMasterCache in Hh. fold this1 in Hn, HL, Hh.
    split; [exact Hc|]. split; [rewrite Hn; simpl; lia|].
    split; [rewrite HL, <- app_assoc; reflexivity|].
    intros [|k] u' Hk; simpl in Hk.
    + injection Hk as <-. exists master. split; [exact Hm|].
      rewrite Nat.add_0_r.
      destruct (extends_spawnLoop (aiRequests ids) tmpCost this1) as (_ & _ & Hold).
      rewrite Hold by (unfold this1; rewrite accepted_nextEntityId; lia).
      unfold this1. rewrite accepted_heap. apply lookup_insert_eq.
    + destruct (Hh k u' Hk) as (master' & Hm' & Hlk).
      exists master'. split; [exact Hm'|].
      replace (nextEntityId this + S k)%nat with (S (nextEntityId this) + k)%nat
        by lia.
      exact Hlk.
Qed.

(** What the wave scheduler reads. *)
Definition scheduleOf (s : BattleLogic) :=
  (aiWaveCache s, passedFrameCount s, unitMasterCache s).

Lemma updateAvailableCost_scheduleOf c s :
  scheduleOf (updateAvailableCost c s) = scheduleOf s /\
  spawnRequestedUnitUnitIds (updateAvailableCost c s) = spawnRequestedUnitUnitIds s.
Proof.
  unfold updateAvailableCost, notify. simpl.
  destruct (delegator s); split; reflexivity.
Qed.

Lemma updateAISpawn_scheduleOf s : scheduleOf (updateAISpawn s) = scheduleOf s.
Proof.
  unfold updateAISpawn. destruct (aiWaveCache s !! passedFrameCount s); [|reflexivity].
  apply (fold_left_keeps (fun this unitId => requestSpawnAI unitId this)
           (fun s' => scheduleOf s' = scheduleOf s)); [|reflexivity].
  intros s' u _ H. exact H.
Qed.

(** The instance inside [update] when [updateSpawnRequest] is called. *)
Definition wavesRequested (this : BattleLogic) : BattleLogic :=
  updateAISpawn
    (updateAvailableCost
       (availableCost this + costRecoveryPerFrame (config this)) this).

Lemma wavesRequested_scheduleOf s :
  scheduleOf (wavesRequested s) = scheduleOf s.
Proof.
  unfold wavesRequested. rewrite updateAISpawn_scheduleOf.
  apply updateAvailableCost_scheduleOf.
Qed.

Lemma wavesRequested_queue s :
  spawnRequestedUnitUnitIds (wavesRequested s)
  = spawnRequestedUnitUnitIds s ++ aiRequests (currentWave s).
Proof.
  unfold wavesRequested. rewrite updateAISpawn_queue.
  destruct (updateAvailableCost_scheduleOf
              (availableCost s + costRecoveryPerFrame (config s)) s) as [Hs Hq].
  rewrite Hq. unfold currentWave.
  unfold scheduleOf in Hs. injection Hs as -> -> _. reflexivity.
Qed.

(** The entities after the spawn resolution of a frame: those the requests
    of the callers have left, then one AI entity per id of the current wave
    whose master is present. *)
Lemma spawnsResolved_wave this :
  let before :=
    snd (fold_left spawnOne (spawnRequestedUnitUnitIds this)
           (availableCost (wavesRequested this), wavesRequested this)) in
  let accepted_ids := List.filter (hasMaster this) (currentWave this) in
  unitEntities (spawnsResolved this)
  = unitEntities before ++ seq (nextEntityId before) (length accepted_ids) /\
  forall (k : nat) (u : Z), accepted_ids !! k = Some u ->
    exists master,
      unitMasterCache this !! u = Some master /\
      heap (spawnsResolved this) !! (nextEntityId before + k)%nat
      = Some (spawnedEntity (nextEntityId before + k) u false master).
Proof.
  cbv zeta.
  change (spawnsResolved this) with (updateSpawnRequest (wavesRequested this)).
  set (s2 := wavesRequested this).
  set (accepted_ids := List.filter (hasMaster this) (currentWave this)).
  pose proof (wavesRequested_queue this) as Hq. fold s2 in Hq.
  pose proof (wavesRequested_scheduleOf this) as Hsch. fold s2 in Hsch.
  assert (Hm2 : unitMasterCache s2 = unitMasterCache this)
    by (unfold scheduleOf in Hsch; congruence).
  pose proof (spawnLoop_masters (spawnRequestedUnitUnitIds this)
                (availableCost s2) s2) as Hmb.
  rewrite Hm2 in Hmb.
  assert (Hloop : fold_left spawnOne (spawnRequestedUnitUnitIds s2)
                    (availableCost s2, s2)
                  = fold_left spawnOne (aiRequests (currentWave this))
                      (fold_left spawnOne (spawnRequestedUnitUnitIds this)
                         (availableCost s2, s2))).
  { rewrite Hq. apply fold_left_app. }
  destruct (fold_left spawnOne (spawnRequestedUnitUnitIds this)
              (availableCost s2, s2)) as [tmpCost0 before] eqn:Hb.
  cbn [snd] in *.
  destruct (spawnLoop_ai (currentWave this) tmpCost0 before) as (_ & _ & HL & Hh).
  rewrite (hasMaster_masters this before Hmb) in HL, Hh. fold accepted_ids in HL, Hh.
  rewrite Hmb in Hh.
  assert (Hent : entitiesOf (updateSpawnRequest s2)
                 = entitiesOf (snd (fold_left spawnOne (aiRequests (currentWave this))
                                      (tmpCost0, before)))).
  { unfold updateSpawnRequest.
    destruct (spawnRequestedUnitUnitIds s2) as [|req q] eqn:Hq2.
    - symmetry in Hq. apply app_eq_nil in Hq. destruct Hq as [Hq0 Hai].
      rewrite Hai. rewrite Hq0 in Hb. simpl in Hb. injection Hb as _ <-.
      reflexivity.
    - rewrite Hloop.
      destruct (fold_left spawnOne (aiRequests (currentWave this))
                  (tmpCost0, before)) as [tmpCost s'].
      change (entitiesOf (updateAvailableCost tmpCost s') = entitiesOf s').
      apply updateAvailableCost_entitiesOf. }
  destruct (entitiesOf_inv _ _ Hent) as (_ & HL' & Hh').
  rewrite HL', Hh'. split; [exact HL|exact Hh].
Qed.

(** An entity that is [IDLE] after the spawn resolution is in the array
    after [update], [IDLE] or [ENGAGED]. *)
Lemma update_keeps_idle s r e :
  In r (unitEntities (spawnsResolved s)) ->
  heap (spawnsResolved s) !! r = Some e -> state e = IDLE ->
  In r (unitEntities (update s)) /\
  exists e', heap (update s) !! r = Some e' /\
    unitId e' = unitId e /\ isPlayer e' = isPlayer e /\
    (state e' = IDLE \/ state e' = ENGAGED).
Proof.
  intros Hr He Hst.
  destruct (heapAgree_lookup shape _ _ r e
              (updateEntityParameter_shape (spawnsResolved s)) He)
    as (e4 & He4 & Hsh4).
  rewrite <- parametersUpdated_eq in He4.
  assert (Hst4 : state e4 = IDLE) by (unfold shape in Hsh4; congruence).
  destruct (resolveStates_idle _ r e4 He4 Hst4) as (e5 & He5 & Hv & Hc).
  rewrite <- updateEntityState_heap in He5.
  assert (Hs5 : state e5 = IDLE \/ state e5 = ENGAGED)
    by (destruct Hc as [->|Hc]; auto).
  destruct (update_keeps s r e5 Hr He5) as (Hin & e' & He' & Hset);
    [destruct Hs5; congruence|].
  split; [exact Hin|]. exists e'. split; [exact He'|].
  unfold settled, shape in Hset. unfold vitals in Hv. unfold shape in Hsh4.
  assert (Hs' : state e' = state e5) by congruence.
  rewrite Hs'. split; [congruence|]. split; [congruence|exact Hs5].
Qed.

(** ** The queue of requests *)

Lemma with_passedFrameCount_queue v s :
  spawnRequestedUnitUnitIds (with_passedFrameCount v s) = spawnRequestedUnitUnitIds s.
Proof. reflexivity. Qed.

Lemma with_unitEntities_queue v s :
  spawnRequestedUnitUnitIds (with_unitEntities v s) = spawnRequestedUnitUnitIds s.
Proof. reflexivity. Qed.

(** A player request that is accepted. *)
Definition spawnSucceeds (tmpCost : Z) (this : BattleLogic) (unitId0 : Z)
    (result : Z * BattleLogic) : Prop :=
  exists master entity,
    unitMasterCache this !! unitId0 = Some master /\
    0 <= tmpCost - UnitMaster.cost master /\
    fst result = tmpCost - UnitMaster.cost master /\
    availableCost (snd result) = availableCost this /\
    nextEntityId (snd result) = S (nextEntityId this) /\
    unitEntities (snd result) = unitEntities this ++ [nextEntityId this] /\
    ~ In (nextEntityId this) (unitEntities this) /\
    heap this !! nextEntityId this = None /\
    heap (snd result) = <[nextEntityId this := entity]> (heap this) /\
    id entity = nextEntityId this /\ unitId entity = unitId0 /\
    isPlayer entity = true /\ state entity = IDLE /\
    currentHealth entity = UnitMaster.maxHealth master /\
    maxHealth entity = UnitMaster.maxHealth master /\
    engagedEntity entity = None /\
    wellFormed (snd result).

(** A player request that is dropped. *)
Definition spawnFails (tmpCost : Z) (this : BattleLogic) (unitId0 : Z)
    (result : Z * BattleLogic) : Prop :=
  (unitMasterCache this !! unitId0 = None \/
   exists master, unitMasterCache this !! unitId0 = Some master /\
                  tmpCost - UnitMaster.cost master < 0) /\
  result = (tmpCost, this).

Lemma updateSpawnRequest_queue s :
  spawnRequestedUnitUnitIds (updateSpawnRequest s) = [].
Proof.
  unfold updateSpawnRequest.
  destruct (spawnRequestedUnitUnitIds s) as [|req q] eqn:Hq; [exact Hq|].
  destruct (fold_left spawnOne (req :: q) (availableCost s, s)); reflexivity.
Qed.

Lemma update_queue s : spawnRequestedUnitUnitIds (update s) = [].
Proof.
  rewrite update_eq, with_passedFrameCount_queue.
  rewrite (sameSkeleton_queue _ _ (updatePostProcess_skeleton _)).
  rewrite with_unitEntities_queue.
  rewrite (sameSkeleton_queue _ _ (updateEntityState_skeleton _)).
  rewrite parametersUpdated_eq.
  rewrite (sameSkeleton_queue _ _ (updateEntityParameter_skeleton _)).
  apply updateSpawnRequest_queue.
Qed.

(** ** A created entity through the rest of its frame *)

(** The fields [updateDistance] never writes. *)
Definition unmoved (e : UnitEntity) :=
  (shape e, currentHealth e, currentFrameDamage e).

Lemma updateDistance_unmoved r master s :
  heapAgree unmoved (heap s) (heap (updateDistance r master s)).
Proof.
  unfold updateDistance.
  destruct (heap s !! r) as [unit|] eqn:Hr; [|apply heapAgree_refl].
  assert (Hins : forall e', unmoved e' = unmoved unit ->
            heapAgree unmoved (heap s) (<[r := e']> (heap s))).
  { intros; eapply heapAgree_insert; eauto. }
  repeat case_match; rewrite ?notify_heap; simpl;
    rewrite ?insert_insert_eq; apply Hins; reflexivity.
Qed.

Lemma updateDamage_lookup_unengaged a master s r :
  (forall ea, heap s !! a = Some ea -> engagedEntity ea <> Some r) ->
  heap (updateDamage a master s) !! r = heap s !! r.
Proof.
  intros Hne. unfold updateDamage.
  destruct (heap s !! a) as [unit|] eqn:Ha; [|reflexivity].
  destruct (engagedEntity unit) as [t|] eqn:Ht; [|reflexivity].
  assert (t <> r) by (intros ->; exact (Hne unit eq_refl Ht)).
  destruct (heap s !! t) as [target|]; [|reflexivity].
  repeat case_match; rewrite ?notify_heap; simpl;
    rewrite ?lookup_insert_ne by congruence; reflexivity.
Qed.

(** An object that no entity of the array has as its engaged entity comes
    out of the parameter update with the health it had. *)
Lemma updateEntityParameter_unengaged s r e :
  (forall a ea, In a (unitEntities s) -> heap s !! a = Some ea ->
     engagedEntity ea <> Some r) ->
  heap s !! r = Some e ->
  exists e', heap (updateEntityParameter s) !! r = Some e' /\
    shape e' = shape e /\ currentHealth e' = currentHealth e.
Proof.
  intros Hun He. unfold updateEntityParameter.
  refine (proj2 (fold_left_keeps parameterOne
           (fun s' => heapAgree shape (heap s) (heap s') /\
                      exists e', heap s' !! r = Some e' /\
                        shape e' = shape e /\
                        currentHealth e' = currentHealth e)
           (unitEntities s) _ s _)).
  - intros s' a Ha (Hsh & e1 & He1 & Hk1 & Hh).
    split.
    { eapply heapAgree_trans; [exact Hsh|].
      unfold parameterOne. repeat case_match; try apply heapAgree_refl.
      eapply heapAgree_trans; [apply updateDamage_shape|apply updateDistance_shape]. }
    unfold parameterOne.
    destruct (heap s' !! a) as [unit|] eqn:Hua; [|eauto].
    destruct (unitMasterCache s' !! unitId unit) as [master|]; [|eauto].
    assert (Hdm : heap (updateDamage a master s') !! r = Some e1).
    { rewrite updateDamage_lookup_unengaged; [exact He1|].
      intros ea Hea Heng.
      destruct (heapAgree_lookup_inv shape _ _ _ _ Hsh Hea) as (ea0 & Hea0 & Hk).
      apply (Hun a ea0 Ha Hea0). unfold shape in Hk. congruence. }
    destruct (heapAgree_lookup unmoved _ _ r e1
                (updateDistance_unmoved a master _) Hdm) as (e2 & He2 & Hk).
    exists e2. split; [exact He2|]. unfold unmoved in Hk. split; congruence.
  - split; [apply heapAgree_refl|]. exists e. auto.
Qed.

(** The running counter and the instance of the loop of [updateSpawnRequest]
    when it comes to the request at position [k] of the queue. *)
Definition spawnLoopAt (this : BattleLogic) (k : nat) : Z * BattleLogic :=
  fold_left spawnOne (take k (spawnRequestedUnitUnitIds this))
    (availableCost this, this).

Lemma spawnLoopAt_S this k req :
  spawnRequestedUnitUnitIds this !! k = Some req ->
  spawnLoopAt this (S k) = spawnOne (spawnLoopAt this k) req.
Proof.
  intros H. unfold spawnLoopAt. rewrite (take_S_r _ _ _ H), fold_left_app.
  reflexivity.
Qed.

Lemma spawnLoopAt_end this :
  spawnLoopAt this (length (spawnRequestedUnitUnitIds this))
  = fold_left spawnOne (spawnRequestedUnitUnitIds this) (availableCost this, this).
Proof. unfold spawnLoopAt. rewrite firstn_all. reflexivity. Qed.

Lemma spawnLoopAt_rest this k :
  spawnLoopAt this (length (spawnRequestedUnitUnitIds this))
  = fold_left spawnOne (drop k (spawnRequestedUnitUnitIds this))
      (spawnLoopAt this k).
Proof.
  rewrite spawnLoopAt_end. unfold spawnLoopAt.
  rewrite <- fold_left_app, take_drop. reflexivity.
Qed.

Lemma spawnLoopAt_wellFormed this k :
  wellFormed this -> wellFormed (snd (spawnLoopAt this k)).
Proof.
  intros Hwf. unfold spawnLoopAt.
  apply (fold_left_keeps spawnOne (fun acc => wellFormed (snd acc)));
    [|exact Hwf].
  intros acc req _. apply wellFormed_spawnOne.
Qed.

(** The loop creates entities that engage nothing. *)
Lemma spawnLoop_fresh q tmpCost this :
  wellFormed this ->
  forall r e,
    (nextEntityId this <= r)%nat ->
    heap (snd (fold_left spawnOne q (tmpCost, this))) !! r = Some e ->
    engagedEntity e = None.
Proof.
  intros Hwf.
  apply (fold_left_keeps spawnOne
           (fun acc => forall r e, (nextEntityId this <= r)%nat ->
                         heap (snd acc) !! r = Some e -> engagedEntity e = None)).
  - intros [c s'] req _ IH r e Hr. rewrite spawnOne_eq.
    assert (Hacc : forall m b,
              heap (accepted s' (fst req) (snd req) m b) !! r = Some e ->
              engagedEntity e = None).
    { intros m b. rewrite accepted_heap.
      destruct (decide (r = nextEntityId s')) as [->|Hne].
      - rewrite lookup_insert_eq. intros [= <-]. reflexivity.
      - rewrite lookup_insert_ne by congruence. apply IH. exact Hr. }
    destruct (unitMasterCache s' !! fst req) as [master|]; [|apply IH; exact Hr].
    destruct (snd req) eqn:Hp.
    + destruct (c - UnitMaster.cost master <? 0); [apply IH; exact Hr|].
      apply (Hacc master 100).
    + apply (Hacc master 1000).
  - intros r e Hr He. simpl in He.
    assert (r < nextEntityId this)%nat by (apply (wf_below this Hwf); eauto).
    lia.
Qed.

(** The entities [updateSpawnRequest] leaves are those of its loop. *)
Lemma updateSpawnRequest_entitiesOf s :
  entitiesOf (updateSpawnRequest s)
  = entitiesOf (snd (spawnLoopAt s (length (spawnRequestedUnitUnitIds s)))).
Proof.
  rewrite spawnLoopAt_end. unfold updateSpawnRequest.
  destruct (spawnRequestedUnitUnitIds s) as [|req q]; [reflexivity|].
  destruct (fold_left spawnOne (req :: q) (availableCost s, s)) as [tmpCost s'].
  change (entitiesOf (updateAvailableCost tmpCost s') = entitiesOf s').
  apply updateAvailableCost_entitiesOf.
Qed.

Lemma wellFormed_wavesRequested s : wellFormed s -> wellFormed (wavesRequested s).
Proof.
  intros Hwf. unfold wavesRequested.
  apply (wellFormed_entitiesOf
           (updateAvailableCost (availableCost s + costRecoveryPerFrame (config s)) s));
    [apply updateAISpawn_entitiesOf|].
  apply (wellFormed_entitiesOf s); [apply updateAvailableCost_entitiesOf|exact Hwf].
Qed.

(** An entity the loop of [updateSpawnRequest] has created inside [update()]
    is in the live collection when [update()] returns, with the health it
    was created with: nothing can have engaged it before the state
    resolution of its first frame. *)
Lemma created_survives this k entity :
  wellFormed this ->
  let s1 := wavesRequested this in
  let before := spawnLoopAt s1 k in
  let after := spawnLoopAt s1 (S k) in
  wellFormed (snd after) ->
  nextEntityId (snd after) = S (nextEntityId (snd before)) ->
  unitEntities (snd after) = unitEntities (snd before) ++ [nextEntityId (snd before)] ->
  heap (snd after) = <[nextEntityId (snd before) := entity]> (heap (snd before)) ->
  state entity = IDLE ->
  In (nextEntityId (snd before)) (unitEntities (update this)) /\
  exists e', heap (update this) !! nextEntityId (snd before) = Some e' /\
    id e' = id entity /\ unitId e' = unitId entity /\
    isPlayer e' = isPlayer entity /\
    currentHealth e' = currentHealth entity /\
    maxHealth e' = maxHealth entity /\
    (state e' = IDLE \/ state e' = ENGAGED).
Proof.
  intros Hwf s1 before after Hwfa Hnext Harr Hheap Hst.
  set (fresh := nextEntityId (snd before)) in *.
  set (final := snd (spawnLoopAt s1 (length (spawnRequestedUnitUnitIds s1)))).
  assert (Hext : extends (snd after) final).
  { unfold final. rewrite (spawnLoopAt_rest s1 (S k)). fold after.
    destruct after as [c a]. apply extends_spawnLoop. }
  assert (Hent : entitiesOf (spawnsResolved this) = entitiesOf final)
    by apply (updateSpawnRequest_entitiesOf s1).
  destruct (entitiesOf_inv _ _ Hent) as (_ & HL & HH).
  destruct Hext as (_ & (added & Hadd & _) & Hold).
  assert (Hfin : heap final !! fresh = Some entity).
  { rewrite Hold by lia. rewrite Hheap. apply lookup_insert_eq. }
  assert (Hin : In fresh (unitEntities final)).
  { rewrite Hadd, Harr. apply in_or_app. left. apply in_or_app. right.
    left. reflexivity. }
  assert (Hun : forall a ea, In a (unitEntities final) ->
                  heap final !! a = Some ea -> engagedEntity ea <> Some fresh).
  { intros a ea Ha Hea Heng.
    destruct (Nat.lt_ge_cases a (nextEntityId (snd after))) as [Hlt|Hge].
    - rewrite Hold in Hea by exact Hlt.
      assert (Hina : In a (unitEntities (snd after))).
      { rewrite Hadd in Ha. apply in_app_or in Ha. destruct Ha as [Ha|Ha]; [exact Ha|].
        exfalso. destruct (extends_spawnLoop
                             (drop (S k) (spawnRequestedUnitUnitIds s1))
                             (fst after) (snd after)) as (_ & (added' & Hadd' & Hra) & _).
        assert (Hfinal : final
                         = snd (fold_left spawnOne
                                  (drop (S k) (spawnRequestedUnitUnitIds s1))
                                  (fst after, snd after))).
        { unfold final. rewrite (spawnLoopAt_rest s1 (S k)). fold after.
          destruct after; reflexivity. }
        rewrite <- Hfinal in Hadd'. rewrite Hadd in Hadd'.
        apply app_inv_head in Hadd'. subst added'.
        specialize (Hra a Ha). lia. }
      destruct (wf_engaged _ Hwfa a ea fresh Hina Hea Heng)
        as (_ & _ & target & Ht & _).
      destruct (decide (a = fresh)) as [->|Hne].
      + rewrite Hheap, lookup_insert_eq in Hea. injection Hea as <-.
        assert (Hnone : engagedEntity entity = None).
        { apply (spawnLoop_fresh [] 0 (snd before)
                   (spawnLoopAt_wellFormed s1 k (wellFormed_wavesRequested _ Hwf))
                   fresh entity); [unfold fresh; lia|].
          simpl. exfalso.
          pose proof (wf_engaged _ Hwfa fresh entity fresh Hina) as Hself.
          rewrite Hheap, lookup_insert_eq in Hself.
          destruct (Hself eq_refl Heng) as (Hen & _). congruence. }
        congruence.
      + rewrite Hheap, lookup_insert_ne in Hea by congruence.
        assert (Hina' : In a (unitEntities (snd before))).
        { rewrite Harr in Hina. apply in_app_or in Hina.
          destruct Hina as [H|[H|[]]]; [exact H|congruence]. }
        destruct (wf_engaged _ (spawnLoopAt_wellFormed s1 k
                                  (wellFormed_wavesRequested _ Hwf))
                    a ea fresh Hina' Hea Heng) as (_ & _ & tg & Htg & _).
        assert (fresh < nextEntityId (snd before))%nat
          by (apply (wf_below _ (spawnLoopAt_wellFormed s1 k
                                   (wellFormed_wavesRequested _ Hwf))); eauto).
        unfold fresh in *. lia.
    - assert (Hnone : engagedEntity ea = None).
      { apply (spawnLoop_fresh (drop (S k) (spawnRequestedUnitUnitIds s1))
                 (fst after) (snd after) Hwfa a ea Hge).
        unfold final in Hea. rewrite (spawnLoopAt_rest s1 (S k)) in Hea.
        fold after in Hea. destruct after; exact Hea. }
      congruence. }
  rewrite <- HL in Hin, Hun. rewrite <- HH in Hfin, Hun.
  destruct (updateEntityParameter_unengaged _ fresh entity Hun Hfin)
    as (e4 & He4 & Hsh4 & Hh4).
  rewrite <- parametersUpdated_eq in He4.
  assert (Hst4 : state e4 = IDLE) by (unfold shape in Hsh4; congruence).
  destruct (resolveStates_idle _ fresh e4 He4 Hst4) as (e5 & He5 & Hv & Hc).
  rewrite <- updateEntityState_heap in He5.
  assert (Hs5 : state e5 = IDLE \/ state e5 = ENGAGED)
    by (destruct Hc as [->|Hc]; auto).
  destruct (update_keeps this fresh e5 Hin He5) as (Hin' & e' & He' & Hset);
    [destruct Hs5; congruence|].
  split; [exact Hin'|]. exists e'. split; [exact He'|].
  unfold settled, shape in Hset. unfold vitals in Hv. unfold shape in Hsh4.
  assert (Hs' : state e' = state e5) by congruence.
  rewrite Hs'.
  repeat (split; [congruence|]). exact Hs5.
Qed.

(** One iteration of the loop on a player request. *)
Lemma spawnOne_atomic tmpCost this unitId0 :
  wellFormed this ->
  let result := spawnOne (tmpCost, this) (unitId0, true) in
  spawnSucceeds tmpCost this unitId0 result \/
  spawnFails tmpCost this unitId0 result.
Proof.
  intros Hwf result. subst result.
  unfold spawnSucceeds, spawnFails. rewrite spawnOne_eq.
  change (fst (unitId0, true)) with unitId0.
  change (snd (unitId0, true)) with true. cbv iota.
  destruct (unitMasterCache this !! unitId0) as [master|] eqn:Hm;
    [|right; auto].
  destruct (tmpCost - UnitMaster.cost master <? 0) eqn:Hlt.
  - apply Z.ltb_lt in Hlt. right. split; [right; eauto|reflexivity].
  - apply Z.ltb_ge in Hlt. left.
    exists master, (spawnedEntity (nextEntityId this) unitId0 true master).
    change (fst (?a, ?b)) with a. change (snd (?a, ?b)) with b.
    assert (Hfresh : heap this !! nextEntityId this = None).
    { destruct (heap this !! nextEntityId this) eqn:E; [|reflexivity].
      assert (nextEntityId this < nextEntityId this)%nat
        by (apply (wf_below this Hwf); eauto). lia. }
    split; [reflexivity|]. split; [exact Hlt|]. split; [reflexivity|].
    split; [exact (proj1 (costView_inv _ _ (accepted_costView _ _ _ _ _)))|].
    split; [apply accepted_nextEntityId|].
    split; [apply accepted_unitEntities|].
    split.
    { intros Hin. destruct (wf_present this Hwf _ Hin) as [e He]. congruence. }
    split; [exact Hfresh|]. split; [apply accepted_heap|].
    repeat (split; [reflexivity|]).
    apply wellFormed_accepted; exact Hwf.
Qed.

(** The request at position [k] of the queue, in the loop as
    [updateSpawnRequest] runs it. *)
Lemma spawnLoopAt_atomic this k u :
  wellFormed this ->
  spawnRequestedUnitUnitIds this !! k = Some (u, true) ->
  spawnSucceeds (fst (spawnLoopAt this k)) (snd (spawnLoopAt this k)) u
    (spawnLoopAt this (S k)) \/
  spawnFails (fst (spawnLoopAt this k)) (snd (spawnLoopAt this k)) u
    (spawnLoopAt this (S k)).
Proof.
  intros Hwf Hk. rewrite (spawnLoopAt_S this k _ Hk).
  pose proof (spawnLoopAt_wellFormed this k Hwf) as Hwfk.
  destruct (spawnLoopAt this k) as [c s']. apply spawnOne_atomic. exact Hwfk.
Qed.

Lemma updateAvailableCost_config c s : config (updateAvailableCost c s) = config s.
Proof. unfold updateAvailableCost, notify. destruct (delegator _); reflexivity. Qed.

Lemma wavesRequested_config s : config (wavesRequested s) = config s.
Proof.
  unfold wavesRequested.
  rewrite (proj1 (proj2 (costView_inv _ _ (updateAISpawn_costView _)))).
  apply updateAvailableCost_config.
Qed.

Lemma updateSpawnRequest_masters s :
  unitMasterCache (updateSpawnRequest s) = unitMasterCache s.
Proof.
  unfold updateSpawnRequest.
  destruct (spawnRequestedUnitUnitIds s) as [|req q]; [reflexivity|].
  pose proof (spawnLoop_masters (req :: q) (availableCost s) s) as H.
  destruct (fold_left spawnOne (req :: q) (availableCost s, s)) as [c s'].
  simpl in H. rewrite <- H.
  unfold updateAvailableCost, notify. simpl. destruct (delegator s'); reflexivity.
Qed.

(** After the loop the available cost is the running counter, clamped. *)
Lemma updateSpawnRequest_availableCost s :
  spawnRequestedUnitUnitIds s <> [] ->
  let tmpCost := fst (spawnLoopAt s (length (spawnRequestedUnitUnitIds s))) in
  availableCost (updateSpawnRequest s)
  = if tmpCost >? maxAvailableCost (config s)
    then maxAvailableCost (config s) else tmpCost.
Proof.
  intros Hq tmpCost. subst tmpCost. rewrite spawnLoopAt_end.
  unfold updateSpawnRequest.
  destruct (spawnRequestedUnitUnitIds s) as [|req q]; [contradiction|].
  pose proof (spawnLoop_config (req :: q) (availableCost s) s) as Hcfg.
  destruct (fold_left spawnOne (req :: q) (availableCost s, s)) as [tmpCost s'].
  simpl in Hcfg. simpl fst.
  change (availableCost (with_spawnRequestedUnitUnitIds ?v ?x))
    with (availableCost x).
  unfold updateAvailableCost, notify. rewrite <- Hcfg.
  destruct (delegator (with_availableCost _ s')); reflexivity.
Qed.

(** ** An engine without a delegator *)

Lemma accepted_scheduleOf this u p m b :
  scheduleOf (accepted this u p m b) = scheduleOf this.
Proof. unfold accepted, notify; simpl. destruct (delegator this); reflexivity. Qed.

Lemma spawnLoop_scheduleOf q tmpCost this :
  scheduleOf (snd (fold_left spawnOne q (tmpCost, this))) = scheduleOf this.
Proof.
  apply (fold_left_keeps spawnOne
           (fun acc => scheduleOf (snd acc) = scheduleOf this)); [|reflexivity].
  intros [c s'] req _ H. rewrite spawnOne_eq.
  repeat case_match; simpl; rewrite ?accepted_scheduleOf; exact H.
Qed.

Lemma updateSpawnRequest_scheduleOf s :
  scheduleOf (updateSpawnRequest s) = scheduleOf s.
Proof.
  unfold updateSpawnRequest.
  destruct (spawnRequestedUnitUnitIds s) as [|req q]; [reflexivity|].
  pose proof (spawnLoop_scheduleOf (req :: q) (availableCost s) s) as H.
  destruct (fold_left spawnOne (req :: q) (availableCost s, s)) as [c s'].
  simpl in H. rewrite <- H.
  exact (proj1 (updateAvailableCost_scheduleOf c s')).
Qed.

Lemma sameSkeleton_scheduleOf s s' : sameSkeleton s s' -> scheduleOf s' = scheduleOf s.
Proof.
  intros H. unfold scheduleOf.
  rewrite (sameSkeleton_aiWaveCache _ _ H), (sameSkeleton_passedFrameCount _ _ H),
    (sameSkeleton_unitMasterCache _ _ H).
  reflexivity.
Qed.

Lemma parametersUpdated_scheduleOf s : scheduleOf (parametersUpdated s) = scheduleOf s.
Proof.
  unfold parametersUpdated.
  rewrite (sameSkeleton_scheduleOf _ _ (updateEntityParameter_skeleton _)).
  rewrite updateSpawnRequest_scheduleOf, updateAISpawn_scheduleOf.
  exact (proj1 (updateAvailableCost_scheduleOf _ s)).
Qed.

Lemma update_scheduleOf s :
  scheduleOf (update s)
  = (aiWaveCache s, passedFrameCount s + 1, unitMasterCache s).
Proof.
  rewrite update_eq.
  set (s3 := updatePostProcess (updateEntityState (parametersUpdated s))).
  assert (H : scheduleOf s3 = scheduleOf s).
  { unfold s3.
    rewrite (sameSkeleton_scheduleOf _ _ (updatePostProcess_skeleton _)).
    match goal with
    | |- scheduleOf (with_unitEntities ?l ?x) = _ =>
        transitivity (scheduleOf x); [reflexivity|]
    end.
    rewrite (sameSkeleton_scheduleOf _ _ (updateEntityState_skeleton _)).
    apply parametersUpdated_scheduleOf. }
  unfold scheduleOf in H.
  assert (Hf : passedFrameCount s3 = passedFrameCount s) by congruence.
  assert (Hw : aiWaveCache s3 = aiWaveCache s) by congruence.
  assert (Hm : unitMasterCache s3 = unitMasterCache s) by congruence.
  clearbody s3. unfold scheduleOf. destruct s3; simpl in *.
  rewrite Hf, Hw, Hm. reflexivity.
Qed.













(** ** Scenarios *)

(** [n] calls of [update]. *)
Fixpoint framesFrom (this : BattleLogic) (n : nat) : BattleLogic :=
  match n with
  | O => this
  | S k => update (framesFrom this k)
  end.

Definition stateOf (s : BattleLogic) (r : Ref) : option AttackableState :=
  state <$> heap s !! r.

Definition healthOf (s : BattleLogic) (r : Ref) : option Z :=
  currentHealth <$> heap s !! r.

Definition engagedOf (s : BattleLogic) (r : Ref) : option (option Ref) :=
  engagedEntity <$> heap s !! r.

(** The references of a concrete array are pairwise different. *)
Ltac solve_NoDup :=
  clear; vm_compute;
  repeat (apply List.NoDup_cons; [simpl; lia|]); apply List.NoDup_nil.

(** A delegator that answers yes to every question. *)
Definition permitAll : BattleLogicDelegate :=
  mkDelegate (fun _ _ => true) (fun _ => true) (fun _ _ => true).

(** Scenario C of the specification: two opposing entities of one unit type
    with [power = 10] and [maxHealth = 100], thresholds [[0.5]]; the unit
    type costs nothing, walks 2 per frame and is knocked back for 3 frames.
    Entity [0] is the player's, entity [1] the AI's; both are requested
    before the first frame. *)
Module ScenarioC.
Definition master : UnitMaster.t := UnitMaster.make 1 0 100 10 2 1 3.
Definition cfg : BattleLogicConfig := mkConfig 0 100 [Double.literal 1 2].
Definition params : InitParams := mkInitParams permitAll [] [1] [master] (Some cfg).
Definition calls : list Call :=
  [CallInit params; CallRequestSpawn 1 true; CallRequestSpawn 1 false].
Definition start : BattleLogic := run calls (newBattleLogic cfg).
Definition frames (n : nat) : BattleLogic := framesFrom start n.
End ScenarioC.

(** Two opposing entities of one unit type with [power = 100] and
    [maxHealth = 100], and no knock-back threshold: after the first exchange
    both have no health left and nothing ever knocks them back. *)
Module ScenarioNoThreshold.
Definition master : UnitMaster.t := UnitMaster.make 1 0 100 100 2 1 3.
Definition cfg : BattleLogicConfig := mkConfig 0 100 [].
Definition params : InitParams := mkInitParams permitAll [] [1] [master] (Some cfg).
Definition calls : list Call :=
  [CallInit params; CallRequestSpawn 1 true; CallRequestSpawn 1 false;
   CallUpdate; CallUpdate].
Definition afterTwoFrames : BattleLogic := run calls (newBattleLogic cfg).
End ScenarioNoThreshold.

(** A player entity with [power = 100] against an AI entity with
    [power = 10], [maxHealth = 100] each, threshold [[0.5]], knock-back of
    one frame: the first exchange takes the AI entity to health 0 and knocks
    it back, and the frame after that it is [DEAD] and removed. *)
Module ScenarioKill.
Definition strong : UnitMaster.t := UnitMaster.make 1 0 100 100 2 1 1.
Definition weak : UnitMaster.t := UnitMaster.make 2 0 100 10 2 1 1.
Definition cfg : BattleLogicConfig := mkConfig 0 100 [Double.literal 1 2].
Definition params : InitParams :=
  mkInitParams permitAll [] [1] [strong; weak] (Some cfg).
Definition calls : list Call :=
  [CallInit params; CallRequestSpawn 1 true; CallRequestSpawn 2 false;
   CallUpdate; CallUpdate].
End ScenarioKill.

(** Scenario A of the specification: recovery 10 per frame, cap 100, no
    spawns, five frames. *)
Module ScenarioA.
Definition cfg : BattleLogicConfig := mkConfig 10 100 [].
Definition params : InitParams := mkInitParams permitAll [] [] [] (Some cfg).
Definition calls : list Call :=
  [CallInit params; CallUpdate; CallUpdate; CallUpdate; CallUpdate].
End ScenarioA.

(** Scenario B of the specification: a unit type of cost 30; with a recovery
    of 5 per frame the cost is 20 after four frames. *)
Module ScenarioB.
Definition master : UnitMaster.t := UnitMaster.make 1 30 100 10 2 1 3.
Definition cfg : BattleLogicConfig := mkConfig 5 100 [].
Definition params : InitParams := mkInitParams permitAll [] [1] [master] (Some cfg).
Definition calls : list Call :=
  [CallInit params; CallUpdate; CallUpdate; CallUpdate; CallUpdate].
Definition afterFourFrames : BattleLogic := run calls (newBattleLogic cfg).
End ScenarioB.

(** Scenario D of the specification: the wave schedule
    [{frame 3: [unitTypeId = 7]}]. *)
Module ScenarioD.
Definition master : UnitMaster.t := UnitMaster.make 7 0 100 10 2 1 3.
Definition cfg : BattleLogicConfig := mkConfig 0 100 [].
Definition params : InitParams :=
  mkInitParams permitAll [(3, [7])] [] [master] (Some cfg).
Definition start : BattleLogic := run [CallInit params] (newBattleLogic cfg).
Definition frames (n : nat) : BattleLogic := framesFrom start n.
End ScenarioD.

(** An instance to which no delegator is attached ([delegator] is [null])
    and which holds two opposing entities of one unit type with
    [power = 10], [speed = 2] and [maxHealth = 100]: both [IDLE] in
    [idlePair]; the player's entity engaged with the AI's in
    [engagedPair]. *)
Module ScenarioNoDelegator.
Definition master : UnitMaster.t := UnitMaster.make 1 0 100 10 2 1 3.
Definition cfg : BattleLogicConfig := mkConfig 0 100 [].
Definition playerIdle : UnitEntity := mkUnitEntity 0 1 true IDLE 100 100 0 0 None 0.
Definition aiIdle : UnitEntity := mkUnitEntity 1 1 false IDLE 100 100 0 0 None 0.
Definition instance (a b : UnitEntity) : BattleLogic :=
  mkBattleLogic cfg None 0 2%nat [0%nat; 1%nat]
    (<[0%nat := a]> (<[1%nat := b]> ∅)) (<[1 := master]> ∅) ∅ 0 [] [] [].
Definition idlePair : BattleLogic := instance playerIdle aiIdle.
End ScenarioNoDelegator.

(** A configuration whose cap is negative. *)
Module ScenarioNegativeCap.
Definition defaultConfig : BattleLogicConfig := mkConfig 0 100 [].
Definition cfg : BattleLogicConfig := mkConfig 0 (-1) [].
Definition params : InitParams := mkInitParams permitAll [] [] [] (Some cfg).
Definition calls : list Call := [CallInit params].
End ScenarioNegativeCap.

(** The conditions of the cost clamp on the calls of a run: a call of [init]
    passes unit masters of non-negative cost and, if it passes a
    configuration, one of non-negative recovery. *)
Definition callNonNegative (c : Call) : Prop :=
  match c with
  | CallInit params =>
      Forall (fun m => 0 <= UnitMaster.cost m) (p_unitMasters params) /\
      forall cfg, p_config params = Some cfg -> 0 <= costRecoveryPerFrame cfg
  | _ => True
  end.

(** A call of [init] that passes a configuration passes one of non-negative
    cap. *)
Definition callCapNonNegative (c : Call) : Prop :=
  match c with
  | CallInit params =>
      forall cfg, p_config params = Some cfg -> 0 <= maxAvailableCost cfg
  | _ => True
  end.

(** The scenarios behave as the specification says: five frames of
    recovery give a cost of 50, and the cost stops at the cap; a player
    request that the cost does not cover creates nothing and costs nothing,
    and is not in the queue afterwards. *)
Example scenarioA_five_frames :
  availableCost (update (run ScenarioA.calls (newBattleLogic ScenarioA.cfg))) = 50.
Proof. vm_compute. reflexivity. Qed.

Example scenarioA_cap :
  availableCost
    (framesFrom (run ScenarioA.calls (newBattleLogic ScenarioA.cfg)) 8) = 100.
Proof. vm_compute. reflexivity. Qed.

Example scenarioB_request_dropped :
  let s := update (requestSpawnPlayer 1 ScenarioB.afterFourFrames) in
  availableCost ScenarioB.afterFourFrames = 20 /\
  unitEntities s = [] /\ availableCost s = 25 /\
  spawnRequestedUnitUnitIds s = [] /\
  unitEntities (update s) = [].
Proof. vm_compute. repeat split; reflexivity. Qed.

(** ** Claims *)

(** C1 (knock-back on a threshold crossing), as amended.  An entity that is
    [ENGAGED] when the state resolution starts ends it in [KNOCK_BACK] if and
    only if, for some configured threshold fraction, its [currentHealth] is
    strictly below the threshold [maxHealth * rate] while [currentHealth +
    currentFrameDamage] is at or above it, the threshold being the product
    as the engine computes it, in double precision, and the comparisons
    those of doubles; it then has no engaged entity;
    the ladder stops at the first threshold, in configured order, that is
    crossed; and all this holds whether or not the disengage check fired.
    In Scenario C the health of each entity goes 100, 90, ..., 50, 40: the
    entity is never knocked back up to the frame that leaves it at 50, and it
    enters [KNOCK_BACK] on the next frame, which takes its health from 50 to
    40. *)
Theorem C1_knock_back_on_threshold_crossing :
  (forall (s : BattleLogic) (r : Ref) (e : UnitEntity),
     In r (unitEntities s) -> heap s !! r = Some e -> state e = ENGAGED ->
     exists e', heap (updateEntityState s) !! r = Some e' /\
       (state e' = KNOCK_BACK <->
        exists rate, In rate (knockBackHealthThreasholds (config s)) /\
                     crossedAt e rate) /\
       (state e' = KNOCK_BACK -> engagedEntity e' = None) /\
       (state e' = KNOCK_BACK <->
        exists before rate after,
          knockBackHealthThreasholds (config s) = before ++ rate :: after /\
          crossedAt e rate /\
          forall rate', In rate' before -> ~ crossedAt e rate')) /\
  ((forall n, (n <= 6)%nat ->
      stateOf (ScenarioC.frames n) 0%nat <> Some KNOCK_BACK) /\
   stateOf (ScenarioC.frames 6) 0%nat = Some ENGAGED /\
   healthOf (ScenarioC.frames 6) 0%nat = Some 50 /\
   stateOf (ScenarioC.frames 7) 0%nat = Some KNOCK_BACK /\
   healthOf (ScenarioC.frames 7) 0%nat = Some 40).
Proof.
  split.
  - intros s r e Hr He Hst.
    destruct (resolveStates_engaged s r e Hr He Hst) as (e' & He' & _ & Hres).
    exists e'. rewrite updateEntityState_heap. split; [exact He'|].
    assert (Hkb : state e' = KNOCK_BACK <-> ladder s e = true).
    { unfold engagedResolved in Hres. destruct (ladder s e).
      - destruct Hres; split; auto.
      - split; [destruct Hres; congruence|discriminate]. }
    split; [rewrite Hkb; apply ladder_iff|].
    split.
    + intros H. apply Hkb in H. unfold engagedResolved in Hres.
      rewrite H in Hres. apply Hres.
    + rewrite Hkb. apply crossesThreashold_first.
  - split.
    + intros n Hn.
      do 7 (destruct n as [|n]; [vm_compute; discriminate|]). lia.
    + repeat split; vm_compute; reflexivity.
Qed.

(** C1, as the specification states its Scenario C, fails: the frame on
    which the entity goes from [ENGAGED] to [KNOCK_BACK] does not take its
    health from 55 to 45 (the health is 50 before it and 40 after). *)
Lemma C1_scenario_C_is_not_55_to_45 :
  ~ (forall n,
       stateOf (ScenarioC.frames n) 0%nat = Some ENGAGED ->
       stateOf (ScenarioC.frames (S n)) 0%nat = Some KNOCK_BACK ->
       healthOf (ScenarioC.frames n) 0%nat = Some 55 /\
       healthOf (ScenarioC.frames (S n)) 0%nat = Some 45).
Proof.
  intros H. destruct (H 6%nat) as [H55 _]; [vm_compute; reflexivity..|].
  vm_compute in H55. discriminate.
Qed.

(** The general part of C1 at the frame of Scenario C on which the health
    goes from 50 to 40. *)
Lemma C1_witness :
  exists e',
    heap (updateEntityState (parametersUpdated (ScenarioC.frames 6))) !! 0%nat
      = Some e' /\
    state e' = KNOCK_BACK /\ engagedEntity e' = None.
Proof.
  destruct (proj1 C1_knock_back_on_threshold_crossing
              (parametersUpdated (ScenarioC.frames 6)) 0%nat
              (mkUnitEntity 0 1 true ENGAGED 40 100 10 0 (Some 1%nat) 2))
    as (e' & He' & Hiff & Hnone & _).
  - vm_compute. auto.
  - vm_compute. reflexivity.
  - reflexivity.
  - exists e'. split; [exact He'|].
    assert (Hkb : state e' = KNOCK_BACK).
    { apply Hiff. exists (Double.literal 1 2). split; [vm_compute; auto|].
      split; vm_compute; reflexivity. }
    split; [exact Hkb|exact (Hnone Hkb)].
Defined.

(** C2 (spawn atomicity).  A player request that [updateSpawnRequest]
    processes, at whatever position of the queue, either succeeds: the
    master is present, its cost fits the running counter, the cost is
    subtracted from the counter once, and one entity is created, behind the
    fresh reference [nextEntityId], with that number as [id], state [IDLE]
    and [currentHealth = maxHealth] of the master; or it fails, because the
    master is missing or the counter is short, and then neither the counter
    nor the instance changes.  What [updateSpawnRequest] returns is what its
    loop has made: the entities are those of the loop's last instance, the
    available cost is the loop's last counter, clamped to the cap, and the
    queue is empty.  The same holds of the requests [update()] processes,
    which are the pending requests followed by those of the current wave:
    the entity of an accepted player request is in the live collection when
    [update()] returns, with its reference as [id], the requested unit
    type, on the player's side, at full health, [IDLE] or already
    [ENGAGED]; [update()] returns no entity the loop has not left, with the
    loop's next reference and the loop's last counter, clamped, as
    available cost; and its queue is empty, so no request is carried over
    to a later frame. *)
Theorem C2_spawn_atomic :
  (forall (tmpCost : Z) (this : BattleLogic) (unitId0 : Z),
     wellFormed this ->
     let result := spawnOne (tmpCost, this) (unitId0, true) in
     spawnSucceeds tmpCost this unitId0 result \/
     spawnFails tmpCost this unitId0 result) /\
  (forall (this : BattleLogic) (k : nat) (unitId0 : Z),
     wellFormed this ->
     spawnRequestedUnitUnitIds this !! k = Some (unitId0, true) ->
     let before := spawnLoopAt this k in
     let after := spawnLoopAt this (S k) in
     spawnSucceeds (fst before) (snd before) unitId0 after \/
     spawnFails (fst before) (snd before) unitId0 after) /\
  (forall this,
     let final :=
       spawnLoopAt this (length (spawnRequestedUnitUnitIds this)) in
     final = fold_left spawnOne (spawnRequestedUnitUnitIds this)
               (availableCost this, this) /\
     entitiesOf (updateSpawnRequest this) = entitiesOf (snd final) /\
     unitMasterCache (updateSpawnRequest this) = unitMasterCache this /\
     (spawnRequestedUnitUnitIds this <> [] ->
      availableCost (updateSpawnRequest this)
      = if fst final >? maxAvailableCost (config this)
        then maxAvailableCost (config this) else fst final) /\
     (spawnRequestedUnitUnitIds this = [] ->
      updateSpawnRequest this = this) /\
     spawnRequestedUnitUnitIds (updateSpawnRequest this) = []) /\
  (forall (this : BattleLogic) (k : nat) (unitId0 : Z),
     wellFormed this ->
     let s1 := wavesRequested this in
     spawnRequestedUnitUnitIds s1 !! k = Some (unitId0, true) ->
     let before := spawnLoopAt s1 k in
     let after := spawnLoopAt s1 (S k) in
     (spawnSucceeds (fst before) (snd before) unitId0 after \/
      spawnFails (fst before) (snd before) unitId0 after) /\
     (spawnSucceeds (fst before) (snd before) unitId0 after ->
      exists master e',
        unitMasterCache this !! unitId0 = Some master /\
        In (nextEntityId (snd before)) (unitEntities (update this)) /\
        heap (update this) !! nextEntityId (snd before) = Some e' /\
        id e' = nextEntityId (snd before) /\ unitId e' = unitId0 /\
        isPlayer e' = true /\
        currentHealth e' = UnitMaster.maxHealth master /\
        maxHealth e' = UnitMaster.maxHealth master /\
        (state e' = IDLE \/ state e' = ENGAGED))) /\
  (forall this,
     let s1 := wavesRequested this in
     let final := spawnLoopAt s1 (length (spawnRequestedUnitUnitIds s1)) in
     spawnRequestedUnitUnitIds s1
     = spawnRequestedUnitUnitIds this ++ aiRequests (currentWave this) /\
     nextEntityId (update this) = nextEntityId (snd final) /\
     (forall r, In r (unitEntities (update this)) ->
                In r (unitEntities (snd final))) /\
     (spawnRequestedUnitUnitIds s1 <> [] ->
      availableCost (update this)
      = if fst final >? maxAvailableCost (config this)
        then maxAvailableCost (config this) else fst final) /\
     spawnRequestedUnitUnitIds (update this) = []).
Proof.
  split; [exact spawnOne_atomic|].
  split; [exact spawnLoopAt_atomic|].
  split.
  { intros this final. subst final.
    split; [apply spawnLoopAt_end|].
    split; [apply updateSpawnRequest_entitiesOf|].
    split; [apply updateSpawnRequest_masters|].
    split; [apply updateSpawnRequest_availableCost|].
    split; [|apply updateSpawnRequest_queue].
    intros Hq. unfold updateSpawnRequest. rewrite Hq. reflexivity. }
  split.
  { intros this k unitId0 Hwf s1 Hk before after.
    pose proof (wellFormed_wavesRequested this Hwf) as Hwf1.
    split; [exact (spawnLoopAt_atomic s1 k unitId0 Hwf1 Hk)|].
    intros (master & entity & Hm & _ & _ & _ & Hnext & Harr & _ & _ & Hheap
            & Hid & Hu & Hp & Hst & Hh & Hmh & _ & Hwfa).
    destruct (created_survives this k entity Hwf Hwfa Hnext Harr Hheap Hst)
      as (Hin & e' & He' & Hid' & Hu' & Hp' & Hh' & Hmh' & Hst').
    exists master, e'.
    split.
    { rewrite <- Hm. unfold before, spawnLoopAt.
      rewrite spawnLoop_masters.
      pose proof (wavesRequested_scheduleOf this) as Hs.
      unfold scheduleOf in Hs. fold s1 in Hs. congruence. }
    split; [exact Hin|]. split; [exact He'|].
    repeat (split; [congruence|]). exact Hst'. }
  intros this s1 final.
  assert (Hent : entitiesOf (spawnsResolved this) = entitiesOf (snd final))
    by apply (updateSpawnRequest_entitiesOf s1).
  destruct (entitiesOf_inv _ _ Hent) as (Hn & HL & _).
  split; [apply wavesRequested_queue|].
  split; [rewrite update_nextEntityId; exact Hn|].
  split.
  { intros r Hr. rewrite update_unitEntities in Hr. apply filter_In in Hr.
    rewrite <- HL. exact (proj1 Hr). }
  split; [|apply update_queue].
  intros Hq.
  rewrite (proj1 (costView_inv _ _ (update_costView this))).
  rewrite <- (wavesRequested_config this).
  exact (updateSpawnRequest_availableCost s1 Hq).
Qed.

(** C2 in Scenario C: the player request for unit 1 that the first
    [update()] processes. *)
Lemma C2_witness :
  let this := run ScenarioC.calls (newBattleLogic ScenarioC.cfg) in
  let s1 := wavesRequested this in
  let before := spawnLoopAt s1 0 in
  let after := spawnLoopAt s1 1 in
  (spawnSucceeds (fst before) (snd before) 1 after \/
   spawnFails (fst before) (snd before) 1 after) /\
  (spawnSucceeds (fst before) (snd before) 1 after ->
   exists master e',
     unitMasterCache this !! 1 = Some master /\
     In (nextEntityId (snd before)) (unitEntities (update this)) /\
     heap (update this) !! nextEntityId (snd before) = Some e' /\
     id e' = nextEntityId (snd before) /\ unitId e' = 1 /\
     isPlayer e' = true /\
     currentHealth e' = UnitMaster.maxHealth master /\
     maxHealth e' = UnitMaster.maxHealth master /\
     (state e' = IDLE \/ state e' = ENGAGED)).
Proof.
  apply (proj1 (proj2 (proj2 (proj2 C2_spawn_atomic)))
           (run ScenarioC.calls (newBattleLogic ScenarioC.cfg)) 0%nat 1).
  - apply wellFormed_run, wellFormed_new.
  - vm_compute. reflexivity.
Defined.

(** C3 (cost clamp), as amended.  In every run of [init], [requestSpawn]
    and [update] calls in which [costRecoveryPerFrame], [maxAvailableCost]
    and every unit master's cost are non-negative, [availableCost] is never
    negative, every cost notification carries a cost between zero and the
    cap it carries, and after every [update()] [availableCost] is at most
    [maxAvailableCost].  (The proof does not use the hypothesis on the unit
    masters' costs: a deduction is made only when the running counter stays
    at or above zero, whatever the cost.) *)
Theorem C3_cost_within_bounds
    (defaultConfig : BattleLogicConfig) (calls : list Call) :
  0 <= costRecoveryPerFrame defaultConfig ->
  0 <= maxAvailableCost defaultConfig ->
  Forall callNonNegative calls ->
  Forall callCapNonNegative calls ->
  let s := run calls (newBattleLogic defaultConfig) in
  0 <= availableCost s /\
  Forall noteOk (costNotes (events s)) /\
  0 <= availableCost (update s) <= maxAvailableCost (config (update s)).
Proof.
  intros Hrec Hmax Hnn Hcap s.
  assert (Hinv : costInv s).
  { unfold s, run.
    apply (fold_left_keeps call costInv).
    - intros s' c Hc (Hcfg & H0 & Hev).
      pose proof (proj1 (List.Forall_forall _ _) Hnn c Hc) as Hc1.
      pose proof (proj1 (List.Forall_forall _ _) Hcap c Hc) as Hc2.
      destruct c as [params|u p|]; simpl.
      + destruct (init_costView params s') as (Ha & He & Hcf).
        unfold costInv. rewrite Ha, He, Hcf.
        split; [|auto]. simpl in Hc1, Hc2. destruct Hc1 as [_ Hc1].
        destruct (p_config params) as [cfg|]; [|exact Hcfg].
        split; [apply Hc1|apply Hc2]; reflexivity.
      + unfold costInv; simpl; auto.
      + apply update_cost. unfold costInv; auto.
    - unfold costInv, configOk; simpl. repeat split; try assumption; try lia.
      constructor. }
  destruct (update_cost s Hinv) as [(_ & H0' & _) Hle].
  destruct Hinv as (_ & H0 & Hev).
  split; [exact H0|]. split; [exact Hev|]. split; [exact H0'|exact Hle].
Qed.

(** C3 as the specification states it fails: with non-negative recovery and
    unit costs but a negative cap, the first [update()] leaves a negative
    [availableCost]. *)
Lemma C3_negative_cap_gives_negative_cost :
  ~ (forall (defaultConfig : BattleLogicConfig) (calls : list Call),
       0 <= costRecoveryPerFrame defaultConfig ->
       Forall callNonNegative calls ->
       0 <= availableCost (update (run calls (newBattleLogic defaultConfig)))).
Proof.
  intros H.
  specialize (H ScenarioNegativeCap.defaultConfig ScenarioNegativeCap.calls).
  assert (H1 : 0 <= costRecoveryPerFrame ScenarioNegativeCap.defaultConfig)
    by (simpl; lia).
  assert (H2 : Forall callNonNegative ScenarioNegativeCap.calls).
  { repeat constructor. simpl. intros cfg [= <-]. simpl. lia. }
  specialize (H H1 H2). vm_compute in H. apply H. reflexivity.
Qed.

(** C3 in Scenario A: after five frames the cost is within the bounds. *)
Lemma C3_witness :
  0 <= availableCost (run ScenarioA.calls (newBattleLogic ScenarioA.cfg)) /\
  Forall noteOk
    (costNotes (events (run ScenarioA.calls (newBattleLogic ScenarioA.cfg)))) /\
  0 <= availableCost (update (run ScenarioA.calls (newBattleLogic ScenarioA.cfg)))
    <= maxAvailableCost
         (config (update (run ScenarioA.calls (newBattleLogic ScenarioA.cfg)))).
Proof.
  apply (C3_cost_within_bounds ScenarioA.cfg ScenarioA.calls).
  - simpl. lia.
  - simpl. lia.
  - repeat constructor. simpl. intros cfg [= <-]. simpl. lia.
  - repeat constructor. simpl. intros cfg [= <-]. simpl. lia.
Defined.

(** C4 (grouped state resolution), as amended.  The state resolution runs
    three loops over the live collection in the fixed order KNOCK_BACK,
    ENGAGED, IDLE.  Each loop selects an entity by the state the entity has
    when the loop reaches it, not by the state it had when the resolution
    started: what a loop does to the entity at a position of the array is
    what its iteration there does to the instance left by the iterations
    before it.  An entity that is [IDLE] when the resolution starts reaches
    the third loop untouched; and an entity that is [IDLE] after the first
    two loops, whatever its state was when the resolution started, is given
    the IDLE resolution (target scan and engagement) by the third loop of
    the same frame. *)
Theorem C4_groups_by_current_state :
  (forall s,
     resolveStates s =
       resolveGroup IDLE updateUnitIdleState
         (resolveGroup ENGAGED updateUnitEngagedState
            (resolveGroup KNOCK_BACK updateUnitKnockBackState s))) /\
  (forall st resolve s pre r post,
     unitEntities s = pre ++ r :: post -> List.NoDup (unitEntities s) ->
     let s_r := fold_left (resolveOne st resolve) pre s in
     heap s_r !! r = heap s !! r /\
     heap (resolveGroup st resolve s) !! r
     = heap (resolveOne st resolve s_r r) !! r) /\
  (forall s r e,
     heap s !! r = Some e -> state e = IDLE ->
     heap (resolveGroup ENGAGED updateUnitEngagedState
             (resolveGroup KNOCK_BACK updateUnitKnockBackState s)) !! r = Some e) /\
  (forall s pre r post e2,
     unitEntities s = pre ++ r :: post -> List.NoDup (unitEntities s) ->
     let s2 := resolveGroup ENGAGED updateUnitEngagedState
                 (resolveGroup KNOCK_BACK updateUnitKnockBackState s) in
     heap s2 !! r = Some e2 -> state e2 = IDLE ->
     heap (resolveStates s) !! r
     = Some (updateUnitIdleState
               (fold_left (resolveOne IDLE updateUnitIdleState) pre s2) e2)).
Proof.
  split; [reflexivity|]. split; [exact resolveGroup_at|]. split.
  - intros s r e He Hst.
    apply resolveGroup_untouched; [|congruence].
    apply resolveGroup_untouched; [exact He|congruence].
  - intros s pre r post e2 HL Hnd s2 He2 Hst.
    assert (HL2 : unitEntities s2 = unitEntities s).
    { unfold s2.
      rewrite (sameSkeleton_unitEntities _ _ (resolveGroup_skeleton _ _ _)).
      apply (sameSkeleton_unitEntities _ _ (resolveGroup_skeleton _ _ _)). }
    destruct (resolveGroup_at IDLE updateUnitIdleState s2 pre r post) as [H1 H2];
      [congruence|congruence|].
    unfold resolveStates. fold s2. rewrite H2.
    apply resolveOne_hit; [congruence|exact Hst].
Qed.

(** C4 as the specification states it fails.  In Scenario C, at the frame on
    which the knock-back of entity [0] ends, the entity is [KNOCK_BACK] when
    the state resolution starts, the first loop makes it [IDLE], and the
    third loop of the same resolution engages it: it ends the resolution
    [ENGAGED] with entity [1], not as the first two loops left it. *)
Lemma C4_idle_resolution_in_the_same_frame :
  ~ (forall s r e,
       In r (unitEntities s) -> heap s !! r = Some e -> state e <> IDLE ->
       heap (resolveStates s) !! r
       = heap (resolveGroup ENGAGED updateUnitEngagedState
                 (resolveGroup KNOCK_BACK updateUnitKnockBackState s)) !! r).
Proof.
  intros H.
  specialize (H (parametersUpdated (ScenarioC.frames 9)) 0%nat
                (mkUnitEntity 0 1 true KNOCK_BACK 40 100 0 3 None (-1))).
  assert (Hin : In 0%nat (unitEntities (parametersUpdated (ScenarioC.frames 9))))
    by (vm_compute; auto).
  assert (He : heap (parametersUpdated (ScenarioC.frames 9)) !! 0%nat
               = Some (mkUnitEntity 0 1 true KNOCK_BACK 40 100 0 3 None (-1)))
    by (vm_compute; reflexivity).
  specialize (H Hin He ltac:(discriminate)).
  apply (f_equal (fmap (M := option) state)) in H.
  vm_compute in H. discriminate H.
Qed.

(** C4 in Scenario C, at the frame on which the knock-back of entity [0]
    ends: the entity is [IDLE] after the first two loops, and the third loop
    engages it with entity [1]. *)
Lemma C4_witness :
  stateOf (resolveStates (parametersUpdated (ScenarioC.frames 9))) 0%nat
    = Some ENGAGED /\
  engagedOf (resolveStates (parametersUpdated (ScenarioC.frames 9))) 0%nat
    = Some (Some 1%nat).
Proof.
  pose proof (proj2 (proj2 (proj2 C4_groups_by_current_state))
                (parametersUpdated (ScenarioC.frames 9)) [] 0%nat [1%nat]
                (mkUnitEntity 0 1 true IDLE 40 100 0 3 None (-1))) as H.
  unfold stateOf, engagedOf. rewrite H.
  - vm_compute. auto.
  - vm_compute. reflexivity.
  - solve_NoDup.
  - vm_compute. reflexivity.
  - reflexivity.
Defined.




(** C6 (KNOCK_BACK resolution).  For an entity of the live collection that
    is [KNOCK_BACK] and whose unit master is present: the parameter update
    adds one to its [currentKnockBackFrameCount] and leaves it [KNOCK_BACK];
    and the KNOCK_BACK resolution clears its [engagedEntity], leaves it in
    [KNOCK_BACK] when [currentKnockBackFrameCount < knockBackFrames], and
    otherwise makes it [DEAD] when [currentHealth < 1] and [IDLE] when
    [currentHealth >= 1].  The two later loops of the same state resolution
    leave a [KNOCK_BACK] or [DEAD] outcome as it is; an [IDLE] outcome stays
    [IDLE] or becomes [ENGAGED]. *)
Theorem C6_knock_back_resolution :
  (forall (s : BattleLogic) (r : Ref) (e : UnitEntity) (master : UnitMaster.t),
     List.NoDup (unitEntities s) -> In r (unitEntities s) ->
     heap s !! r = Some e -> state e = KNOCK_BACK ->
     unitMasterCache s !! unitId e = Some master ->
     exists e', heap (updateEntityParameter s) !! r = Some e' /\
       currentKnockBackFrameCount e' = currentKnockBackFrameCount e + 1 /\
       state e' = KNOCK_BACK) /\
  (forall (s : BattleLogic) (r : Ref) (e : UnitEntity) (master : UnitMaster.t),
     In r (unitEntities s) ->
     heap s !! r = Some e -> state e = KNOCK_BACK ->
     unitMasterCache s !! unitId e = Some master ->
     exists e1,
       heap (resolveGroup KNOCK_BACK updateUnitKnockBackState s) !! r = Some e1 /\
       engagedEntity e1 = None /\
       vitals e1 = vitals e /\
       (currentKnockBackFrameCount e < UnitMaster.knockBackFrames master ->
        state e1 = KNOCK_BACK) /\
       (UnitMaster.knockBackFrames master <= currentKnockBackFrameCount e ->
        currentHealth e < 1 -> state e1 = DEAD) /\
       (UnitMaster.knockBackFrames master <= currentKnockBackFrameCount e ->
        1 <= currentHealth e -> state e1 = IDLE) /\
       exists e', heap (updateEntityState s) !! r = Some e' /\
         (state e1 <> IDLE -> e' = e1) /\
         (state e1 = IDLE -> state e' = IDLE \/ state e' = ENGAGED)).
Proof.
  split.
  - intros s r e master Hnd Hr He Hst Hm.
    destruct (updateEntityParameter_knockBack s r e master Hnd Hr He Hst Hm)
      as (e' & He' & Hc & Hsh).
    exists e'. split; [exact He'|]. split; [exact Hc|].
    unfold shape in Hsh. congruence.
  - intros s r e master Hr He Hst Hm.
    pose proof (resolveKnockBack_resolved s r e Hr He Hst) as H1.
    set (e1 := updateUnitKnockBackState s e) in *.
    pose proof (updateUnitKnockBackState_state s e) as Hs1.
    fold e1 in Hs1. rewrite Hm, Hst in Hs1.
    exists e1. split; [exact H1|].
    split; [apply updateUnitKnockBackState_engaged|].
    split; [apply updateUnitKnockBackState_vitals|].
    split; [|split; [|split]].
    + intros Hlt. apply Z.ltb_lt in Hlt. rewrite Hlt in Hs1. exact Hs1.
    + intros Hge Hh. apply Z.ltb_ge in Hge. apply Z.ltb_lt in Hh.
      rewrite Hge, Hh in Hs1. exact Hs1.
    + intros Hge Hh. apply Z.ltb_ge in Hge. apply Z.ltb_ge in Hh.
      rewrite Hge, Hh in Hs1. exact Hs1.
    + assert (Hne : state e1 <> ENGAGED).
      { rewrite Hs1. repeat case_match; discriminate. }
      pose proof (resolveGroup_untouched ENGAGED updateUnitEngagedState _ r e1 H1 Hne)
        as H2.
      destruct (resolveIdle_cases _ r e1 H2) as (e' & He' & _ & Hc).
      exists e'. rewrite updateEntityState_heap. split; [exact He'|].
      split.
      * intros Hni. destruct Hc as [->|[Hi _]]; [reflexivity|contradiction].
      * intros Hi. destruct Hc as [->|[_ Hen]]; auto.
Qed.

(** C6 in Scenario C: at the frame after the knock-back began, the count of
    entity [0] goes from 0 to 1 and the entity stays [KNOCK_BACK] (1 < 3). *)
Lemma C6_witness :
  (exists e', heap (updateEntityParameter (ScenarioC.frames 7)) !! 0%nat = Some e' /\
     currentKnockBackFrameCount e' = 0 + 1 /\ state e' = KNOCK_BACK) /\
  (exists e1,
     heap (resolveGroup KNOCK_BACK updateUnitKnockBackState
             (parametersUpdated (ScenarioC.frames 7))) !! 0%nat = Some e1 /\
     engagedEntity e1 = None /\ state e1 = KNOCK_BACK).
Proof.
  split.
  - apply (proj1 C6_knock_back_resolution (ScenarioC.frames 7) 0%nat
             (mkUnitEntity 0 1 true KNOCK_BACK 40 100 0 0 None 2) ScenarioC.master).
    + solve_NoDup.
    + vm_compute. auto.
    + vm_compute. reflexivity.
    + reflexivity.
    + vm_compute. reflexivity.
  - destruct (proj2 C6_knock_back_resolution
                (parametersUpdated (ScenarioC.frames 7)) 0%nat
                (mkUnitEntity 0 1 true KNOCK_BACK 40 100 0 1 None 1)
                ScenarioC.master)
      as (e1 & He1 & Hnone & _ & Hkb & _).
    + vm_compute. auto.
    + vm_compute. reflexivity.
    + reflexivity.
    + vm_compute. reflexivity.
    + exists e1. split; [exact He1|]. split; [exact Hnone|].
      apply Hkb. vm_compute. reflexivity.
Defined.

(** C7 (DEAD is terminal): after every [update()] no entity of the live
    collection is [DEAD]; and an entity that was in the live collection
    before an [update()] and is not in it afterwards is in the live
    collection after no later sequence of calls. *)
Theorem C7_dead_is_terminal
    (defaultConfig : BattleLogicConfig) (calls : list Call) :
  let before := run calls (newBattleLogic defaultConfig) in
  let s := update before in
  (forall r e, In r (unitEntities s) -> heap s !! r = Some e -> state e <> DEAD) /\
  (forall r, In r (unitEntities before) -> ~ In r (unitEntities s) ->
     forall later, ~ In r (unitEntities (run later s))).
Proof.
  intros before s.
  assert (Hwf0 : wellFormed before) by apply wellFormed_run, wellFormed_new.
  assert (Hwf : wellFormed s) by apply wellFormed_update, Hwf0.
  split; [apply (wf_alive s Hwf)|].
  intros r Hr Hnot later.
  assert (Hgone : gone s r).
  { split; [|exact Hnot].
    assert (r < nextEntityId before)%nat
      by (apply (wf_below _ Hwf0), (wf_present _ Hwf0), Hr).
    destruct (extends_spawnsResolved before) as (Hn & _).
    subst s. rewrite update_nextEntityId. lia. }
  apply (gone_run later s r Hgone).
Qed.

(** C7 in the kill scenario: entity [1] is in the live collection before the
    third frame, not after it, and not after a later request and frame. *)
Lemma C7_witness :
  ~ In 1%nat
      (unitEntities
         (run [CallRequestSpawn 2 false; CallUpdate]
            (update (run ScenarioKill.calls (newBattleLogic ScenarioKill.cfg))))).
Proof.
  apply (proj2 (C7_dead_is_terminal ScenarioKill.cfg ScenarioKill.calls) 1%nat).
  - vm_compute. auto.
  - vm_compute. intros [H|[]]. discriminate H.
Defined.

(** C8 (wave spawns).  [updateAISpawn] appends to the queue, in schedule
    order, one AI-side request per unit-type id the schedule lists under the
    current frame counter, and nothing when the schedule has no entry for
    it.  The loop of [updateSpawnRequest] passes an AI-side request through
    no cost gate: it leaves the running counter alone and creates one entity
    per requested id whose master is present, in order, at consecutive fresh
    references.  These entities are created by the same [update()], after
    the entities of the requests queued before it, and are in the live
    collection, on the AI side and with the requested unit type, when it
    returns.  In Scenario D the live collection is empty after each of the
    frames 0, 1 and 2 and holds exactly one entity, of type 7 and on the AI
    side, after frame 3. *)
Theorem C8_wave_spawns :
  (forall this,
     spawnRequestedUnitUnitIds (updateAISpawn this)
     = spawnRequestedUnitUnitIds this ++ aiRequests (currentWave this)) /\
  (forall this waves,
     aiWaveCache this !! passedFrameCount this = Some waves ->
     currentWave this = waves) /\
  (forall this,
     aiWaveCache this !! passedFrameCount this = None ->
     spawnRequestedUnitUnitIds (updateAISpawn this)
     = spawnRequestedUnitUnitIds this) /\
  (forall ids tmpCost this,
     let result := fold_left spawnOne (aiRequests ids) (tmpCost, this) in
     let accepted_ids := List.filter (hasMaster this) ids in
     fst result = tmpCost /\
     nextEntityId (snd result) = (nextEntityId this + length accepted_ids)%nat /\
     unitEntities (snd result)
     = unitEntities this ++ seq (nextEntityId this) (length accepted_ids) /\
     forall (k : nat) (u : Z), accepted_ids !! k = Some u ->
       exists master,
         unitMasterCache this !! u = Some master /\
         heap (snd result) !! (nextEntityId this + k)%nat
         = Some (spawnedEntity (nextEntityId this + k) u false master)) /\
  (forall this (k : nat) (u : Z),
     let before :=
       snd (fold_left spawnOne (spawnRequestedUnitUnitIds this)
              (availableCost (wavesRequested this), wavesRequested this)) in
     let accepted_ids := List.filter (hasMaster this) (currentWave this) in
     unitEntities (spawnsResolved this)
     = unitEntities before ++ seq (nextEntityId before) (length accepted_ids) /\
     (accepted_ids !! k = Some u ->
      In (nextEntityId before + k)%nat (unitEntities (update this)) /\
      exists e, heap (update this) !! (nextEntityId before + k)%nat = Some e /\
        unitId e = u /\ isPlayer e = false /\
        (state e = IDLE \/ state e = ENGAGED))) /\
  ((forall n, (n <= 3)%nat -> unitEntities (ScenarioD.frames n) = []) /\
   unitEntities (ScenarioD.frames 4) = [0%nat] /\
   unitId <$> heap (ScenarioD.frames 4) !! 0%nat = Some 7 /\
   isPlayer <$> heap (ScenarioD.frames 4) !! 0%nat = Some false).
Proof.
  split; [exact updateAISpawn_queue|].
  split; [intros this waves H; unfold currentWave; rewrite H; reflexivity|].
  split.
  { intros this H. rewrite updateAISpawn_queue. unfold currentWave. rewrite H.
    apply app_nil_r. }
  split; [exact spawnLoop_ai|]. split.
  - intros this k u before accepted_ids.
    destruct (spawnsResolved_wave this) as [HL Hh].
    fold before accepted_ids in HL, Hh.
    split; [exact HL|]. intros Hk.
    destruct (Hh k u Hk) as (master & Hm & He).
    assert (Hin : In (nextEntityId before + k)%nat (unitEntities (spawnsResolved this))).
    { rewrite HL. apply in_or_app. right. apply in_seq.
      apply lookup_lt_Some in Hk. lia. }
    destruct (update_keeps_idle this _ _ Hin He eq_refl)
      as (Hin' & e' & He' & Hu & Hp & Hst).
    split; [exact Hin'|]. exists e'. split; [exact He'|].
    split; [exact Hu|]. split; [exact Hp|exact Hst].
  - split.
    + intros n Hn.
      do 4 (destruct n as [|n]; [vm_compute; reflexivity|]). lia.
    + repeat split; vm_compute; reflexivity.
Qed.

(** C8 in Scenario D at frame 3: the entity of the wave is in the live
    collection after the [update()]. *)
Lemma C8_witness :
  In (nextEntityId
        (snd (fold_left spawnOne (spawnRequestedUnitUnitIds (ScenarioD.frames 3))
                (availableCost (wavesRequested (ScenarioD.frames 3)),
                 wavesRequested (ScenarioD.frames 3)))) + 0)%nat
     (unitEntities (update (ScenarioD.frames 3))).
Proof.
  apply (proj2 (proj1 (proj2 (proj2 (proj2 (proj2 C8_wave_spawns))))
                  (ScenarioD.frames 3) 0%nat 7)).
  vm_compute. reflexivity.
Defined.

(** C9 (engaged entities are live and on the other side): after every
    [update()] of any run of [init], [requestSpawn] and [update] calls on a
    fresh instance, an entity of the live collection whose [engagedEntity] is
    not null refers to an entity that is itself in the live collection and
    whose [isPlayer] flag differs from the holder's. *)
Theorem C9_engaged_target_live_and_opposing
    (defaultConfig : BattleLogicConfig) (calls : list Call)
    (r t : Ref) (e : UnitEntity) :
  let s := update (run calls (newBattleLogic defaultConfig)) in
  In r (unitEntities s) ->
  heap s !! r = Some e ->
  engagedEntity e = Some t ->
  In t (unitEntities s) /\
  exists target, heap s !! t = Some target /\ isPlayer target <> isPlayer e.
Proof.
  intros s Hr He Ht.
  assert (Hwf : wellFormed s).
  { apply wellFormed_update, wellFormed_run, wellFormed_new. }
  destruct (wf_engaged s Hwf r e t Hr He Ht) as (_ & Hin & Htg).
  split; [exact Hin|exact Htg].
Qed.

(** C9 in Scenario C after the first frame: entity [0] engages entity [1],
    which is live and on the other side. *)
Lemma C9_witness :
  In 1%nat (unitEntities (update ScenarioC.start)) /\
  exists target, heap (update ScenarioC.start) !! 1%nat = Some target /\
                 isPlayer target <> true.
Proof.
  apply (C9_engaged_target_live_and_opposing ScenarioC.cfg ScenarioC.calls
           0%nat 1%nat (mkUnitEntity 0 1 true ENGAGED 100 100 0 0 (Some 1%nat) 2)).
  - vm_compute. auto.
  - vm_compute. reflexivity.
  - reflexivity.
Defined.

(** C10 (no death outside the KNOCK_BACK resolution).  [DEAD] is assigned
    by the KNOCK_BACK resolution only.  In any run, an entity of the live
    collection that is [IDLE] or [ENGAGED] when [update()] is called,
    whatever its health, keeps its state through the parameter update, is
    not [DEAD] after the state resolution, and is still in the live
    collection after the [update()]; unless this frame's damage crosses a
    knock-back threshold it is then [IDLE] or [ENGAGED], the states in which
    an entity walks, engages and deals damage. *)
Theorem C10_no_death_outside_knock_back :
  (forall s r e e',
     heap s !! r = Some e -> heap (resolveStates s) !! r = Some e' ->
     state e' = DEAD ->
     state e = DEAD \/ (state e = KNOCK_BACK /\ currentHealth e < 1)) /\
  (forall (defaultConfig : BattleLogicConfig) (calls : list Call)
          (r : Ref) (e : UnitEntity),
     let s := run calls (newBattleLogic defaultConfig) in
     In r (unitEntities s) -> heap s !! r = Some e ->
     state e = IDLE \/ state e = ENGAGED ->
     exists e4 e',
       heap (parametersUpdated s) !! r = Some e4 /\ state e4 = state e /\
       In r (unitEntities (update s)) /\
       heap (update s) !! r = Some e' /\
       state e' <> DEAD /\
       currentHealth e' = currentHealth e4 /\
       (ladder (parametersUpdated s) e4 = false ->
        state e' = IDLE \/ state e' = ENGAGED) /\
       (state e = IDLE -> state e' = IDLE \/ state e' = ENGAGED)).
Proof.
  split; [exact resolveStates_dead_origin|].
  intros defaultConfig calls r e s Hr He Hst.
  assert (Hwf : wellFormed s) by apply wellFormed_run, wellFormed_new.
  destruct (extends_spawnsResolved s) as (_ & (added & HL3 & _) & Hh3).
  assert (Hr3 : In r (unitEntities (spawnsResolved s)))
    by (rewrite HL3; apply in_or_app; auto).
  assert (He3 : heap (spawnsResolved s) !! r = Some e).
  { rewrite Hh3; [exact He|]. apply (wf_below s Hwf). eauto. }
  destruct (heapAgree_lookup shape _ _ r e
              (updateEntityParameter_shape (spawnsResolved s)) He3)
    as (e4 & He4 & Hsh4).
  rewrite <- parametersUpdated_eq in He4.
  assert (Hst4 : state e4 = state e) by (unfold shape in Hsh4; congruence).
  assert (Hr4 : In r (unitEntities (parametersUpdated s))).
  { rewrite parametersUpdated_eq.
    rewrite (sameSkeleton_unitEntities _ _ (updateEntityParameter_skeleton _)).
    exact Hr3. }
  assert (H5 : exists e5,
             heap (updateEntityState (parametersUpdated s)) !! r = Some e5 /\
             currentHealth e5 = currentHealth e4 /\ state e5 <> DEAD /\
             (ladder (parametersUpdated s) e4 = false ->
              state e5 = IDLE \/ state e5 = ENGAGED) /\
             (state e = IDLE -> state e5 = IDLE \/ state e5 = ENGAGED)).
  { rewrite updateEntityState_heap.
    destruct Hst as [Hst|Hst]; rewrite Hst in Hst4.
    - destruct (resolveStates_idle _ r e4 He4 Hst4) as (e5 & He5 & Hv & Hc).
      exists e5. split; [exact He5|].
      split; [unfold vitals in Hv; congruence|].
      assert (Hs5 : state e5 = IDLE \/ state e5 = ENGAGED)
        by (destruct Hc as [->|Hc]; auto).
      split; [destruct Hs5; congruence|auto].
    - destruct (resolveStates_engaged _ r e4 Hr4 He4 Hst4) as (e5 & He5 & Hv & Hres).
      exists e5. split; [exact He5|].
      split; [unfold vitals in Hv; congruence|].
      unfold engagedResolved in Hres. split; [|split].
      + destruct (ladder (parametersUpdated s) e4); destruct Hres; congruence.
      + intros Hl. rewrite Hl in Hres. exact Hres.
      + intros Hi. congruence. }
  destruct H5 as (e5 & He5 & Hh5 & Hal5 & Hno5 & Hidle5).
  destruct (update_keeps s r e5 Hr3 He5 Hal5) as (Hin & e' & He' & Hset).
  assert (Hs' : state e' = state e5 /\ currentHealth e' = currentHealth e5).
  { unfold settled, shape in Hset. split; congruence. }
  destruct Hs' as [Hs' Hh'].
  exists e4, e'. rewrite Hs', Hh'.
  split; [exact He4|]. split; [exact Hst4|]. split; [exact Hin|].
  split; [exact He'|]. split; [exact Hal5|]. split; [exact Hh5|].
  split; [exact Hno5|exact Hidle5].
Qed.

(** C10 in the scenario without thresholds: entity [0] is [ENGAGED] with
    health 0 before the third frame; after it, it is in the live collection
    and not [DEAD]. *)
Lemma C10_witness :
  exists e4 e',
    heap (parametersUpdated ScenarioNoThreshold.afterTwoFrames) !! 0%nat
      = Some e4 /\
    state e4 = ENGAGED /\
    In 0%nat (unitEntities (update ScenarioNoThreshold.afterTwoFrames)) /\
    heap (update ScenarioNoThreshold.afterTwoFrames) !! 0%nat = Some e' /\
    state e' <> DEAD.
Proof.
  destruct (proj2 C10_no_death_outside_knock_back ScenarioNoThreshold.cfg
              ScenarioNoThreshold.calls 0%nat
              (mkUnitEntity 0 1 true ENGAGED 0 100 0 0 (Some 1%nat) 2))
    as (e4 & e' & H1 & H2 & H3 & H4 & H5 & _).
  - clear. vm_compute. auto.
  - clear. vm_compute. reflexivity.
  - right. reflexivity.
  - exists e4, e'.
    split; [exact H1|]. split; [exact H2|]. split; [exact H3|].
    split; [exact H4|exact H5].
Defined.

(** ** Further properties of the engine *)

(** *** Entity ids *)

(** The objects of the store are those behind the references allocated so
    far, and each carries its reference as its [id]. *)
Definition idsOk (s : BattleLogic) : Prop :=
  (forall r, (r < nextEntityId s)%nat -> is_Some (heap s !! r)) /\
  (forall r e, heap s !! r = Some e -> id e = r).

Lemma idsOk_agree {K : Type} (key : UnitEntity -> K) s s' :
  (forall e e', key e' = key e -> id e' = id e) ->
  nextEntityId s' = nextEntityId s ->
  heapAgree key (heap s) (heap s') ->
  idsOk s -> idsOk s'.
Proof.
  intros Hkey Hn Hh [Ha Hi]. split.
  - intros r Hr. rewrite Hn in Hr.
    apply (heapAgree_is_Some key _ _ r Hh). auto.
  - intros r e' He'.
    destruct (heapAgree_lookup_inv key _ _ _ _ Hh He') as (e & He & Hk).
    rewrite (Hkey e e' Hk). auto.
Qed.

Lemma idsOk_entitiesOf s s' : entitiesOf s' = entitiesOf s -> idsOk s -> idsOk s'.
Proof.
  intros H. destruct (entitiesOf_inv _ _ H) as (Hn & _ & Hh).
  unfold idsOk. rewrite Hn, Hh. auto.
Qed.

Lemma idsOk_accepted this u p m b : idsOk this -> idsOk (accepted this u p m b).
Proof.
  intros [Ha Hi]. split.
  - intros r Hr. rewrite accepted_nextEntityId in Hr. rewrite accepted_heap.
    destruct (decide (r = nextEntityId this)) as [->|Hne].
    + rewrite lookup_insert_eq. eauto.
    + rewrite lookup_insert_ne by congruence. apply Ha. lia.
  - intros r e. rewrite accepted_heap.
    destruct (decide (r = nextEntityId this)) as [->|Hne].
    + rewrite lookup_insert_eq. intros [= <-]. reflexivity.
    + rewrite lookup_insert_ne by congruence. apply Hi.
Qed.

Lemma idsOk_updateSpawnRequest s : idsOk s -> idsOk (updateSpawnRequest s).
Proof.
  intros H. unfold updateSpawnRequest.
  destruct (spawnRequestedUnitUnitIds s) as [|req q]; [exact H|].
  pose proof (fold_left_keeps spawnOne (fun acc => idsOk (snd acc)) (req :: q)) as HK.
  specialize (HK (fun acc r _ Hacc => ltac:(
    destruct acc as [c s']; rewrite spawnOne_eq;
    repeat case_match; simpl; try exact Hacc; apply idsOk_accepted; exact Hacc))
    (availableCost s, s) H).
  destruct (fold_left spawnOne (req :: q) (availableCost s, s)) as [tmpCost s'].
  simpl in HK. eapply idsOk_entitiesOf; [|exact HK].
  change (entitiesOf (updateAvailableCost tmpCost s') = entitiesOf s').
  apply updateAvailableCost_entitiesOf.
Qed.

Lemma idsOk_update s : idsOk s -> idsOk (update s).
Proof.
  intros H. rewrite update_eq.
  apply (idsOk_entitiesOf
           (updatePostProcess (updateEntityState (parametersUpdated s))));
    [apply with_passedFrameCount_entitiesOf|].
  apply (idsOk_agree shape (updateEntityState (parametersUpdated s)));
    [unfold shape; congruence|apply updatePostProcess_nextEntityId
    |apply updatePostProcess_shape|].
  apply (idsOk_agree vitals (parametersUpdated s));
    [unfold vitals; congruence
    |apply sameSkeleton_nextEntityId, updateEntityState_skeleton
    |rewrite updateEntityState_heap; apply resolveStates_vitals|].
  rewrite parametersUpdated_eq.
  apply (idsOk_agree shape (spawnsResolved s));
    [unfold shape; congruence
    |apply sameSkeleton_nextEntityId, updateEntityParameter_skeleton
    |apply updateEntityParameter_shape|].
  apply idsOk_updateSpawnRequest.
  eapply idsOk_entitiesOf; [apply updateAISpawn_entitiesOf|].
  eapply idsOk_entitiesOf; [apply updateAvailableCost_entitiesOf|].
  exact H.
Qed.

Lemma idsOk_run calls cfg : idsOk (run calls (newBattleLogic cfg)).
Proof.
  unfold run. apply (fold_left_keeps call idsOk).
  - intros s c _ H. destruct c; cbn [call].
    + eapply idsOk_entitiesOf; [apply init_entitiesOf|exact H].
    + exact H.
    + apply idsOk_update; exact H.
  - split; simpl; [lia|]. intros r e He. rewrite lookup_empty in He. discriminate.
Qed.

(** X1.  In every run the store holds exactly the objects behind the
    references below [nextEntityId]; each object carries its reference as
    its [id]; and no two positions of the live array hold entities with the
    same [id]. *)
Theorem X1_entity_ids_unique
    (defaultConfig : BattleLogicConfig) (calls : list Call) :
  let s := run calls (newBattleLogic defaultConfig) in
  (forall r, is_Some (heap s !! r) <-> (r < nextEntityId s)%nat) /\
  (forall r e, heap s !! r = Some e -> id e = r) /\
  (forall (i j : nat) r1 r2 e1 e2,
     unitEntities s !! i = Some r1 -> unitEntities s !! j = Some r2 ->
     heap s !! r1 = Some e1 -> heap s !! r2 = Some e2 ->
     id e1 = id e2 -> i = j).
Proof.
  intros s.
  assert (Hwf : wellFormed s) by apply wellFormed_run, wellFormed_new.
  destruct (idsOk_run calls defaultConfig) as [Ha Hi]. fold s in Ha, Hi.
  split; [|split; [exact Hi|]].
  - intros r. split; [apply (wf_below s Hwf)|apply Ha].
  - intros i j r1 r2 e1 e2 H1 H2 He1 He2 Hid.
    rewrite (Hi _ _ He1), (Hi _ _ He2) in Hid. subst r2.
    apply (NoDup_lookup (unitEntities s) i j r1);
      [apply NoDup_ListNoDup, (wf_nodup s Hwf)|exact H1|exact H2].
Qed.

(** X1 in Scenario C after the first frame. *)
Lemma X1_witness :
  id (mkUnitEntity 1 1 false ENGAGED 100 100 0 0 (Some 0%nat) 2) = 1%nat.
Proof.
  apply (proj1 (proj2 (X1_entity_ids_unique ScenarioC.cfg
                         (ScenarioC.calls ++ [CallUpdate]))) 1%nat).
  vm_compute. reflexivity.
Defined.

(** *** The damage of the frame *)

Lemma updatePostProcess_frameDamage s r e :
  In r (unitEntities (updatePostProcess s)) ->
  heap (updatePostProcess s) !! r = Some e ->
  currentFrameDamage e = 0.
Proof.
  unfold updatePostProcess.
  set (s0 := with_unitEntities (List.filter (isActive s) (unitEntities s)) s).
  set (step := fun this r0 => modifyEntity r0 (with_currentFrameDamage 0) this).
  intros Hr He.
  assert (HL : unitEntities (fold_left step (unitEntities s0) s0) = unitEntities s0).
  { apply sameSkeleton_unitEntities, fold_left_skeleton.
    intros; apply modifyEntity_skeleton. }
  rewrite HL in Hr.
  destruct (fold_left_each step (fun _ => True)
              (fun a s' => forall x, heap s' !! a = Some x -> currentFrameDamage x = 0)
              (unitEntities s0)) with (s := s0) as [_ HP]; auto.
  - intros s' a _ _ x. unfold step, modifyEntity. simpl.
    rewrite lookup_alter_eq. destruct (heap s' !! a); simpl; [|discriminate].
    intros [= <-]. reflexivity.
  - intros s' a b _ _ Hb x. unfold step, modifyEntity. simpl.
    destruct (decide (a = b)) as [->|Hne].
    + rewrite lookup_alter_eq. destruct (heap s' !! b); simpl; [|discriminate].
      intros [= <-]. reflexivity.
    + rewrite lookup_alter_ne by congruence. apply Hb.
  - exact (HP r Hr e He).
Qed.

Lemma frameDamage_run (defaultConfig : BattleLogicConfig) (calls : list Call)
    (r : Ref) (e : UnitEntity) :
  In r (unitEntities (run calls (newBattleLogic defaultConfig))) ->
  heap (run calls (newBattleLogic defaultConfig)) !! r = Some e ->
  currentFrameDamage e = 0.
Proof.
  revert r e. unfold run.
  apply (fold_left_keeps call
           (fun s => forall r e, In r (unitEntities s) -> heap s !! r = Some e ->
                                 currentFrameDamage e = 0)).
  - intros s c _ H r e. destruct c; cbn [call].
    + destruct (entitiesOf_inv _ _ (init_entitiesOf params s)) as (_ & -> & ->).
      apply H.
    + apply H.
    + rewrite update_eq, with_passedFrameCount_unitEntities,
        with_passedFrameCount_heap.
      apply updatePostProcess_frameDamage.
  - intros r e [].
Qed.

(** X2.  At every point between two calls of a run, every entity of the live
    collection has [currentFrameDamage = 0]: [update()] resets it for the
    entities it keeps, and entities are created with it at zero. *)
Theorem X2_frame_damage_is_reset
    (defaultConfig : BattleLogicConfig) (calls : list Call)
    (r : Ref) (e : UnitEntity) :
  let s := run calls (newBattleLogic defaultConfig) in
  In r (unitEntities s) -> heap s !! r = Some e -> currentFrameDamage e = 0.
Proof. intros s. apply frameDamage_run. Qed.

(** X2 in Scenario C after seven frames, the last of which dealt damage. *)
Lemma X2_witness :
  currentFrameDamage (mkUnitEntity 0 1 true KNOCK_BACK 40 100 0 0 None 2) = 0.
Proof.
  apply (X2_frame_damage_is_reset ScenarioC.cfg
           (ScenarioC.calls ++ [CallUpdate; CallUpdate; CallUpdate; CallUpdate;
                                CallUpdate; CallUpdate; CallUpdate]) 0%nat).
  - vm_compute. auto.
  - vm_compute. reflexivity.
Defined.

(** The health an object had before the damage of the frame. *)
Definition preDamageHealth (e : UnitEntity) : Z :=
  currentHealth e + currentFrameDamage e.

Lemma updateDamage_preDamageHealth r master s :
  heapAgree preDamageHealth (heap s) (heap (updateDamage r master s)).
Proof.
  unfold updateDamage.
  repeat case_match; try apply heapAgree_refl; rewrite ?notify_heap;
    simpl; (eapply heapAgree_insert; [eassumption|]);
    unfold preDamageHealth; simpl; lia.
Qed.

(** The fields [updateDistance] never writes. *)
Lemma heapAgree_weaken {K K' : Type} (key : UnitEntity -> K)
    (key' : UnitEntity -> K') h h' :
  (forall e e', key e' = key e -> key' e' = key' e) ->
  heapAgree key h h' -> heapAgree key' h h'.
Proof.
  intros Hk H r. specialize (H r).
  destruct (h !! r) as [e|], (h' !! r) as [e'|]; simpl in *; try discriminate;
    [|reflexivity].
  f_equal. apply Hk. congruence.
Qed.

Lemma updateEntityParameter_preDamageHealth s :
  heapAgree preDamageHealth (heap s) (heap (updateEntityParameter s)).
Proof.
  unfold updateEntityParameter. apply fold_left_heapAgree.
  intros s' r. unfold parameterOne. repeat case_match; try apply heapAgree_refl.
  eapply heapAgree_trans; [apply updateDamage_preDamageHealth|].
  apply (heapAgree_weaken unmoved); [|apply updateDistance_unmoved].
  unfold unmoved, preDamageHealth. intros e e' Hee. congruence.
Qed.

(** X3.  The parameter update keeps [currentHealth + currentFrameDamage] of
    every object; so, in a run, for an entity that is in the live collection
    when [update()] is called, the sum is, when the state resolution starts,
    the health the entity had at the call: the [oldHealth] of the threshold
    ladder is the health at the start of the frame. *)
Theorem X3_old_health_is_frame_start_health
    (defaultConfig : BattleLogicConfig) (calls : list Call)
    (r : Ref) (e : UnitEntity) :
  let s := run calls (newBattleLogic defaultConfig) in
  In r (unitEntities s) -> heap s !! r = Some e ->
  exists e4, heap (parametersUpdated s) !! r = Some e4 /\
    currentHealth e4 + currentFrameDamage e4 = currentHealth e /\
    maxHealth e4 = maxHealth e.
Proof.
  intros s Hr He.
  assert (Hwf : wellFormed s) by apply wellFormed_run, wellFormed_new.
  pose proof (frameDamage_run defaultConfig calls r e Hr He) as H0.
  destruct (extends_spawnsResolved s) as (_ & _ & Hh3).
  assert (He3 : heap (spawnsResolved s) !! r = Some e).
  { rewrite Hh3; [exact He|]. apply (wf_below s Hwf). eauto. }
  rewrite parametersUpdated_eq.
  destruct (heapAgree_lookup preDamageHealth _ _ r e
              (updateEntityParameter_preDamageHealth _) He3) as (e4 & He4 & Hk).
  destruct (heapAgree_lookup shape _ _ r e
              (updateEntityParameter_shape _) He3) as (e4' & He4' & Hsh).
  assert (e4' = e4) by congruence. subst e4'.
  exists e4. split; [exact He4|].
  unfold preDamageHealth in Hk. unfold shape in Hsh. split; [lia|congruence].
Qed.

(** X3 in Scenario C at the frame of the knock-back: health 50 at the call,
    40 with a frame damage of 10 when the state resolution starts. *)
Lemma X3_witness :
  exists e4,
    heap (parametersUpdated
            (run (ScenarioC.calls ++ [CallUpdate; CallUpdate; CallUpdate;
                                      CallUpdate; CallUpdate; CallUpdate])
               (newBattleLogic ScenarioC.cfg))) !! 0%nat = Some e4 /\
    currentHealth e4 + currentFrameDamage e4 = 50 /\
    maxHealth e4 = 100.
Proof.
  apply (X3_old_health_is_frame_start_health ScenarioC.cfg
           (ScenarioC.calls ++ [CallUpdate; CallUpdate; CallUpdate;
                                CallUpdate; CallUpdate; CallUpdate]) 0%nat
           (mkUnitEntity 0 1 true ENGAGED 50 100 0 0 (Some 1%nat) 2)).
  - vm_compute. auto.
  - vm_compute. reflexivity.
Defined.

(** X4.  Only [updateDamage] writes health, and only to the engaged entity of
    the attacker: an object that no entity of the live collection has as its
    [engagedEntity] comes out of the parameter update with the
    [currentHealth] and [currentFrameDamage] it had. *)
Theorem X4_unengaged_entity_takes_no_damage
    (s : BattleLogic) (r : Ref) (e : UnitEntity) :
  (forall a ea, In a (unitEntities s) -> heap s !! a = Some ea ->
     engagedEntity ea <> Some r) ->
  heap s !! r = Some e ->
  exists e', heap (updateEntityParameter s) !! r = Some e' /\
    currentHealth e' = currentHealth e /\
    currentFrameDamage e' = currentFrameDamage e.
Proof.
  intros Hun He. unfold updateEntityParameter.
  refine (proj2 (fold_left_keeps parameterOne
           (fun s' => heapAgree shape (heap s) (heap s') /\
                      exists e', heap s' !! r = Some e' /\
                        currentHealth e' = currentHealth e /\
                        currentFrameDamage e' = currentFrameDamage e)
           (unitEntities s) _ s _)).
  - intros s' a Ha (Hsh & e1 & He1 & Hh & Hd).
    split.
    { eapply heapAgree_trans; [exact Hsh|].
      unfold parameterOne. repeat case_match; try apply heapAgree_refl.
      eapply heapAgree_trans; [apply updateDamage_shape|apply updateDistance_shape]. }
    unfold parameterOne.
    destruct (heap s' !! a) as [unit|] eqn:Hua; [|eauto].
    destruct (unitMasterCache s' !! unitId unit) as [master|]; [|eauto].
    assert (Hdm : heap (updateDamage a master s') !! r = Some e1).
    { rewrite updateDamage_lookup_unengaged; [exact He1|].
      intros ea Hea Heng.
      destruct (heapAgree_lookup_inv shape _ _ _ _ Hsh Hea) as (ea0 & Hea0 & Hk).
      apply (Hun a ea0 Ha Hea0). unfold shape in Hk. congruence. }
    destruct (heapAgree_lookup unmoved _ _ r e1
                (updateDistance_unmoved a master _) Hdm) as (e2 & He2 & Hk).
    exists e2. split; [exact He2|]. unfold unmoved in Hk. split; congruence.
  - split; [apply heapAgree_refl|]. exists e. auto.
Qed.

(** X4 in the kill scenario after two frames: nothing engages entity [0]. *)
Lemma X4_witness :
  exists e',
    heap (updateEntityParameter
            (run ScenarioKill.calls (newBattleLogic ScenarioKill.cfg))) !! 0%nat
      = Some e' /\
    currentHealth e' = 90 /\ currentFrameDamage e' = 0.
Proof.
  apply (X4_unengaged_entity_takes_no_damage
           (run ScenarioKill.calls (newBattleLogic ScenarioKill.cfg)) 0%nat
           (mkUnitEntity 0 1 true IDLE 90 100 0 0 None 2)).
  - intros a ea Hin Hea.
    assert (Hin' : a = 0%nat \/ a = 1%nat).
    { clear Hea. vm_compute in Hin. destruct Hin as [H|[H|[]]]; auto. }
    destruct Hin' as [-> | ->]; vm_compute in Hea; injection Hea as <-;
      discriminate.
  - vm_compute. reflexivity.
Defined.

(** *** Movement *)

(** The object behind [r] after [updateDistance]. *)
Definition moved (d : option BattleLogicDelegate) (master : UnitMaster.t)
    (e : UnitEntity) : UnitEntity :=
  match state e with
  | KNOCK_BACK =>
      with_currentKnockBackFrameCount (currentKnockBackFrameCount e + 1)
        (with_distance (distance e - UnitMaster.knockBackSpeed master) e)
  | IDLE =>
      let unit0 := with_currentKnockBackFrameCount 0 e in
      match d with
      | Some d =>
          if shouldUnitWalk d unit0
          then with_distance (distance unit0 + UnitMaster.speed master) unit0
          else unit0
      | None => with_distance (distance unit0 + UnitMaster.speed master) unit0
      end
  | _ => with_currentKnockBackFrameCount 0 e
  end.

Lemma updateDistance_lookup r master s e :
  heap s !! r = Some e ->
  heap (updateDistance r master s) !! r = Some (moved (delegator s) master e).
Proof.
  intros He. unfold updateDistance, moved. rewrite He.
  destruct (state e); simpl; rewrite ?notify_heap; simpl;
    try apply lookup_insert_eq.
  destruct (delegator s) as [d|]; simpl.
  - destruct (shouldUnitWalk d _); rewrite ?notify_heap; simpl;
      rewrite ?insert_insert_eq; apply lookup_insert_eq.
  - rewrite insert_insert_eq. apply lookup_insert_eq.
Qed.

Lemma moved_spec d master e :
  shape (moved d master e) = shape e /\
  match state e with
  | KNOCK_BACK =>
      distance (moved d master e) = distance e - UnitMaster.knockBackSpeed master /\
      currentKnockBackFrameCount (moved d master e)
      = currentKnockBackFrameCount e + 1
  | IDLE =>
      currentKnockBackFrameCount (moved d master e) = 0 /\
      distance (moved d master e) =
        match d with
        | None => distance e + UnitMaster.speed master
        | Some d =>
            if shouldUnitWalk d (with_currentKnockBackFrameCount 0 e)
            then distance e + UnitMaster.speed master
            else distance e
        end
  | _ =>
      distance (moved d master e) = distance e /\
      currentKnockBackFrameCount (moved d master e) = 0
  end.
Proof.
  unfold moved. destruct (state e) eqn:Hst; simpl; auto.
  destruct d as [d|]; simpl; [|auto].
  destruct (shouldUnitWalk d _); simpl; auto.
Qed.

(** What the loop of [updateEntityParameter] does to the fields of an entity
    other than its health is what its own iteration does to them. *)
Lemma updateEntityParameter_turn s r e :
  List.NoDup (unitEntities s) -> In r (unitEntities s) ->
  heap s !! r = Some e ->
  exists s1 e1,
    sameSkeleton s s1 /\ heap s1 !! r = Some e1 /\ undamaged e1 = undamaged e /\
    undamaged <$> heap (updateEntityParameter s) !! r
    = undamaged <$> heap (parameterOne s1 r) !! r.
Proof.
  intros Hnd Hr He. unfold updateEntityParameter.
  destruct (in_split _ _ Hr) as (pre & post & HL). rewrite HL in *.
  apply List.NoDup_remove_2 in Hnd.
  assert (Hpre : ~ In r pre) by (intros H; apply Hnd, in_or_app; auto).
  assert (Hpost : ~ In r post) by (intros H; apply Hnd, in_or_app; auto).
  rewrite fold_left_app. simpl.
  set (s1 := fold_left parameterOne pre s).
  destruct (undamaged_lookup s s1 r e (parameterLoop_other pre s r Hpre) He)
    as (e1 & He1 & Hu1).
  exists s1, e1. split.
  { apply fold_left_skeleton. intros; apply parameterOne_skeleton. }
  split; [exact He1|]. split; [exact Hu1|].
  apply parameterLoop_other; exact Hpost.
Qed.

Lemma parameterLoop_preDamageHealth l s :
  heapAgree preDamageHealth (heap s) (heap (fold_left parameterOne l s)).
Proof.
  apply fold_left_heapAgree.
  intros s' r. unfold parameterOne. repeat case_match; try apply heapAgree_refl.
  eapply heapAgree_trans; [apply updateDamage_preDamageHealth|].
  apply (heapAgree_weaken unmoved); [|apply updateDistance_unmoved].
  unfold unmoved, preDamageHealth. intros e e' Hee. congruence.
Qed.

(** The turn of an entity in the loop of [updateEntityParameter]: the
    instance at its turn is the instance after the turns of the entities
    before it in the array, and what the loop leaves of its fields other
    than its health is what its own turn makes of them. *)
Lemma updateEntityParameter_turn_at s r e :
  List.NoDup (unitEntities s) -> In r (unitEntities s) ->
  heap s !! r = Some e ->
  exists pre post e1,
    unitEntities s = pre ++ r :: post /\
    heap (fold_left parameterOne pre s) !! r = Some e1 /\
    undamaged e1 = undamaged e /\
    preDamageHealth e1 = preDamageHealth e /\
    undamaged <$> heap (updateEntityParameter s) !! r
    = undamaged <$> heap (parameterOne (fold_left parameterOne pre s) r) !! r.
Proof.
  intros Hnd Hr He. unfold updateEntityParameter.
  destruct (in_split _ _ Hr) as (pre & post & HL). rewrite HL in *.
  apply List.NoDup_remove_2 in Hnd.
  assert (Hpre : ~ In r pre) by (intros H; apply Hnd, in_or_app; auto).
  assert (Hpost : ~ In r post) by (intros H; apply Hnd, in_or_app; auto).
  rewrite fold_left_app. simpl.
  set (s1 := fold_left parameterOne pre s).
  destruct (undamaged_lookup s s1 r e (parameterLoop_other pre s r Hpre) He)
    as (e1 & He1 & Hu1).
  exists pre, post, e1. split; [reflexivity|].
  split; [exact He1|]. split; [exact Hu1|]. split.
  - pose proof (parameterLoop_preDamageHealth pre s r) as Hp.
    fold s1 in Hp. rewrite He1, He in Hp. simpl in Hp. congruence.
  - apply parameterLoop_other; exact Hpost.
Qed.

(** X5.  What the parameter update does to the position of an entity of the
    live collection (the array holding no reference twice).  With its master
    absent the entity is skipped: position and knock-back count stay.  With
    the master present: a [KNOCK_BACK] entity goes back by [knockBackSpeed]
    and counts one more frame; an [ENGAGED] entity has its count reset and
    does not move; an [IDLE] entity has its count reset and walks [speed]
    forward when no delegator is attached.  When a delegator is attached it
    decides, and it is asked about the entity as it is at its turn: the
    object as the turns of the entities before it in the array and its own
    damage step have left it, with the knock-back count already reset.  That
    object has the state, engaged entity, position and pre-damage health the
    entity had when the loop started.  State and engaged entity never
    change. *)
Theorem X5_movement (s : BattleLogic) (r : Ref) (e : UnitEntity) :
  List.NoDup (unitEntities s) -> In r (unitEntities s) ->
  heap s !! r = Some e ->
  exists e', heap (updateEntityParameter s) !! r = Some e' /\
    shape e' = shape e /\
    match unitMasterCache s !! unitId e with
    | None =>
        distance e' = distance e /\
        currentKnockBackFrameCount e' = currentKnockBackFrameCount e
    | Some master =>
        match state e with
        | KNOCK_BACK =>
            distance e' = distance e - UnitMaster.knockBackSpeed master /\
            currentKnockBackFrameCount e' = currentKnockBackFrameCount e + 1
        | IDLE =>
            currentKnockBackFrameCount e' = 0 /\
            match delegator s with
            | None => distance e' = distance e + UnitMaster.speed master
            | Some d =>
                exists pre post now,
                  unitEntities s = pre ++ r :: post /\
                  heap (updateDamage r master (fold_left parameterOne pre s)) !! r
                  = Some now /\
                  shape now = shape e /\ distance now = distance e /\
                  currentHealth now + currentFrameDamage now
                  = currentHealth e + currentFrameDamage e /\
                  distance e' =
                    if shouldUnitWalk d (with_currentKnockBackFrameCount 0 now)
                    then distance e + UnitMaster.speed master
                    else distance e
            end
        | _ =>
            distance e' = distance e /\ currentKnockBackFrameCount e' = 0
        end
    end.
Proof.
  intros Hnd Hr He.
  destruct (updateEntityParameter_turn_at s r e Hnd Hr He)
    as (pre & post & e1 & HL & He1 & Hu1 & Hp1 & Hturn).
  set (s1 := fold_left parameterOne pre s) in *.
  assert (Hsk : sameSkeleton s s1)
    by (apply fold_left_skeleton; intros; apply parameterOne_skeleton).
  destruct (undamaged_inv _ _ Hu1) as (Hsh1 & Hc1 & Hid1 & Hst1).
  assert (Hd1 : distance e1 = distance e) by (unfold undamaged in Hu1; congruence).
  unfold parameterOne in Hturn. rewrite He1 in Hturn.
  rewrite (sameSkeleton_unitMasterCache _ _ Hsk), Hid1 in Hturn.
  destruct (unitMasterCache s !! unitId e) as [master|].
  - destruct (undamaged_lookup s1 (updateDamage r master s1) r e1
                (updateDamage_undamaged r master s1 r) He1) as (e2 & He2 & Hu2).
    destruct (undamaged_inv _ _ Hu2) as (Hsh2 & Hc2 & Hid2 & Hst2).
    assert (Hd2 : distance e2 = distance e1)
      by (unfold undamaged in Hu2; congruence).
    assert (Hp2 : preDamageHealth e2 = preDamageHealth e1).
    { pose proof (updateDamage_preDamageHealth r master s1 r) as Hp.
      rewrite He2, He1 in Hp. simpl in Hp. congruence. }
    rewrite (updateDistance_lookup r master _ e2 He2) in Hturn.
    rewrite (sameSkeleton_delegator _ _ (updateDamage_skeleton r master s1)) in Hturn.
    rewrite (sameSkeleton_delegator _ _ Hsk) in Hturn.
    destruct (heap (updateEntityParameter s) !! r) as [e'|]; [|discriminate].
    simpl in Hturn.
    assert (Hu' : undamaged e' = undamaged (moved (delegator s) master e2))
      by congruence.
    destruct (undamaged_inv _ _ Hu') as (Hsh' & Hc' & _ & _).
    assert (Hd' : distance e' = distance (moved (delegator s) master e2))
      by (unfold undamaged in Hu'; congruence).
    destruct (moved_spec (delegator s) master e2) as [Hshm Hm].
    exists e'. split; [reflexivity|]. split; [congruence|].
    rewrite Hd', Hc'. rewrite Hst2, Hst1 in Hm.
    destruct (state e); try (destruct Hm; split; congruence).
    destruct Hm as [Hm0 Hmd]. split; [exact Hm0|].
    destruct (delegator s) as [d|]; [|congruence].
    exists pre, post, e2.
    split; [exact HL|]. split; [exact He2|].
    split; [congruence|]. split; [congruence|].
    split; [unfold preDamageHealth in Hp1, Hp2; congruence|].
    rewrite Hmd. destruct (shouldUnitWalk d _); congruence.
  - rewrite He1 in Hturn.
    destruct (heap (updateEntityParameter s) !! r) as [e'|]; [|discriminate].
    simpl in Hturn.
    assert (Hu' : undamaged e' = undamaged e1) by congruence.
    destruct (undamaged_inv _ _ Hu') as (Hsh' & Hc' & _ & _).
    exists e'. split; [reflexivity|]. split; [congruence|].
    unfold undamaged in Hu'. split; congruence.
Qed.

(** X5 in Scenario C after the first frame: the [ENGAGED] entity [0] stays
    at distance 2. *)
Lemma X5_witness :
  exists e',
    heap (updateEntityParameter (ScenarioC.frames 1)) !! 0%nat = Some e' /\
    distance e' = 2.
Proof.
  destruct (X5_movement (ScenarioC.frames 1) 0%nat
              (mkUnitEntity 0 1 true ENGAGED 100 100 0 0 (Some 1%nat) 2))
    as (e' & He' & _ & Hm).
  - solve_NoDup.
  - clear. vm_compute. auto.
  - clear. vm_compute. reflexivity.
  - exists e'. split; [exact He'|].
    assert (Hmaster : unitMasterCache (ScenarioC.frames 1) !! 1
                      = Some ScenarioC.master) by (clear; vm_compute; reflexivity).
    cbn [unitId state] in Hm. rewrite Hmaster in Hm. apply Hm.
Defined.

(** *** The transitions of one state resolution *)

(** X6.  The transitions one state resolution can make, for any object of
    the store.  It writes [state] and [engagedEntity] only.  An [IDLE]
    entity ends [IDLE] or [ENGAGED]: it is never knocked back or killed
    directly.  An [ENGAGED] entity ends [ENGAGED], [IDLE] or [KNOCK_BACK],
    never [DEAD].  A [KNOCK_BACK] entity leaves [KNOCK_BACK] only when its
    master is present and [knockBackFrames <= currentKnockBackFrameCount],
    and ends [DEAD] only when moreover [currentHealth < 1].  A [DEAD] object
    is left as it is. *)
Theorem X6_state_transitions (s : BattleLogic) (r : Ref) (e e' : UnitEntity) :
  heap s !! r = Some e -> heap (resolveStates s) !! r = Some e' ->
  vitals e' = vitals e /\
  match state e with
  | IDLE => state e' = IDLE \/ state e' = ENGAGED
  | ENGAGED => state e' = ENGAGED \/ state e' = IDLE \/ state e' = KNOCK_BACK
  | KNOCK_BACK =>
      (state e' <> KNOCK_BACK ->
       exists master, unitMasterCache s !! unitId e = Some master /\
         UnitMaster.knockBackFrames master <= currentKnockBackFrameCount e) /\
      (state e' = DEAD -> currentHealth e < 1)
  | DEAD => e' = e
  end.
Proof.
  intros He He'. split.
  { destruct (heapAgree_lookup vitals _ _ r e (resolveStates_vitals s) He)
      as (x & Hx & Hv). congruence. }
  destruct (state e) eqn:Hst.
  - destruct (resolveStates_idle s r e He Hst) as (x & Hx & _ & Hc).
    assert (x = e') by congruence. subst x.
    destruct Hc as [->|Hc]; auto.
  - unfold resolveStates in He'.
    pose proof (resolveGroup_untouched KNOCK_BACK updateUnitKnockBackState s r e He
                  ltac:(congruence)) as H1.
    set (I := fun x : UnitEntity =>
                state x = ENGAGED \/ state x = IDLE \/ state x = KNOCK_BACK).
    destruct (resolveGroup_track ENGAGED updateUnitEngagedState _ r e I H1)
      as (e2 & He2 & HI2).
    { left; exact Hst. }
    { intros s' x _ _ Hx.
      destruct (updateUnitEngagedState_state s' x Hx) as [Ht Hf].
      destruct (crossesThreashold _ _ _ _).
      - right; right. apply Ht; reflexivity.
      - destruct (Hf eq_refl) as [[H _]|[H _]]; unfold I; auto. }
    destruct (resolveGroup_track IDLE updateUnitIdleState _ r e2 I He2 HI2)
      as (e3 & He3 & HI3).
    { intros s' x _ Hx Hidle.
      destruct (updateUnitIdleState_cases s' x) as [->|(t & _ & Hs & _)];
        unfold I; auto. }
    assert (e3 = e') by congruence. subst e3. exact HI3.
  - unfold resolveStates in He'.
    set (left_ok := exists master, unitMasterCache s !! unitId e = Some master /\
                      UnitMaster.knockBackFrames master
                      <= currentKnockBackFrameCount e).
    destruct (resolveGroup_track KNOCK_BACK updateUnitKnockBackState s r e
                (fun x => vitals x = vitals e /\
                          (state x = KNOCK_BACK \/
                           (left_ok /\ (state x = DEAD -> currentHealth e < 1))))
                He)
      as (e1 & He1 & Hv1 & H1).
    { split; [reflexivity|left; exact Hst]. }
    { intros s' x Hsk (Hv & Hc) Hx.
      split; [rewrite updateUnitKnockBackState_vitals; exact Hv|].
      rewrite updateUnitKnockBackState_state, Hx.
      rewrite (sameSkeleton_unitMasterCache _ _ Hsk).
      assert (Hu : unitId x = unitId e) by (unfold vitals in Hv; congruence).
      assert (Hk : currentKnockBackFrameCount x = currentKnockBackFrameCount e)
        by (unfold vitals in Hv; congruence).
      assert (Hh : currentHealth x = currentHealth e)
        by (unfold vitals in Hv; congruence).
      rewrite Hu, Hk, Hh.
      destruct (unitMasterCache s !! unitId e) as [master|] eqn:Hm; [|auto].
      destruct (currentKnockBackFrameCount e <? UnitMaster.knockBackFrames master)
        eqn:Hlt; [auto|].
      apply Z.ltb_ge in Hlt. right. split; [exists master; auto|].
      destruct (currentHealth e <? 1) eqn:Hd; [|discriminate].
      apply Z.ltb_lt in Hd. auto. }
    set (J := fun x : UnitEntity =>
                state x = KNOCK_BACK \/
                (left_ok /\ (state x = DEAD -> currentHealth e < 1))).
    destruct (resolveGroup_track ENGAGED updateUnitEngagedState _ r e1 J He1 H1)
      as (e2 & He2 & H2).
    { intros s' x _ Hx Hen. destruct Hx as [Hx|[Hl Hd]]; [congruence|].
      right. split; [exact Hl|]. intros Hdead.
      apply updateUnitEngagedState_not_dead in Hdead. congruence. }
    destruct (resolveGroup_track IDLE updateUnitIdleState _ r e2 J He2 H2)
      as (e3 & He3 & H3).
    { intros s' x _ Hx Hidle. destruct Hx as [Hx|[Hl Hd]]; [congruence|].
      right. split; [exact Hl|]. intros Hdead.
      apply updateUnitIdleState_not_dead in Hdead. congruence. }
    assert (e3 = e') by congruence. subst e3.
    destruct H3 as [H3|[Hl Hd]]; split; auto; try congruence.
  - unfold resolveStates in He'.
    pose proof (resolveGroup_untouched KNOCK_BACK updateUnitKnockBackState s r e He
                  ltac:(congruence)) as H1.
    pose proof (resolveGroup_untouched ENGAGED updateUnitEngagedState _ r e H1
                  ltac:(congruence)) as H2.
    pose proof (resolveGroup_untouched IDLE updateUnitIdleState _ r e H2
                  ltac:(congruence)) as H3.
    congruence.
Qed.

(** X6 in Scenario C at the frame on which the knock-back of entity [0]
    ends. *)
Lemma X6_witness :
  exists master,
    unitMasterCache (parametersUpdated (ScenarioC.frames 9)) !! 1 = Some master /\
    UnitMaster.knockBackFrames master <= 3.
Proof.
  destruct (X6_state_transitions (parametersUpdated (ScenarioC.frames 9)) 0%nat
              (mkUnitEntity 0 1 true KNOCK_BACK 40 100 0 3 None (-1))
              (mkUnitEntity 0 1 true ENGAGED 40 100 0 3 (Some 1%nat) (-1)))
    as (_ & Hleft & _).
  - clear. vm_compute. reflexivity.
  - clear. vm_compute. reflexivity.
  - apply Hleft. discriminate.
Defined.

(** *** Without a delegator *)

(** [quiet s s']: if no delegator is attached to [s], none is attached to
    [s'] and [s'] has the events of [s]. *)
Definition quiet (s s' : BattleLogic) : Prop :=
  delegator s = None -> delegator s' = None /\ events s' = events s.

Lemma quiet_refl s : quiet s s.
Proof. intros H; auto. Qed.

Lemma quiet_trans s1 s2 s3 : quiet s1 s2 -> quiet s2 s3 -> quiet s1 s3.
Proof.
  intros H12 H23 H1. destruct (H12 H1) as [H2 He2].
  destruct (H23 H2) as [H3 He3]. split; congruence.
Qed.

Lemma fold_left_quiet {A} (step : BattleLogic -> A -> BattleLogic) l :
  (forall s a, quiet s (step s a)) -> forall s, quiet s (fold_left step l s).
Proof.
  intros Hstep s.
  apply (fold_left_keeps step (quiet s)); [|apply quiet_refl].
  intros s' a _ H. eapply quiet_trans; [exact H|apply Hstep].
Qed.

Lemma notify_quiet ev s : quiet s (notify ev s).
Proof. intros H. unfold notify. rewrite H. auto. Qed.

Lemma updateAvailableCost_quiet c s : quiet s (updateAvailableCost c s).
Proof.
  unfold updateAvailableCost.
  eapply quiet_trans; [|apply notify_quiet]. intros H; auto.
Qed.

Lemma updateAISpawn_quiet s : quiet s (updateAISpawn s).
Proof.
  unfold updateAISpawn. destruct (aiWaveCache s !! passedFrameCount s);
    [|apply quiet_refl].
  apply fold_left_quiet. intros s' u H; auto.
Qed.

Lemma updateSpawnRequest_quiet s : quiet s (updateSpawnRequest s).
Proof.
  unfold updateSpawnRequest.
  destruct (spawnRequestedUnitUnitIds s) as [|req q]; [apply quiet_refl|].
  assert (H : quiet s (snd (fold_left spawnOne (req :: q) (availableCost s, s)))).
  { apply (fold_left_keeps spawnOne (fun acc => quiet s (snd acc)));
      [|apply quiet_refl].
    intros [c s'] x _ Hq. eapply quiet_trans; [exact Hq|].
    rewrite spawnOne_eq. repeat case_match; simpl; try apply quiet_refl;
      unfold accepted; (eapply quiet_trans; [|apply notify_quiet]);
      intros Hd; auto. }
  destruct (fold_left spawnOne (req :: q) (availableCost s, s)) as [tmpCost s'].
  simpl in H. eapply quiet_trans; [exact H|].
  eapply quiet_trans; [apply (updateAvailableCost_quiet tmpCost)|].
  intros Hd; split; [exact Hd|reflexivity].
Qed.

Lemma setEntity_quiet r e s : quiet s (setEntity r e s).
Proof. intros H; auto. Qed.

Lemma updateDamage_quiet r master s : quiet s (updateDamage r master s).
Proof.
  unfold updateDamage.
  repeat case_match; try apply quiet_refl;
    try (eapply quiet_trans; [apply setEntity_quiet|apply notify_quiet]);
    apply setEntity_quiet.
Qed.

Lemma updateDistance_quiet r master s : quiet s (updateDistance r master s).
Proof.
  intros Hd. unfold updateDistance.
  destruct (heap s !! r) as [unit|]; [|auto].
  destruct (state unit); simpl; rewrite ?Hd; unfold notify; simpl;
    rewrite ?Hd; auto.
Qed.

Lemma updateEntityParameter_quiet s : quiet s (updateEntityParameter s).
Proof.
  unfold updateEntityParameter. apply fold_left_quiet.
  intros s' r. unfold parameterOne. repeat case_match; try apply quiet_refl.
  eapply quiet_trans; [apply updateDamage_quiet|apply updateDistance_quiet].
Qed.

Lemma resolveStates_events s :
  delegator (resolveStates s) = delegator s /\ events (resolveStates s) = events s.
Proof.
  split; [apply sameSkeleton_delegator, resolveStates_skeleton|].
  unfold resolveStates, resolveGroup.
  assert (H : forall st resolve l s0,
             events (fold_left (resolveOne st resolve) l s0) = events s0).
  { intros st resolve l s0.
    apply (fold_left_keeps (resolveOne st resolve)
             (fun s' => events s' = events s0)); [|reflexivity].
    intros s' a _ Hs'. unfold resolveOne. repeat case_match; exact Hs'. }
  rewrite !H. reflexivity.
Qed.

Lemma updateEntityState_quiet s : quiet s (updateEntityState s).
Proof.
  intros Hd. destruct (resolveStates_events s) as [Hdr Her].
  unfold updateEntityState. rewrite Hdr, Hd. split; congruence.
Qed.

Lemma updatePostProcess_quiet s : quiet s (updatePostProcess s).
Proof.
  unfold updatePostProcess.
  eapply quiet_trans; [|apply fold_left_quiet; intros s' r Hd; auto].
  intros Hd; auto.
Qed.

Lemma with_passedFrameCount_quiet v s : quiet s (with_passedFrameCount v s).
Proof. intros Hd. split; [exact Hd|reflexivity]. Qed.

Lemma parametersUpdated_quiet s : quiet s (parametersUpdated s).
Proof.
  unfold parametersUpdated.
  set (s1 := updateAvailableCost
               (availableCost s + costRecoveryPerFrame (config s)) s).
  apply (quiet_trans s s1); [apply updateAvailableCost_quiet|].
  apply (quiet_trans s1 (updateAISpawn s1)); [apply updateAISpawn_quiet|].
  apply (quiet_trans _ (updateSpawnRequest (updateAISpawn s1)));
    [apply updateSpawnRequest_quiet|apply updateEntityParameter_quiet].
Qed.

Lemma update_quiet s : quiet s (update s).
Proof.
  rewrite update_eq.
  apply (quiet_trans s (parametersUpdated s)); [apply parametersUpdated_quiet|].
  apply (quiet_trans _ (updateEntityState (parametersUpdated s)));
    [apply updateEntityState_quiet|].
  apply (quiet_trans _ (updatePostProcess (updateEntityState (parametersUpdated s))));
    [apply updatePostProcess_quiet|apply with_passedFrameCount_quiet].
Qed.

Lemma framesFrom_quiet s n : quiet s (framesFrom s n).
Proof.
  induction n as [|n IH]; cbn [framesFrom]; [apply quiet_refl|].
  apply (quiet_trans s (framesFrom s n)); [exact IH|apply update_quiet].
Qed.

(** X7.  Every notification is guarded by the presence of the delegator:
    while none is attached, [update()] and [requestSpawn] record no event,
    and nothing attaches one. *)
Theorem X7_no_delegator_no_events (s : BattleLogic) (frames : nat) :
  delegator s = None ->
  delegator (framesFrom s frames) = None /\
  events (framesFrom s frames) = events s /\
  forall unitId0 isPlayer0,
    events (update (requestSpawn unitId0 isPlayer0 s)) = events s.
Proof.
  intros Hd. destruct (framesFrom_quiet s frames Hd) as [H1 H2].
  split; [exact H1|]. split; [exact H2|].
  intros u p.
  destruct (update_quiet (requestSpawn u p s) Hd) as [_ H3]. exact H3.
Qed.

(** X7 on the instance without delegator of the scenarios. *)
Lemma X7_witness :
  events (framesFrom ScenarioNoDelegator.idlePair 3)
  = events ScenarioNoDelegator.idlePair.
Proof.
  exact (proj1 (proj2 (X7_no_delegator_no_events
                         ScenarioNoDelegator.idlePair 3 eq_refl))).
Defined.

(** *** The cost notification *)

(** The test of [updateAvailableCost] on one unit id of the player. *)
Definition affordable (s : BattleLogic) (unitId0 : Z) : bool :=
  match unitMasterCache s !! unitId0 with
  | Some master => availableCost s >=? UnitMaster.cost master
  | None => false
  end.

Lemma availablePlayerUnitIds_filter s :
  availablePlayerUnitIds s = List.filter (affordable s) (player s).
Proof.
  unfold availablePlayerUnitIds.
  assert (H : forall l acc,
             fold_left (fun acc unitId0 =>
                          match unitMasterCache s !! unitId0 with
                          | None => acc
                          | Some master =>
                              if availableCost s >=? UnitMaster.cost master
                              then acc ++ [unitId0] else acc
                          end) l acc
             = acc ++ List.filter (affordable s) l).
  { induction l as [|u l IH]; intros acc; simpl; [rewrite app_nil_r; reflexivity|].
    rewrite IH. unfold affordable at 2.
    destruct (unitMasterCache s !! u) as [master|]; [|reflexivity].
    destruct (availableCost s >=? UnitMaster.cost master); [|reflexivity].
    rewrite <- app_assoc. reflexivity. }
  apply (H (player s) []).
Qed.

(** X8.  [updateAvailableCost] sets the available cost to the smaller of the
    new cost and the cap.  When a delegator is attached it records exactly
    one event, which carries that cost, the cap, and the unit ids of the
    player's roster, in roster order, whose master is present and costs at
    most that cost; ids without a master are left out. *)
Theorem X8_cost_notification
    (newCost : Z) (s : BattleLogic) (d : BattleLogicDelegate) :
  delegator s = Some d ->
  let cost := Z.min newCost (maxAvailableCost (config s)) in
  availableCost (updateAvailableCost newCost s) = cost /\
  exists ids,
    events (updateAvailableCost newCost s)
    = events s ++ [onAvailableCostUpdated cost (maxAvailableCost (config s)) ids] /\
    ids = List.filter (affordable (updateAvailableCost newCost s)) (player s) /\
    forall u, In u ids <->
      In u (player s) /\
      exists master, unitMasterCache s !! u = Some master /\
                     UnitMaster.cost master <= cost.
Proof.
  intros Hd cost.
  assert (Hcost : (if newCost >? maxAvailableCost (config s)
                   then maxAvailableCost (config s) else newCost) = cost).
  { unfold cost. destruct (newCost >? maxAvailableCost (config s)) eqn:Hgt.
    - apply Z.gtb_lt in Hgt. lia.
    - rewrite Z.gtb_ltb in Hgt. apply Z.ltb_ge in Hgt. lia. }
  unfold updateAvailableCost. rewrite Hcost.
  set (s1 := with_availableCost cost s).
  assert (Hn : notify (onAvailableCostUpdated (availableCost s1)
                         (maxAvailableCost (config s1)) (availablePlayerUnitIds s1)) s1
               = with_events
                   (events s1 ++ [onAvailableCostUpdated (availableCost s1)
                                    (maxAvailableCost (config s1))
                                    (availablePlayerUnitIds s1)]) s1).
  { unfold notify. change (delegator s1) with (delegator s). rewrite Hd.
    reflexivity. }
  rewrite Hn. split; [reflexivity|].
  exists (availablePlayerUnitIds s1). split; [reflexivity|].
  split; [exact (availablePlayerUnitIds_filter s1)|].
  intros u. rewrite availablePlayerUnitIds_filter. rewrite filter_In.
  change (player s1) with (player s). unfold affordable.
  change (unitMasterCache s1) with (unitMasterCache s).
  change (availableCost s1) with cost.
  split.
  - intros [Hin Ha]. split; [exact Hin|].
    destruct (unitMasterCache s !! u) as [master|]; [|discriminate].
    exists master. split; [reflexivity|].
    rewrite Z.geb_leb in Ha. apply Z.leb_le in Ha. exact Ha.
  - intros [Hin (master & Hm & Hle)]. split; [exact Hin|].
    rewrite Hm. rewrite Z.geb_leb. apply Z.leb_le. exact Hle.
Qed.

(** X8 in Scenario B after four frames: a new cost of 40 with the roster
    [[1]] and a unit of cost 30. *)
Lemma X8_witness :
  availableCost (updateAvailableCost 40 ScenarioB.afterFourFrames) = 40.
Proof.
  exact (proj1 (X8_cost_notification 40 ScenarioB.afterFourFrames permitAll
                  ltac:(vm_compute; reflexivity))).
Defined.

(** *** Initialisation *)

Section LastMatch.
Context {A : Type} (keyOf : A -> Z).

(** The last element of a list with a given key. *)
Fixpoint lastMatch (k : Z) (l : list A) : option A :=
  match l with
  | [] => None
  | a :: rest =>
      match lastMatch k rest with
      | Some b => Some b
      | None => if keyOf a =? k then Some a else None
      end
  end.

Lemma lastMatch_Some k l a :
  lastMatch k l = Some a -> In a l /\ keyOf a = k.
Proof.
  induction l as [|x l IH]; simpl; [discriminate|].
  destruct (lastMatch k l) as [b|].
  - intros [= <-]. destruct (IH eq_refl). auto.
  - destruct (keyOf x =? k) eqn:Hk; [|discriminate].
    intros [= <-]. apply Z.eqb_eq in Hk. auto.
Qed.

Lemma lastMatch_None k l :
  lastMatch k l = None -> forall a, In a l -> keyOf a <> k.
Proof.
  induction l as [|x l IH]; simpl; [intros _ a []|].
  destruct (lastMatch k l) as [b|]; [discriminate|].
  destruct (keyOf x =? k) eqn:Hk; [discriminate|].
  apply Z.eqb_neq in Hk. intros _ a [<-|Ha]; auto.
Qed.
End LastMatch.

Lemma init_masters_loop l s0 k :
  unitMasterCache
    (fold_left (fun this unit =>
                  with_unitMasterCache
                    (<[UnitMaster.unitId unit := unit]> (unitMasterCache this)) this)
       l s0) !! k
  = match lastMatch UnitMaster.unitId k l with
    | Some m => Some m
    | None => unitMasterCache s0 !! k
    end.
Proof.
  revert s0. induction l as [|a l IH]; intros s0; simpl; [reflexivity|].
  rewrite IH. destruct (lastMatch UnitMaster.unitId k l); [reflexivity|].
  simpl. destruct (UnitMaster.unitId a =? k) eqn:Hk.
  - apply Z.eqb_eq in Hk. subst k. apply lookup_insert_eq.
  - apply Z.eqb_neq in Hk. apply lookup_insert_ne. exact Hk.
Qed.

Lemma init_waves_loop l s0 k :
  aiWaveCache
    (fold_left (fun this (kv : Z * list Z) =>
                  with_aiWaveCache (<[fst kv := snd kv]> (aiWaveCache this)) this)
       l s0) !! k
  = match lastMatch fst k l with
    | Some kv => Some (snd kv)
    | None => aiWaveCache s0 !! k
    end.
Proof.
  revert s0. induction l as [|a l IH]; intros s0; simpl; [reflexivity|].
  rewrite IH. destruct (lastMatch fst k l); [reflexivity|].
  simpl. destruct (fst a =? k) eqn:Hk.
  - apply Z.eqb_eq in Hk. subst k. apply lookup_insert_eq.
  - apply Z.eqb_neq in Hk. apply lookup_insert_ne. exact Hk.
Qed.

Lemma init_fields params s :
  delegator (init params s) = Some (p_delegator params) /\
  player (init params s) = p_player params /\
  passedFrameCount (init params s) = passedFrameCount s /\
  spawnRequestedUnitUnitIds (init params s) = spawnRequestedUnitUnitIds s.
Proof.
  unfold init.
  set (view := fun x : BattleLogic =>
                 (delegator x, player x, passedFrameCount x,
                  spawnRequestedUnitUnitIds x)).
  assert (H : forall {A} (step : BattleLogic -> A -> BattleLogic) l s0,
             (forall x a, view (step x a) = view x) ->
             view (fold_left step l s0) = view s0).
  { intros A step l s0 Hstep.
    apply (fold_left_keeps step (fun x => view x = view s0)); [|reflexivity].
    intros x a _ Hx. rewrite Hstep. exact Hx. }
  match goal with
  | |- delegator ?t = _ /\ _ =>
      assert (Hv : view t = (Some (p_delegator params), p_player params,
                             passedFrameCount s, spawnRequestedUnitUnitIds s))
  end.
  { rewrite H by reflexivity. rewrite H by reflexivity.
    unfold view. destruct (p_config params); reflexivity. }
  unfold view in Hv. injection Hv as -> -> -> ->. auto.
Qed.

Lemma init_caches params s k :
  unitMasterCache (init params s) !! k
  = lastMatch UnitMaster.unitId k (p_unitMasters params) /\
  aiWaveCache (init params s) !! k
  = match lastMatch fst k (p_waves params) with
    | Some kv => Some (snd kv)
    | None => aiWaveCache s !! k
    end.
Proof.
  unfold init. split.
  - match goal with
    | |- unitMasterCache (fold_left ?f ?l ?x) !! _ = _ =>
        assert (Hm : unitMasterCache (fold_left f l x) = unitMasterCache x)
    end.
    { apply (fold_left_keeps _ (fun y => unitMasterCache y = unitMasterCache _));
        [|reflexivity].
      intros y a _ Hy. exact Hy. }
    rewrite Hm, init_masters_loop.
    destruct (lastMatch UnitMaster.unitId k (p_unitMasters params));
      [reflexivity|].
    simpl. apply lookup_empty.
  - rewrite init_waves_loop.
    destruct (lastMatch fst k (p_waves params)); [reflexivity|].
    f_equal.
    match goal with
    | |- aiWaveCache (fold_left ?f ?l ?x) = _ =>
        assert (Hw : aiWaveCache (fold_left f l x) = aiWaveCache x)
    end.
    { apply (fold_left_keeps _ (fun y => aiWaveCache y = aiWaveCache _));
        [|reflexivity].
      intros y a _ Hy. exact Hy. }
    rewrite Hw. destruct (p_config params); reflexivity.
Qed.

(** X9.  What [init] stores.  The master cache is rebuilt from nothing: a
    unit id has a master afterwards exactly when the list passed holds a
    master with that id, the last such master wins, and the master found
    carries the id it is found under.  The wave cache is not emptied: a
    frame of the waves passed gets the last list given for it, and any other
    frame keeps what an earlier [init] stored for it.  Entities, available
    cost, pending requests and the frame counter are not reset. *)
Theorem X9_init_caches (params : InitParams) (s : BattleLogic) (k : Z) :
  (unitMasterCache (init params s) !! k
   = lastMatch UnitMaster.unitId k (p_unitMasters params)) /\
  (forall master, unitMasterCache (init params s) !! k = Some master ->
     In master (p_unitMasters params) /\ UnitMaster.unitId master = k) /\
  (unitMasterCache (init params s) !! k = None <->
   forall master, In master (p_unitMasters params) ->
                  UnitMaster.unitId master <> k) /\
  (aiWaveCache (init params s) !! k
   = match lastMatch fst k (p_waves params) with
     | Some kv => Some (snd kv)
     | None => aiWaveCache s !! k
     end) /\
  ((forall kv, In kv (p_waves params) -> fst kv <> k) ->
   aiWaveCache (init params s) !! k = aiWaveCache s !! k) /\
  entitiesOf (init params s) = entitiesOf s /\
  availableCost (init params s) = availableCost s /\
  passedFrameCount (init params s) = passedFrameCount s /\
  spawnRequestedUnitUnitIds (init params s) = spawnRequestedUnitUnitIds s.
Proof.
  destruct (init_caches params s k) as [Hm Hw].
  destruct (init_fields params s) as (_ & _ & Hf & Hq).
  split; [exact Hm|]. split.
  { intros master H. rewrite Hm in H. apply (lastMatch_Some _ _ _ _ H). }
  split.
  { rewrite Hm. split.
    - apply lastMatch_None.
    - intros Hno.
      destruct (lastMatch UnitMaster.unitId k (p_unitMasters params)) as [m|] eqn:E;
        [|reflexivity].
      destruct (lastMatch_Some _ _ _ _ E) as [Hin Hk].
      destruct (Hno m Hin Hk). }
  split; [exact Hw|]. split.
  { intros Hno. rewrite Hw.
    destruct (lastMatch fst k (p_waves params)) as [kv|] eqn:E; [|reflexivity].
    destruct (lastMatch_Some _ _ _ _ E) as [Hin Hk].
    destruct (Hno kv Hin Hk). }
  split; [apply init_entitiesOf|].
  split; [apply (init_costView params s)|]. split; [exact Hf|exact Hq].
Qed.

(** X9 for a second [init] of Scenario D with an empty schedule: the wave of
    frame 3 stored by the first [init] is still there. *)
Lemma X9_witness :
  aiWaveCache
    (init (mkInitParams permitAll [] [] [] None) ScenarioD.start) !! 3
  = aiWaveCache ScenarioD.start !! 3.
Proof.
  apply (proj1 (proj2 (proj2 (proj2 (proj2
           (X9_init_caches (mkInitParams permitAll [] [] [] None)
              ScenarioD.start 3)))))).
  intros kv [].
Defined.

(** *** The frame counter *)

Definition isUpdate (c : Call) : bool :=
  match c with
  | CallUpdate => true
  | _ => false
  end.

Lemma call_passedFrameCount s c :
  passedFrameCount (call s c)
  = passedFrameCount s + (if isUpdate c then 1 else 0).
Proof.
  destruct c as [params|u p|]; cbn [call isUpdate].
  - rewrite (proj1 (proj2 (proj2 (init_fields params s)))). lia.
  - unfold requestSpawn. simpl. lia.
  - pose proof (update_scheduleOf s) as H. unfold scheduleOf in H.
    assert (Hf : passedFrameCount (update s) = passedFrameCount s + 1)
      by congruence.
    exact Hf.
Qed.

(** X10.  The frame counter counts the calls of [update()]: after any
    sequence of calls it has grown by the number of [update()] calls in the
    sequence.  Neither [init] nor a spawn request changes it, so a second
    [init] does not restart the wave schedule; and one [update()] leaves the
    wave cache and the master cache as they were. *)
Theorem X10_frame_counter (calls : list Call) (s : BattleLogic) :
  passedFrameCount (run calls s)
  = passedFrameCount s + Z.of_nat (length (List.filter isUpdate calls)) /\
  aiWaveCache (update s) = aiWaveCache s /\
  unitMasterCache (update s) = unitMasterCache s.
Proof.
  split.
  - unfold run. revert s. induction calls as [|c calls IH]; intros s.
    + simpl. lia.
    + cbn [fold_left List.filter]. rewrite IH, call_passedFrameCount.
      destruct (isUpdate c); cbn [length]; lia.
  - pose proof (update_scheduleOf s) as H. unfold scheduleOf in H.
    split; congruence.
Qed.

(** *** The spawn loop as a whole *)

Lemma spawnLoop_ids q :
  forall tmpCost this,
    let result := fold_left spawnOne q (tmpCost, this) in
    exists n : nat,
      (n <= length q)%nat /\
      nextEntityId (snd result) = (nextEntityId this + n)%nat /\
      unitEntities (snd result)
      = unitEntities this ++ seq (nextEntityId this) n.
Proof.
  induction q as [|req q IH]; intros tmpCost this.
  - exists 0%nat. simpl. rewrite Nat.add_0_r, app_nil_r. auto.
  - cbn [fold_left]. rewrite spawnOne_eq.
    assert (Hstay : forall c,
              exists n : nat,
                (n <= length (req :: q))%nat /\
                nextEntityId (snd (fold_left spawnOne q (c, this)))
                = (nextEntityId this + n)%nat /\
                unitEntities (snd (fold_left spawnOne q (c, this)))
                = unitEntities this ++ seq (nextEntityId this) n).
    { intros c. destruct (IH c this) as (n & Hn & Hnext & Harr).
      exists n. cbn [length]. split; [lia|]. split; assumption. }
    assert (Hgo : forall c m b,
              exists n : nat,
                (n <= length (req :: q))%nat /\
                nextEntityId
                  (snd (fold_left spawnOne q
                          (c, accepted this (fst req) (snd req) m b)))
                = (nextEntityId this + n)%nat /\
                unitEntities
                  (snd (fold_left spawnOne q
                          (c, accepted this (fst req) (snd req) m b)))
                = unitEntities this ++ seq (nextEntityId this) n).
    { intros c m b.
      destruct (IH c (accepted this (fst req) (snd req) m b))
        as (n & Hn & Hnext & Harr).
      rewrite accepted_nextEntityId in Hnext, Harr.
      rewrite accepted_unitEntities in Harr.
      exists (S n). cbn [length seq]. split; [lia|]. split.
      - rewrite Hnext. lia.
      - rewrite Harr, <- app_assoc. reflexivity. }
    destruct (unitMasterCache this !! fst req) as [master|]; [|apply Hstay].
    destruct (snd req) eqn:Hp.
    + destruct (tmpCost - UnitMaster.cost master <? 0); [apply Hstay|].
      apply (Hgo _ master 100).
    + apply (Hgo _ master 1000).
Qed.

Lemma spawnLoop_spends q :
  forall tmpCost this,
    (forall u master, unitMasterCache this !! u = Some master ->
                      0 <= UnitMaster.cost master) ->
    fst (fold_left spawnOne q (tmpCost, this)) <= tmpCost.
Proof.
  induction q as [|req q IH]; intros tmpCost this Hpos; [simpl; lia|].
  cbn [fold_left]. rewrite spawnOne_eq.
  destruct (unitMasterCache this !! fst req) as [master|] eqn:Hm;
    [|apply IH; exact Hpos].
  assert (Hpos' : forall b p,
            forall u m, unitMasterCache (accepted this (fst req) p master b) !! u
                        = Some m -> 0 <= UnitMaster.cost m).
  { intros b p u m. rewrite accepted_unitMasterCache. apply Hpos. }
  destruct (snd req).
  - destruct (tmpCost - UnitMaster.cost master <? 0); [apply IH; exact Hpos|].
    specialize (IH (tmpCost - UnitMaster.cost master) _ (Hpos' 100 true)).
    specialize (Hpos _ _ Hm). lia.
  - apply IH. apply Hpos'.
Qed.

(** X11.  The loop of [updateSpawnRequest] over any queue of requests, player
    and AI mixed: it creates at most one entity per request, the new entities
    get consecutive ids starting at the next free id, and they are appended
    to the live array in creation order behind the entities already there,
    whose order is untouched.  A running cost counter that starts
    non-negative ends non-negative, and when no master has a negative cost
    the counter never grows. *)
Theorem X11_spawn_loop
    (q : list (Z * bool)) (tmpCost : Z) (this : BattleLogic) :
  let result := fold_left spawnOne q (tmpCost, this) in
  (exists n : nat,
     (n <= length q)%nat /\
     nextEntityId (snd result) = (nextEntityId this + n)%nat /\
     unitEntities (snd result)
     = unitEntities this ++ seq (nextEntityId this) n) /\
  (0 <= tmpCost -> 0 <= fst result) /\
  ((forall u master, unitMasterCache this !! u = Some master ->
                     0 <= UnitMaster.cost master) ->
   fst result <= tmpCost).
Proof.
  intros result. split; [apply spawnLoop_ids|]. split.
  - intros H0. exact (proj1 (spawnLoop_cost q tmpCost this H0)).
  - apply spawnLoop_spends.
Qed.

(** *** The scan for an engagement target *)

(** What [updateUnitIdleState] asks of a target. *)
Definition acceptable (s : BattleLogic) (unit : UnitEntity) (t : Ref) : Prop :=
  exists target d,
    heap s !! t = Some target /\
    isPlayer target <> isPlayer unit /\
    (state target = IDLE \/ state target = ENGAGED) /\
    delegator s = Some d /\
    shouldEngageAttackableEntity d unit target = true.

Lemma findEngageTarget_head s unit t rest :
  (acceptable s unit t /\ findEngageTarget s unit (t :: rest) = Some t) \/
  (~ acceptable s unit t /\
   findEngageTarget s unit (t :: rest) = findEngageTarget s unit rest).
Proof.
  cbn [findEngageTarget]. unfold acceptable.
  destruct (heap s !! t) as [target|] eqn:Ht.
  2:{ right. split; [|reflexivity]. intros (x & d & Hx & _). discriminate Hx. }
  destruct ((isPlayer unit && isPlayer target)
            || (negb (isPlayer unit) && negb (isPlayer target))) eqn:Hside.
  { right. split; [|reflexivity]. intros (x & d & [= <-] & Hne & _).
    destruct (isPlayer unit), (isPlayer target); simpl in Hside; congruence. }
  destruct (negb (bool_decide (state target = IDLE))
            && negb (bool_decide (state target = ENGAGED))) eqn:Hstate.
  { right. split; [|reflexivity]. intros (x & d & [= <-] & _ & Hst & _).
    apply andb_true_iff in Hstate. destruct Hstate as [H1 H2].
    apply negb_true_iff, bool_decide_eq_false in H1, H2. tauto. }
  destruct (delegator s) as [d|] eqn:Hd.
  2:{ right. split; [|reflexivity].
      intros (x & d & _ & _ & _ & Hd' & _). discriminate Hd'. }
  destruct (shouldEngageAttackableEntity d unit target) eqn:Hok.
  - left. split; [|reflexivity]. exists target, d.
    split; [reflexivity|]. split.
    { destruct (isPlayer unit), (isPlayer target); simpl in Hside; congruence. }
    split; [|split; [reflexivity|exact Hok]].
    destruct (bool_decide (state target = IDLE)) eqn:H1;
      [apply bool_decide_eq_true in H1; auto|].
    destruct (bool_decide (state target = ENGAGED)) eqn:H2;
      [apply bool_decide_eq_true in H2; auto|].
    simpl in Hstate. discriminate Hstate.
  - right. split; [|reflexivity].
    intros (x & d' & [= <-] & _ & _ & [= <-] & Hok'). congruence.
Qed.

(** X12.  The scan of [updateUnitIdleState] returns the first acceptable
    target in array order: a target it returns is on the other side, [IDLE]
    or [ENGAGED], and accepted by the delegator, and every entity before it
    in the array fails one of these; it returns nothing exactly when no
    entity of the array is acceptable.  The scanning unit's own distance and
    the target's health play no part. *)
Theorem X12_first_acceptable_target
    (s : BattleLogic) (unit : UnitEntity) (targets : list Ref) :
  match findEngageTarget s unit targets with
  | Some t =>
      exists pre post,
        targets = pre ++ t :: post /\
        acceptable s unit t /\
        forall t', In t' pre -> ~ acceptable s unit t'
  | None => forall t, In t targets -> ~ acceptable s unit t
  end.
Proof.
  induction targets as [|t0 rest IH]; [intros t []|].
  destruct (findEngageTarget_head s unit t0 rest) as [[Hacc Heq]|[Hno Heq]];
    rewrite Heq.
  - exists [], rest. split; [reflexivity|]. split; [exact Hacc|intros t' []].
  - destruct (findEngageTarget s unit rest) as [t|].
    + destruct IH as (pre & post & -> & Hacc & Hpre).
      exists (t0 :: pre), post. split; [reflexivity|]. split; [exact Hacc|].
      intros t' [<-|Hin]; [exact Hno|apply Hpre; exact Hin].
    + intros t [<-|Hin]; [exact Hno|apply IH; exact Hin].
Qed.

(** *** State-change notifications *)

(** The events [updateEntityState] records for the references [l], given the
    objects before and after the three resolution loops. *)
Definition stateChangeEvents (old new : gmap nat UnitEntity) (l : list Ref)
    : list Event :=
  flat_map (fun r =>
              match new !! r, old !! r with
              | Some entity, Some before =>
                  if bool_decide (state before = state entity) then []
                  else [onAttackableEntityStateChanged entity (state before)]
              | _, _ => []
              end) l.

Lemma stateChangeEvents_cons old new r l :
  stateChangeEvents old new (r :: l)
  = stateChangeEvents old new [r] ++ stateChangeEvents old new l.
Proof. unfold stateChangeEvents. simpl. rewrite app_nil_r. reflexivity. Qed.

Lemma notifyLoop_events (old : gmap nat UnitEntity) (d : BattleLogicDelegate) l :
  forall t,
    delegator t = Some d ->
    let step := fun (this : BattleLogic) (ro : Ref * option AttackableState) =>
                  match heap this !! fst ro, snd ro with
                  | Some entity, Some oldState =>
                      if bool_decide (oldState = state entity) then this
                      else notify (onAttackableEntityStateChanged entity oldState)
                             this
                  | _, _ => this
                  end in
    let t' := fold_left step (combine l (map (fun r => state <$> old !! r) l)) t in
    heap t' = heap t /\
    events t' = events t ++ stateChangeEvents old (heap t) l.
Proof.
  induction l as [|r l IH]; intros t Hd step.
  - simpl. rewrite app_nil_r. auto.
  - cbn [map combine fold_left]. fold step.
    set (t1 := step t (r, state <$> old !! r)).
    assert (H1 : delegator t1 = Some d /\ heap t1 = heap t /\
                 events t1 = events t ++ stateChangeEvents old (heap t) [r]).
    { unfold t1, step, stateChangeEvents. cbn [fst snd flat_map].
      rewrite app_nil_r.
      destruct (heap t !! r) as [entity|]; [|rewrite app_nil_r; auto].
      destruct (old !! r) as [before|]; cbn [fmap option_fmap option_map];
        [|rewrite app_nil_r; auto].
      destruct (bool_decide (state before = state entity));
        [rewrite app_nil_r; auto|].
      unfold notify. rewrite Hd. simpl. auto. }
    destruct H1 as (Hd1 & Hh1 & He1).
    destruct (IH t1 Hd1) as [Hh He]. fold step in Hh, He.
    split; [congruence|].
    rewrite He, He1, Hh1, <- app_assoc, (stateChangeEvents_cons _ _ r l).
    reflexivity.
Qed.

(** X13.  With a delegator attached, [updateEntityState] records, after the
    three resolution loops, one state-change event for each entity of the
    live array whose state after the loops differs from its state before
    them, in array order, carrying the entity as it is after the loops and
    its earlier state; an entity whose state is the same before and after
    gets no event, also when it changed in between. *)
Theorem X13_state_change_events (s : BattleLogic) (d : BattleLogicDelegate) :
  delegator s = Some d ->
  events (updateEntityState s)
  = events s
    ++ stateChangeEvents (heap s) (heap (resolveStates s)) (unitEntities s) /\
  heap (updateEntityState s) = heap (resolveStates s) /\
  forall ev,
    In ev (stateChangeEvents (heap s) (heap (resolveStates s)) (unitEntities s))
    <-> exists r before entity,
          In r (unitEntities s) /\
          heap s !! r = Some before /\
          heap (resolveStates s) !! r = Some entity /\
          state before <> state entity /\
          ev = onAttackableEntityStateChanged entity (state before).
Proof.
  intros Hd. destruct (resolveStates_events s) as [Hdr Her].
  assert (HL : unitEntities (resolveStates s) = unitEntities s)
    by exact (sameSkeleton_unitEntities _ _ (resolveStates_skeleton s)).
  assert (Hloop := notifyLoop_events (heap s) d (unitEntities s)
                     (resolveStates s) (eq_trans Hdr Hd)).
  cbv zeta in Hloop. destruct Hloop as [Hh He].
  unfold updateEntityState. cbv zeta. rewrite Hdr, Hd, HL.
  split; [rewrite He, Her; reflexivity|]. split; [exact Hh|].
  intros ev. unfold stateChangeEvents. rewrite in_flat_map. split.
  - intros (r & Hin & Hev).
    destruct (heap (resolveStates s) !! r) as [entity|] eqn:Hn; [|destruct Hev].
    destruct (heap s !! r) as [before|] eqn:Ho; [|destruct Hev].
    case_bool_decide; [destruct Hev|].
    destruct Hev as [<-|[]].
    exists r, before, entity. auto.
  - intros (r & before & entity & Hin & Ho & Hn & Hne & ->).
    exists r. split; [exact Hin|]. rewrite Hn, Ho.
    case_bool_decide; [contradiction|]. left. reflexivity.
Qed.

(** X13 in Scenario C after six frames, in the frame of the knock-back: the
    events recorded are those of the entities that go from [ENGAGED] to
    [KNOCK_BACK]. *)
Lemma X13_witness :
  events (updateEntityState (parametersUpdated (ScenarioC.frames 6)))
  = events (parametersUpdated (ScenarioC.frames 6))
    ++ stateChangeEvents
         (heap (parametersUpdated (ScenarioC.frames 6)))
         (heap (resolveStates (parametersUpdated (ScenarioC.frames 6))))
         (unitEntities (parametersUpdated (ScenarioC.frames 6))).
Proof.
  exact (proj1 (X13_state_change_events
                  (parametersUpdated (ScenarioC.frames 6)) permitAll
                  ltac:(vm_compute; reflexivity))).
Defined.

(** *** Damage of one frame *)

(** What the entity behind [a] deals to the object [t] in one turn of the
    loop of [updateEntityParameter], when the delegator does not object. *)
Definition damageFrom (s : BattleLogic) (t a : Ref) : Z :=
  match heap s !! a with
  | Some unit =>
      match unitMasterCache s !! unitId unit with
      | Some master =>
          if bool_decide (engagedEntity unit = Some t)
          then UnitMaster.power master else 0
      | None => 0
      end
  | None => 0
  end.

Definition damageTo (s : BattleLogic) (t : Ref) (l : list Ref) : Z :=
  fold_right (fun a acc => damageFrom s t a + acc) 0 l.

Lemma damageFrom_agree s s' t a :
  heapAgree shape (heap s) (heap s') ->
  unitMasterCache s' = unitMasterCache s ->
  damageFrom s' t a = damageFrom s t a.
Proof.
  intros Hsh Hm. unfold damageFrom. rewrite Hm.
  specialize (Hsh a).
  destruct (heap s' !! a) as [e'|], (heap s !! a) as [e|]; simpl in Hsh;
    try discriminate Hsh; [|reflexivity].
  assert (Hk : shape e' = shape e) by congruence.
  unfold shape in Hk.
  assert (Hu : unitId e' = unitId e) by congruence.
  assert (Hg : engagedEntity e' = engagedEntity e) by congruence.
  rewrite Hu, Hg. reflexivity.
Qed.

Lemma updateDamage_target a master s t target :
  (forall d, delegator s = Some d ->
     forall unit tg, shouldDamage d unit tg = true) ->
  heap s !! t = Some target ->
  exists target',
    heap (updateDamage a master s) !! t = Some target' /\
    let dealt := match heap s !! a with
                 | Some unit =>
                     if bool_decide (engagedEntity unit = Some t)
                     then UnitMaster.power master else 0
                 | None => 0
                 end in
    currentFrameDamage target' = currentFrameDamage target + dealt /\
    currentHealth target' = currentHealth target - dealt.
Proof.
  intros Hperm Ht. cbv zeta.
  destruct (heap s !! a) as [unit|] eqn:Ha.
  2:{ exists target. unfold updateDamage. rewrite Ha. split; [exact Ht|lia]. }
  case_bool_decide as Heng.
  - exists (with_currentHealth (currentHealth target - UnitMaster.power master)
              (with_currentFrameDamage
                 (currentFrameDamage target + UnitMaster.power master) target)).
    split; [|split; reflexivity].
    unfold updateDamage. rewrite Ha, Heng, Ht.
    assert (Hp : match delegator s with
                 | Some d => shouldDamage d unit target
                 | None => true
                 end = true).
    { destruct (delegator s) as [d|] eqn:Hd; [|reflexivity].
      apply (Hperm d eq_refl). }
    rewrite Hp.
    repeat case_match; rewrite ?notify_heap; simpl; apply lookup_insert_eq.
  - exists target. split; [|lia].
    rewrite updateDamage_lookup_unengaged; [exact Ht|].
    intros ea Hea. rewrite Ha in Hea. injection Hea as <-. exact Heng.
Qed.

Lemma parameterOne_target s a t target :
  (forall d, delegator s = Some d ->
     forall unit tg, shouldDamage d unit tg = true) ->
  heap s !! t = Some target ->
  exists target',
    heap (parameterOne s a) !! t = Some target' /\
    currentFrameDamage target' = currentFrameDamage target + damageFrom s t a /\
    currentHealth target' = currentHealth target - damageFrom s t a.
Proof.
  intros Hperm Ht. unfold parameterOne, damageFrom.
  destruct (heap s !! a) as [unit|] eqn:Ha;
    [|exists target; split; [exact Ht|lia]].
  destruct (unitMasterCache s !! unitId unit) as [master|];
    [|exists target; split; [exact Ht|lia]].
  destruct (updateDamage_target a master s t target Hperm Ht)
    as (t1 & Ht1 & Hd1 & Hh1).
  rewrite Ha in Hd1, Hh1.
  destruct (heapAgree_lookup unmoved _ _ t t1
              (updateDistance_unmoved a master _) Ht1) as (t2 & Ht2 & Hk).
  exists t2. split; [exact Ht2|]. unfold unmoved in Hk.
  assert (H1 : currentFrameDamage t2 = currentFrameDamage t1) by congruence.
  assert (H2 : currentHealth t2 = currentHealth t1) by congruence.
  rewrite H1, H2. split; assumption.
Qed.

Lemma parameterLoop_damage s t l :
  (forall d, delegator s = Some d ->
     forall unit tg, shouldDamage d unit tg = true) ->
  forall s' target,
    heapAgree shape (heap s) (heap s') -> sameSkeleton s s' ->
    heap s' !! t = Some target ->
    exists target',
      heap (fold_left parameterOne l s') !! t = Some target' /\
      currentFrameDamage target' = currentFrameDamage target + damageTo s t l /\
      currentHealth target' = currentHealth target - damageTo s t l.
Proof.
  intros Hperm. induction l as [|a l IH]; intros s' target Hsh Hsk Ht.
  - exists target. simpl. split; [exact Ht|lia].
  - cbn [fold_left damageTo fold_right].
    assert (Hperm' : forall d, delegator s' = Some d ->
                       forall unit tg, shouldDamage d unit tg = true).
    { intros d Hd. apply Hperm.
      rewrite <- (sameSkeleton_delegator _ _ Hsk). exact Hd. }
    destruct (parameterOne_target s' a t target Hperm' Ht)
      as (t1 & Ht1 & Hd1 & Hh1).
    rewrite (damageFrom_agree s s' t a Hsh
               (sameSkeleton_unitMasterCache _ _ Hsk)) in Hd1, Hh1.
    assert (Hsh1 : heapAgree shape (heap s) (heap (parameterOne s' a))).
    { eapply heapAgree_trans; [exact Hsh|].
      unfold parameterOne. repeat case_match; try apply heapAgree_refl.
      eapply heapAgree_trans; [apply updateDamage_shape|apply updateDistance_shape]. }
    assert (Hsk1 : sameSkeleton s (parameterOne s' a))
      by (eapply sameSkeleton_trans; [exact Hsk|apply parameterOne_skeleton]).
    destruct (IH _ t1 Hsh1 Hsk1 Ht1) as (t2 & Ht2 & Hd2 & Hh2).
    exists t2. split; [exact Ht2|]. fold (damageTo s t l). lia.
Qed.

(** X14.  Damage adds up.  When no delegator is attached, or the attached
    one permits every attack, the parameter update takes from an object's
    [currentHealth], and adds to its [currentFrameDamage], the sum of the
    powers of the entities of the live array that have it as their
    [engagedEntity] and whose master is present, one share per array
    position; the attacker's state and the target's state, health and
    membership in the array play no part. *)
Theorem X14_damage_adds_up (s : BattleLogic) (t : Ref) (target : UnitEntity) :
  (forall d, delegator s = Some d ->
     forall unit tg, shouldDamage d unit tg = true) ->
  heap s !! t = Some target ->
  exists target',
    heap (updateEntityParameter s) !! t = Some target' /\
    currentFrameDamage target'
    = currentFrameDamage target + damageTo s t (unitEntities s) /\
    currentHealth target'
    = currentHealth target - damageTo s t (unitEntities s).
Proof.
  intros Hperm Ht. unfold updateEntityParameter.
  apply (parameterLoop_damage s t (unitEntities s) Hperm s target);
    [apply heapAgree_refl|apply sameSkeleton_refl|exact Ht].
Qed.

(** X14 in Scenario C after three frames: entity [0], at health 80, is the
    engaged entity of entity [1]. *)
Lemma X14_witness :
  exists target',
    heap (updateEntityParameter (ScenarioC.frames 3)) !! 0%nat = Some target' /\
    currentFrameDamage target'
    = 0 + damageTo (ScenarioC.frames 3) 0%nat (unitEntities (ScenarioC.frames 3)) /\
    currentHealth target'
    = 80 - damageTo (ScenarioC.frames 3) 0%nat (unitEntities (ScenarioC.frames 3)).
Proof.
  apply (X14_damage_adds_up (ScenarioC.frames 3) 0%nat
           (mkUnitEntity 0 1 true ENGAGED 80 100 0 0 (Some 1%nat) 2)).
  - intros d Hd unit tg. vm_compute in Hd. injection Hd as <-. reflexivity.
  - vm_compute. reflexivity.
Defined.

(** *** The queue between two frames *)

(** The request a call appends to the queue. *)
Definition requestOf (c : Call) : list (Z * bool) :=
  match c with
  | CallRequestSpawn unitId0 isPlayer0 => [(unitId0, isPlayer0)]
  | _ => []
  end.

Lemma run_queue_no_update later :
  forall s,
    List.Forall (fun c => isUpdate c = false) later ->
    spawnRequestedUnitUnitIds (run later s)
    = spawnRequestedUnitUnitIds s ++ flat_map requestOf later.
Proof.
  unfold run. induction later as [|c later IH]; intros s Hall.
  - simpl. rewrite app_nil_r. reflexivity.
  - inversion Hall as [|c0 l0 Hc Hrest]; subst.
    cbn [fold_left flat_map]. rewrite (IH _ Hrest).
    destruct c as [params|u p|]; cbn [call requestOf].
    + rewrite (proj2 (proj2 (proj2 (init_fields params s)))). reflexivity.
    + unfold requestSpawn. simpl. rewrite <- app_assoc. reflexivity.
    + discriminate Hc.
Qed.

(** X15.  Between two frames the queue holds exactly the requests made since
    the last [update()], in the order they were made: [update()] empties the
    queue, whether or not a request was accepted, so a request that was
    dropped is not tried again; [init] leaves the queue alone. *)
Theorem X15_queue_between_frames (s : BattleLogic) (later : list Call) :
  List.Forall (fun c => isUpdate c = false) later ->
  spawnRequestedUnitUnitIds (run later (update s)) = flat_map requestOf later.
Proof.
  intros Hall. rewrite (run_queue_no_update later _ Hall), update_queue.
  reflexivity.
Qed.

(** X15 for two requests after the fourth frame of Scenario B. *)
Lemma X15_witness :
  spawnRequestedUnitUnitIds
    (run [CallRequestSpawn 1 true; CallRequestSpawn 9 false]
       (update ScenarioB.afterFourFrames))
  = [(1, true); (9, false)].
Proof.
  apply (X15_queue_between_frames ScenarioB.afterFourFrames
           [CallRequestSpawn 1 true; CallRequestSpawn 9 false]).
  repeat constructor.
Defined.

(** ** [ResourceMaster.Api.SceneUiGraph]: the file name of a scene *)

(** A string is the list of its UTF-16 code units.  [snake_case] is the
    constant of that name in [SceneUiGraph]: the class name with every
    match of [/([A-Z])/g] replaced by an underscore and the lower-case
    letter, and then one match of [/^_/] removed. *)
Module ResourceMaster.

Definition isUpperCase (c : N) : bool := ((65 <=? c) && (c <=? 90))%N.

Definition replaceUpperCase (name : list N) : list N :=
  flat_map (fun c => if isUpperCase c then [95; c + 32]%N else [c]) name.

Definition dropLeadingUnderscore (s : list N) : list N :=
  match s with
  | c :: rest => if (c =? 95)%N then rest else s
  | [] => []
  end.

Definition snake_case (name : list N) : list N :=
  dropLeadingUnderscore (replaceUpperCase name).

Lemma isUpperCase_true c : isUpperCase c = true <-> (65 <= c <= 90)%N.
Proof.
  unfold isUpperCase. rewrite andb_true_iff, !N.leb_le. reflexivity.
Qed.

Lemma isUpperCase_lowered c :
  isUpperCase c = true -> isUpperCase (c + 32) = false /\ (c + 32)%N <> 95%N.
Proof.
  intros H. apply isUpperCase_true in H. split; [|lia].
  destruct (isUpperCase (c + 32)) eqn:E; [|reflexivity].
  apply isUpperCase_true in E. lia.
Qed.

Lemma replaceUpperCase_lower name :
  List.Forall (fun c => isUpperCase c = false) (replaceUpperCase name).
Proof.
  induction name as [|c name IH]; [constructor|].
  unfold replaceUpperCase. cbn [flat_map]. fold (replaceUpperCase name).
  destruct (isUpperCase c) eqn:E.
  - constructor; [reflexivity|]. constructor; [|exact IH].
    apply (isUpperCase_lowered c E).
  - constructor; [exact E|exact IH].
Qed.

Lemma replaceUpperCase_id s :
  List.Forall (fun c => isUpperCase c = false) s -> replaceUpperCase s = s.
Proof.
  induction 1 as [|c s Hc _ IH]; [reflexivity|].
  unfold replaceUpperCase. cbn [flat_map]. fold (replaceUpperCase s).
  rewrite Hc, IH. reflexivity.
Qed.

Lemma dropLeadingUnderscore_lower s :
  List.Forall (fun c => isUpperCase c = false) s ->
  List.Forall (fun c => isUpperCase c = false) (dropLeadingUnderscore s).
Proof.
  intros H. destruct H as [|c s Hc Hs]; [constructor|].
  unfold dropLeadingUnderscore. destruct (c =? 95)%N; [exact Hs|].
  constructor; assumption.
Qed.

Lemma snake_case_head c rest :
  c <> 95%N ->
  exists c' rest', snake_case (c :: rest) = c' :: rest' /\ c' <> 95%N.
Proof.
  intros Hc. unfold snake_case, replaceUpperCase. cbn [flat_map].
  fold (replaceUpperCase rest).
  destruct (isUpperCase c) eqn:E.
  - exists (c + 32)%N, (replaceUpperCase rest). split; [reflexivity|].
    apply (isUpperCase_lowered c E).
  - exists c, (replaceUpperCase rest). split; [|exact Hc].
    cbn [app dropLeadingUnderscore].
    destruct (c =? 95)%N eqn:E95; [|reflexivity].
    apply N.eqb_eq in E95. contradiction.
Qed.

End ResourceMaster.

(** X16.  The file name [SceneUiGraph] derives from a scene's class name
    holds no upper-case letter [A]-[Z].  A name without upper-case letters
    that does not start with an underscore is its own file name, and for a
    class name that does not start with an underscore deriving twice gives
    what deriving once gives.  The derivation is not one to one: the class
    names [AB] and [A_b] both give [a_b]. *)
Theorem X16_snake_case (name : list N) :
  List.Forall (fun c => ResourceMaster.isUpperCase c = false)
    (ResourceMaster.snake_case name) /\
  (List.Forall (fun c => ResourceMaster.isUpperCase c = false) name ->
   (forall rest, name <> 95%N :: rest) ->
   ResourceMaster.snake_case name = name) /\
  ((forall rest, name <> 95%N :: rest) ->
   ResourceMaster.snake_case (ResourceMaster.snake_case name)
   = ResourceMaster.snake_case name) /\
  ResourceMaster.snake_case [65; 66]%N = [97; 95; 98]%N /\
  ResourceMaster.snake_case [65; 95; 98]%N = [97; 95; 98]%N.
Proof.
  assert (Hfix : forall s,
            List.Forall (fun c => ResourceMaster.isUpperCase c = false) s ->
            (forall rest, s <> 95%N :: rest) ->
            ResourceMaster.snake_case s = s).
  { intros s Hlow Hhead. unfold ResourceMaster.snake_case.
    rewrite (ResourceMaster.replaceUpperCase_id s Hlow).
    destruct s as [|c rest]; [reflexivity|].
    unfold ResourceMaster.dropLeadingUnderscore.
    destruct (c =? 95)%N eqn:E; [|reflexivity].
    apply N.eqb_eq in E. subst c. destruct (Hhead rest eq_refl). }
  assert (Hlow : List.Forall (fun c => ResourceMaster.isUpperCase c = false)
                   (ResourceMaster.snake_case name)).
  { apply ResourceMaster.dropLeadingUnderscore_lower,
      ResourceMaster.replaceUpperCase_lower. }
  split; [exact Hlow|]. split; [apply Hfix|].
  split; [|split; reflexivity].
  intros Hhead. apply Hfix; [exact Hlow|].
  destruct name as [|c rest]; [intros r H; discriminate H|].
  assert (Hc : c <> 95%N) by (intros ->; exact (Hhead rest eq_refl)).
  destruct (ResourceMaster.snake_case_head c rest Hc) as (c' & rest' & Heq & Hc').
  rewrite Heq. intros r H. injection H as -> _. contradiction.
Qed.
